(** * Verification of the ptychographic reconstruction code

    A shallow embedding of [interpolation.py], [tensorflow_recon/util.py]
    and [tensorflow_recon/ptychography.py].

    Tensors are nested lists.  Floating-point numbers are idealised: the
    numeric kernels are modelled over the real numbers [R], the scalar
    bookkeeping of the driver (losses, voxel values) over the rationals
    [Q], which keeps the driver executable. *)

From Stdlib Require Import String.
From Stdlib Require Import Reals Lra Psatz Zfloor.
From Stdlib Require Import QArith Qround.
From Stdlib Require Import Epsilon.
From Stdlib Require Import List Arith ZArith Lia Bool.
Import ListNotations.

(* ================================================================= *)
(** * util.py: [fftshift] and [ifftshift] *)
(* ================================================================= *)

Module Shift.

Section Tensor.

Variable A : Type.

(** A rank-[d] tensor is a [d]-fold nested list. *)
Fixpoint tensor (d : nat) : Type :=
  match d with
  | O => A
  | S d' => list (tensor d')
  end.

(** [tensor.shape]: the static shape, read along the first elements. *)
Fixpoint shape_of (d : nat) : tensor d -> list nat :=
  match d return tensor d -> list nat with
  | O => fun _ => []
  | S d' => fun t =>
      length t :: match t with
                  | [] => repeat 0%nat d'
                  | x :: _ => shape_of d' x
                  end
  end.

(** TensorFlow tensors are rectangular: [has_shape d s t]. *)
Fixpoint has_shape (d : nat) (s : list nat) : tensor d -> Prop :=
  match d return tensor d -> Prop with
  | O => fun _ => s = []
  | S d' => fun t =>
      match s with
      | [] => False
      | n :: s' =>
          length t = n /\ length s' = d' /\ Forall (has_shape d' s') t
      end
  end.

(** [l[i] = v] on a Python list of integers. *)
Definition set_at (l : list nat) (i v : nat) : list nat :=
  firstn i l ++ match skipn i l with
                | [] => []
                | _ :: r => v :: r
                end.

(** [tf.slice(tensor, begin, size)]. *)
Fixpoint slice (d : nat) (begin size : list nat) : tensor d -> tensor d :=
  match d return tensor d -> tensor d with
  | O => fun t => t
  | S d' => fun t =>
      map (slice d' (tl begin) (tl size))
          (firstn (hd 0%nat size) (skipn (hd 0%nat begin) t))
  end.

Fixpoint map2 {X Y Z : Type} (f : X -> Y -> Z) (l1 : list X) (l2 : list Y)
  : list Z :=
  match l1, l2 with
  | x :: l1', y :: l2' => f x y :: map2 f l1' l2'
  | _, _ => []
  end.

(** [tf.concat([t1, t2], axis)]. *)
Fixpoint concat (d : nat) (axis : nat) : tensor d -> tensor d -> tensor d :=
  match d return tensor d -> tensor d -> tensor d with
  | O => fun t1 _ => t1
  | S d' => fun t1 t2 =>
      match axis with
      | O => t1 ++ t2
      | S a => map2 (concat d' a) t1 t2
      end
  end.

(** One iteration of the loop body shared by [fftshift] and [ifftshift];
    [split n] is the value of [p2] for an axis of length [n]. *)
Definition shift_axis (split : nat -> nat) (d : nat) (t : tensor d) (i : nat)
  : tensor d :=
  let shape := shape_of d t in
  let ndim := length shape in
  let n := nth i shape 0%nat in
  let p2 := split n in
  let begin1 := set_at (repeat 0%nat ndim) i p2 in
  let size1 := set_at shape i (nth i shape 0%nat - p2) in
  let begin2 := repeat 0%nat ndim in
  let size2 := set_at shape i p2 in
  let t1 := slice d begin1 size1 t in
  let t2 := slice d begin2 size2 t in
  concat d i t1 t2.

(** [p2 = (n+1) // 2] *)
Definition fft_split (n : nat) : nat := (n + 1) / 2.

(** [p2 = n - (n + 1) // 2] *)
Definition ifft_split (n : nat) : nat := n - (n + 1) / 2.

(** [for i in range(ndim): ...] *)
Definition shift_loop (split : nat -> nat) (d : nat) (t : tensor d)
  : tensor d :=
  fold_left (shift_axis split d) (seq 0 (length (shape_of d t))) t.

Definition fftshift (d : nat) (t : tensor d) : tensor d :=
  shift_loop fft_split d t.

Definition ifftshift (d : nat) (t : tensor d) : tensor d :=
  shift_loop ifft_split d t.

(** ** Specification-level view: rotation of one axis *)

Definition rot {X : Type} (p : nat) (l : list X) : list X :=
  skipn p l ++ firstn p l.

Fixpoint rot_axis (split : nat -> nat) (d : nat) (i : nat)
  : tensor d -> tensor d :=
  match d return tensor d -> tensor d with
  | O => fun t => t
  | S d' => fun t =>
      match i with
      | O => rot (split (length t)) t
      | S i' => map (rot_axis split d' i') t
      end
  end.

(** Rolling axis [i] by a fixed amount [p]. *)
Fixpoint roll (d : nat) (i : nat) (p : nat) : tensor d -> tensor d :=
  match d return tensor d -> tensor d with
  | O => fun t => t
  | S d' => fun t =>
      match i with
      | O => rot p t
      | S i' => map (roll d' i' p) t
      end
  end.

(** The part of axis [i] kept by a slice that is full on every other axis. *)
Fixpoint cut (d : nat) (i : nat) (b sz : nat) : tensor d -> tensor d :=
  match d return tensor d -> tensor d with
  | O => fun t => t
  | S d' => fun t =>
      match i with
      | O => firstn sz (skipn b t)
      | S i' => map (cut d' i' b sz) t
      end
  end.

(** The shape [shape_of] reports for a tensor of shape [s]: nothing can be
    read below an empty axis. *)
Fixpoint ztrunc (s : list nat) : list nat :=
  match s with
  | [] => []
  | n :: s' => n :: match n with
                    | O => repeat 0%nat (length s')
                    | S _ => ztrunc s'
                    end
  end.

(** The loop of [shift_axis] with the amounts read from a fixed shape. *)
Definition roll_all (split : nat -> nat) (s : list nat) (d : nat)
  (l : list nat) (t : tensor d) : tensor d :=
  fold_left (fun u i => roll d i (split (nth i s 0%nat)) u) l t.

(** ** Lemmas on lists *)

Lemma rot_rot {X : Type} (l : list X) (p q : nat) :
  (p <= length l)%nat -> (p + q = length l)%nat -> rot q (rot p l) = l.
Proof.
  intros Hp Hq. unfold rot.
  assert (Hl : length (skipn p l) = q) by (rewrite length_skipn; lia).
  rewrite <- Hl at 1.
  rewrite skipn_app, skipn_all, Nat.sub_diag. simpl.
  rewrite <- Hl, firstn_app, firstn_all, Nat.sub_diag. simpl.
  rewrite app_nil_r. apply firstn_skipn.
Qed.

Lemma rot_map {X Y : Type} (f : X -> Y) (l : list X) (p : nat) :
  rot p (map f l) = map f (rot p l).
Proof.
  unfold rot. now rewrite map_app, skipn_map, firstn_map.
Qed.

Lemma length_rot {X : Type} (l : list X) (p : nat) :
  length (rot p l) = length l.
Proof.
  unfold rot. rewrite length_app, length_skipn, length_firstn. lia.
Qed.

Lemma In_firstn_skipn {X : Type} (l : list X) (b sz : nat) (x : X) :
  In x (firstn sz (skipn b l)) -> In x l.
Proof.
  intros H. rewrite <- (firstn_skipn b l). apply in_or_app. right.
  rewrite <- (firstn_skipn sz (skipn b l)). apply in_or_app. now left.
Qed.

Lemma In_rot {X : Type} (l : list X) (p : nat) (x : X) :
  In x (rot p l) -> In x l.
Proof.
  unfold rot. intros H. apply in_app_or in H.
  rewrite <- (firstn_skipn p l). apply in_or_app. tauto.
Qed.

Lemma map2_map {X Y : Type} (f g : X -> Y) (h : Y -> Y -> Y) (l : list X) :
  map2 h (map f l) (map g l) = map (fun x => h (f x) (g x)) l.
Proof.
  induction l as [|x l IH]; simpl; [reflexivity | now rewrite IH].
Qed.

Lemma map_id_on {X : Type} (f : X -> X) (l : list X) :
  (forall x, In x l -> f x = x) -> map f l = l.
Proof.
  intros H. rewrite <- (map_id l) at 2. apply map_ext_in. exact H.
Qed.

Lemma set_at_0 (x : nat) (l : list nat) (v : nat) :
  set_at (x :: l) 0 v = v :: l.
Proof. reflexivity. Qed.

Lemma set_at_S (x : nat) (l : list nat) (i v : nat) :
  set_at (x :: l) (S i) v = x :: set_at l i v.
Proof. reflexivity. Qed.

Lemma set_at_zeros (n i : nat) :
  set_at (repeat 0%nat n) i 0 = repeat 0%nat n.
Proof.
  revert i. induction n as [|n IH]; intros [|i]; simpl; try reflexivity.
  rewrite set_at_S. now rewrite IH.
Qed.

Lemma fold_left_map {X : Type} (h : nat -> X -> X) (l : list nat)
  (t : list X) :
  fold_left (fun u i => map (h i) u) l t
  = map (fun x => fold_left (fun y i => h i y) l x) t.
Proof.
  revert t. induction l as [|i l IH]; intros t; simpl.
  - now rewrite map_id.
  - rewrite IH, map_map. reflexivity.
Qed.

Lemma fold_left_map_S {X : Type} (g : X -> nat -> X) (l : list nat) (t : X) :
  fold_left g (map S l) t = fold_left (fun u i => g u (S i)) l t.
Proof.
  revert t. induction l as [|i l IH]; intros t; simpl; [reflexivity|].
  apply IH.
Qed.

Lemma split_sum (n : nat) :
  (fft_split n <= n /\ ifft_split n <= n /\ fft_split n + ifft_split n = n)%nat.
Proof.
  unfold fft_split, ifft_split.
  assert (H : ((n + 1) / 2 <= n)%nat).
  { destruct n as [|n]; [reflexivity|].
    apply Nat.Div0.div_le_upper_bound. lia. }
  lia.
Qed.

(** ** Shapes *)

Lemma length_shape_of (d : nat) (t : tensor d) : length (shape_of d t) = d.
Proof.
  induction d as [|d IH]; simpl; [reflexivity|].
  destruct t as [|x t]; simpl; [now rewrite repeat_length | now rewrite IH].
Qed.

Lemma has_shape_length (d : nat) (s : list nat) (t : tensor d) :
  has_shape d s t -> length s = d.
Proof.
  destruct d as [|d]; simpl.
  - now intros ->.
  - destruct s as [|n s]; [contradiction|]. simpl. intros (_ & H & _).
    now rewrite H.
Qed.

Lemma has_shape_ztrunc (d : nat) (s : list nat) (t : tensor d) :
  has_shape d s t -> has_shape d (ztrunc s) t /\ shape_of d t = ztrunc s.
Proof.
  revert s t. induction d as [|d IH]; intros s t H; simpl in *.
  - subst. split; reflexivity.
  - destruct s as [|n s]; [contradiction|]. destruct H as (Hn & Hs & HF).
    simpl. destruct t as [|x t]; simpl in Hn; subst n.
    + rewrite repeat_length, Hs. repeat split; auto.
    + simpl. inversion HF as [|? ? Hx Ht]; subst.
      destruct (IH _ _ Hx) as [Hx' Ex]. rewrite Ex.
      repeat split; auto.
      * now apply has_shape_length in Hx'.
      * constructor; [exact Hx'|].
        rewrite Forall_forall in *. intros y Hy. now apply IH, Ht.
Qed.

Lemma has_shape_roll (d : nat) (s : list nat) (t : tensor d) (i p : nat) :
  has_shape d s t -> has_shape d s (roll d i p t).
Proof.
  revert s t i. induction d as [|d IH]; intros s t i H; simpl in *.
  - exact H.
  - destruct s as [|n s]; [contradiction|]. destruct H as (Hn & Hs & HF).
    rewrite Forall_forall in HF.
    destruct i as [|i].
    + rewrite length_rot. repeat split; auto.
      rewrite Forall_forall. intros x Hx. apply HF. now apply In_rot in Hx.
    + rewrite length_map. repeat split; auto.
      rewrite Forall_forall. intros y Hy. apply in_map_iff in Hy.
      destruct Hy as (x & <- & Hx). apply IH. now apply HF.
Qed.

(** ** The loop body is a roll of axis [i] *)

Lemma slice_full (d : nat) (s : list nat) (t : tensor d) :
  has_shape d s t -> slice d (repeat 0%nat d) s t = t.
Proof.
  revert s t. induction d as [|d IH]; intros s t H; simpl in *.
  - reflexivity.
  - destruct s as [|n s]; [contradiction|]. destruct H as (Hn & Hs & HF).
    simpl. subst n. rewrite firstn_all. apply map_id_on.
    rewrite Forall_forall in HF. intros x Hx. apply IH. now apply HF.
Qed.

Lemma slice_cut (d : nat) (s : list nat) (t : tensor d) (i b sz : nat) :
  has_shape d s t -> (i < d)%nat ->
  slice d (set_at (repeat 0%nat d) i b) (set_at s i sz) t = cut d i b sz t.
Proof.
  revert s t i. induction d as [|d IH]; intros s t i H Hi; [lia|].
  simpl in H. destruct s as [|n s]; [contradiction|].
  destruct H as (Hn & Hs & HF). rewrite Forall_forall in HF.
  destruct i as [|i].
  - simpl repeat. rewrite !set_at_0. simpl.
    apply map_id_on. intros x Hx. apply slice_full. apply HF.
    now apply In_firstn_skipn in Hx.
  - simpl repeat. rewrite !set_at_S. simpl. subst n. rewrite firstn_all.
    apply map_ext_in. intros x Hx. apply IH; [now apply HF | lia].
Qed.

Lemma concat_cut (d : nat) (s : list nat) (t : tensor d) (i p : nat) :
  has_shape d s t -> (i < d)%nat ->
  concat d i (cut d i p (nth i s 0%nat - p) t) (cut d i 0 p t) = roll d i p t.
Proof.
  revert s t i. induction d as [|d IH]; intros s t i H Hi; [lia|].
  simpl in H. destruct s as [|n s]; [contradiction|].
  destruct H as (Hn & Hs & HF). rewrite Forall_forall in HF.
  destruct i as [|i]; simpl.
  - unfold rot. f_equal. apply firstn_all2. rewrite length_skipn. lia.
  - rewrite map2_map. apply map_ext_in. intros x Hx.
    apply IH; [now apply HF | lia].
Qed.

Lemma shift_axis_roll (split : nat -> nat) (d : nat) (s : list nat)
  (t : tensor d) (i : nat) :
  has_shape d s t -> (i < d)%nat ->
  shift_axis split d t i = roll d i (split (nth i (ztrunc s) 0%nat)) t.
Proof.
  intros H Hi. destruct (has_shape_ztrunc _ _ _ H) as [H' E].
  unfold shift_axis. rewrite length_shape_of, E.
  rewrite (slice_cut d _ t i _ _ H' Hi).
  rewrite <- (set_at_zeros d i) at 1.
  rewrite (slice_cut d _ t i _ _ H' Hi).
  now apply concat_cut.
Qed.

Lemma shift_loop_roll_all (split : nat -> nat) (d : nat) (s : list nat)
  (t : tensor d) :
  has_shape d s t ->
  shift_loop split d t = roll_all split (ztrunc s) d (seq 0 d) t.
Proof.
  intros H. unfold shift_loop, roll_all. rewrite length_shape_of.
  assert (Hl : forall i, In i (seq 0 d) -> (i < d)%nat).
  { intros i Hin. apply in_seq in Hin. lia. }
  revert t H Hl. generalize (seq 0 d) as l.
  induction l as [|i l IH]; intros t H Hl; simpl; [reflexivity|].
  rewrite (shift_axis_roll split d s t i H) by (apply Hl; now left).
  apply IH; [now apply has_shape_roll | intros j Hj; apply Hl; now right].
Qed.

Lemma roll_all_cons (split : nat -> nat) (n : nat) (s : list nat) (d : nat)
  (t : tensor (S d)) :
  roll_all split (n :: s) (S d) (seq 0 (S d)) t
  = map (roll_all split s d (seq 0 d)) (rot (split n) t).
Proof.
  unfold roll_all. simpl. rewrite <- seq_shift, fold_left_map_S.
  simpl. now rewrite fold_left_map.
Qed.

Lemma has_shape_roll_all (split : nat -> nat) (s0 : list nat) (d : nat)
  (s : list nat) (l : list nat) (t : tensor d) :
  has_shape d s t -> has_shape d s (roll_all split s0 d l t).
Proof.
  unfold roll_all. revert t. induction l as [|i l IH]; intros t H; simpl.
  - exact H.
  - apply IH. now apply has_shape_roll.
Qed.

Lemma roll_all_inverse (f g : nat -> nat) (d : nat) (s : list nat)
  (t : tensor d) :
  (forall n, (f n <= n /\ f n + g n = n)%nat) ->
  has_shape d s t ->
  roll_all g s d (seq 0 d) (roll_all f s d (seq 0 d) t) = t.
Proof.
  intros Hfg. revert s t. induction d as [|d IH]; intros s t H.
  - reflexivity.
  - simpl in H. destruct s as [|n s]; [contradiction|].
    destruct H as (Hn & Hs & HF). rewrite Forall_forall in HF.
    rewrite !roll_all_cons. rewrite rot_map, map_map.
    destruct (Hfg n) as [Hle Hsum]. subst n.
    transitivity
      (map (fun x => roll_all g s d (seq 0 d) (roll_all f s d (seq 0 d) x)) t).
    { f_equal. apply (@rot_rot (tensor d)); [exact Hle | exact Hsum]. }
    apply map_id_on. intros x Hx. apply IH. now apply HF.
Qed.

End Tensor.

Arguments has_shape {A} d s t.
Arguments fftshift {A} d t.
Arguments ifftshift {A} d t.

Example fftshift_odd :
  fftshift 1 [1; 2; 3; 4; 5]%nat = [4; 5; 1; 2; 3]%nat.
Proof. reflexivity. Qed.

Example ifftshift_odd :
  ifftshift 1 [1; 2; 3; 4; 5]%nat = [3; 4; 5; 1; 2]%nat.
Proof. reflexivity. Qed.

Example fftshift_2d :
  fftshift 2 [[1; 2; 3]; [4; 5; 6]]%nat = [[6; 4; 5]; [3; 1; 2]]%nat.
Proof. reflexivity. Qed.

(** C10.  For a tensor of any rank [d] and any shape [s] (even or odd
    axis lengths, empty axes included), [fftshift] and [ifftshift] are
    mutual inverses: [ifftshift (fftshift t) = t] and
    [fftshift (ifftshift t) = t]. *)
Theorem fftshift_ifftshift_inverse (A : Type) (d : nat) (s : list nat)
  (t : tensor A d) :
  has_shape d s t ->
  ifftshift d (fftshift d t) = t /\ fftshift d (ifftshift d t) = t.
Proof.
  intros H. unfold fftshift, ifftshift.
  destruct (has_shape_ztrunc A d s t H) as [H' _].
  rewrite !(shift_loop_roll_all A _ d s t H).
  rewrite !(shift_loop_roll_all A _ d s _ (has_shape_roll_all A _ _ d s _ t H)).
  split; apply roll_all_inverse; try exact H'; intros n;
    destruct (split_sum n) as (? & ? & ?); lia.
Qed.

Lemma fftshift_ifftshift_inverse_witness :
  has_shape 2 [2; 3]%nat [[1; 2; 3]; [4; 5; 6]]%nat /\
  (ifftshift 2 (fftshift 2 [[1; 2; 3]; [4; 5; 6]]%nat)
     = [[1; 2; 3]; [4; 5; 6]]%nat /\
   fftshift 2 (ifftshift 2 [[1; 2; 3]; [4; 5; 6]]%nat)
     = [[1; 2; 3]; [4; 5; 6]]%nat).
Proof.
  assert (H : has_shape (A:=nat) 2 [2; 3]%nat [[1; 2; 3]; [4; 5; 6]]%nat).
  { simpl. repeat split; repeat constructor. }
  split; [exact H|].
  exact (fftshift_ifftshift_inverse nat 2 [2; 3]%nat _ H).
Defined.

End Shift.

(* ================================================================= *)
(** * interpolation.py: [biliniear_interpolation_3d] *)
(* ================================================================= *)

Module Interp.

Local Open Scope R_scope.

(** ** TensorFlow operations used by the function *)

Definition tensor3 : Type := list (list (list R)).
Definition matrix : Type := list (list R).

Definition shape3 (n0 n1 n2 : nat) (data : tensor3) : Prop :=
  Shift.has_shape 3 [n0; n1; n2] data.

(** Mirror one element at each end of a list: [a b c] becomes
    [a a b c c]. *)
Definition pad1 {X : Type} (l : list X) : list X :=
  match l with
  | [] => []
  | x :: _ => x :: l ++ [last l x]
  end.

Definition has_empty_axis (data : tensor3) : bool :=
  existsb (Nat.eqb 0) (Shift.shape_of R 3 data).

(** [tf.pad(data, [[1, 1], [1, 1], [1, 1]], mode='SYMMETRIC')]; the
    operation is rejected when an axis is shorter than its padding. *)
Definition pad_symmetric (data : tensor3) : option tensor3 :=
  if has_empty_axis data then None
  else Some (pad1 (map (fun plane => pad1 (map pad1 plane)) data)).

(** Indexing with a TensorFlow [int32] index: a negative index or one past
    the end is an error. *)
Definition nth_Z {X : Type} (l : list X) (i : Z) : option X :=
  if (i <? 0)%Z then None else nth_error l (Z.to_nat i).

Definition index : Type := (Z * Z * Z)%type.
Definition point : Type := (R * R * R)%type.

(** [tf.gather_nd(data, i)] for one index triple. *)
Definition gather_nd (data : tensor3) (i : index) : option R :=
  let '(i0, i1, i2) := i in
  match nth_Z data i0 with
  | None => None
  | Some plane =>
      match nth_Z plane i1 with
      | None => None
      | Some row => nth_Z row i2
      end
  end.

Definition add_index (i d : index) : index :=
  let '(i0, i1, i2) := i in
  let '(d0, d1, d2) := d in
  ((i0 + d0)%Z, (i1 + d1)%Z, (i2 + d2)%Z).

Definition rsum (l : list R) : R := fold_right Rplus 0 l.

Definition dot (u v : list R) : R := rsum (Shift.map2 Rmult u v).

Definition col (j : nat) (B : matrix) : list R :=
  map (fun row => nth j row 0) B.

(** [tf.matmul(A, B)] *)
Definition matmul (A B : matrix) : matrix :=
  map (fun row => map (fun j => dot row (col j B))
                      (seq 0 (length (hd [] B)))) A.

Definition identity (n : nat) : matrix :=
  map (fun i => map (fun j => if Nat.eqb i j then 1 else 0) (seq 0 n))
      (seq 0 n).

Definition is_square (n : nat) (M : matrix) : Prop :=
  length M = n /\ Forall (fun row => length row = n) M.

Definition is_inverse (A B : matrix) : Prop :=
  is_square (length A) B /\
  matmul A B = identity (length A) /\ matmul B A = identity (length A).

(** [tf.matrix_inverse(A)]: the inverse of [A], whenever [A] has one. *)
Definition matrix_inverse (A : matrix) : matrix :=
  epsilon (inhabits []) (is_inverse A).

(** ** The function, for one query point *)

(** The eight neighbour offsets, in the order the values are stacked
    into [c]: [c000, c100, c010, c110, c001, c101, c011, c111]. *)
Definition offsets : list index :=
  [ (0, 0, 0); (1, 0, 0); (0, 1, 0); (1, 1, 0);
    (0, 0, 1); (1, 0, 1); (0, 1, 1); (1, 1, 1) ]%Z.

(** One row [tf.stack([h00, x, y, z, x*y, x*z, y*z, x*y*z])]. *)
Definition hrow (x y z : R) : list R :=
  [1; x; y; z; x * y; x * z; y * z; x * y * z].

Definition hmatrix (x0 y0 z0 x1 y1 z1 : R) : matrix :=
  [ hrow x0 y0 z0; hrow x1 y0 z0; hrow x0 y1 z0; hrow x1 y1 z0;
    hrow x0 y0 z1; hrow x1 y0 z1; hrow x0 y1 z1; hrow x1 y1 z1 ].

Fixpoint sequence {X : Type} (l : list (option X)) : option (list X) :=
  match l with
  | [] => Some []
  | None :: _ => None
  | Some x :: l' =>
      match sequence l' with
      | None => None
      | Some r => Some (x :: r)
      end
  end.

(** [i000, i100, i010, i110, i001, i101, i011, i111] *)
Definition neighbours_of (i000 : index) : list index :=
  map (add_index i000) offsets.

(** [tf.cast(tf.floor(warp + 1), tf.int32)] for one point; the integers
    are unbounded. *)
Definition floor_index (w : point) : index :=
  let '(x, y, z) := w in (Zfloor (x + 1), Zfloor (y + 1), Zfloor (z + 1)).

(** The neighbour indices gathered for a query point. *)
Definition neighbours (w : point) : list index :=
  neighbours_of (floor_index w).

(** [a[0] + a[1]*x + a[2]*y + a[3]*z + a[4]*x*y + a[5]*x*z + a[6]*y*z
     + a[7]*x*y*z] *)
Definition eval_fit (a : list R) (x y z : R) : R :=
  let a_ k := nth k a 0 in
  a_ 0%nat + a_ 1%nat * x + a_ 2%nat * y + a_ 3%nat * z
  + a_ 4%nat * x * y + a_ 5%nat * x * z + a_ 6%nat * y * z
  + a_ 7%nat * x * y * z.

(** The coefficients [a] of the fit through the eight values [cs] at the
    corners of the cell with lower corner [i000]. *)
Definition fit (i000 : index) (cs : list R) : list R :=
  let i111 := add_index i000 (1, 1, 1)%Z in
  let x0 := IZR (fst (fst i000)) in
  let y0 := IZR (snd (fst i000)) in
  let z0 := IZR (snd i000) in
  let x1 := IZR (fst (fst i111)) in
  let y1 := IZR (snd (fst i111)) in
  let z1 := IZR (snd i111) in
  let h := hmatrix x0 y0 z0 x1 y1 z1 in
  let c := map (fun v => [v]) cs in
  map (fun row => hd 0 row) (matmul (matrix_inverse h) c).

(** The body of the function for one query point [w] of [warp], on the
    padded field. *)
Definition interpolate_point (padded : tensor3) (w : point) : option R :=
  let '(x, y, z) := w in
  let i000 := floor_index w in
  match sequence (map (gather_nd padded) (neighbours_of i000)) with
  | None => None
  | Some cs => Some (eval_fit (fit i000 cs) (x + 1) (y + 1) (z + 1))
  end.

(** [biliniear_interpolation_3d(data, warp)]: [None] when a TensorFlow
    operation rejects its arguments. *)
Definition biliniear_interpolation_3d (data : tensor3) (warp : list point)
  : option (list R) :=
  match pad_symmetric data with
  | None => None
  | Some padded => sequence (map (interpolate_point padded) warp)
  end.

(** ** Specification-level definitions *)

Definition bigsum (n : nat) (f : nat -> R) : R := rsum (map f (seq 0 n)).

Definition entry (M : matrix) (i j : nat) : R := nth j (nth i M []) 0.

(** Source index read by the padded field at index [i], for an axis of
    length [n]. *)
Definition mirror (n : nat) (i : Z) : Z :=
  Z.max 0 (Z.min (Z.of_nat n - 1) (i - 1)).

(** Trilinear interpolation in Lagrange form on the cell with lower corner
    [(x0, y0, z0)] and corner values [cs]. *)
Definition trilinear (x0 y0 z0 : R) (cs : list R) (x y z : R) : R :=
  let c k := nth k cs 0 in
  let u := x - x0 in
  let v := y - y0 in
  let w := z - z0 in
  c 0%nat * (1 - u) * (1 - v) * (1 - w) + c 1%nat * u * (1 - v) * (1 - w)
  + c 2%nat * (1 - u) * v * (1 - w) + c 3%nat * u * v * (1 - w)
  + c 4%nat * (1 - u) * (1 - v) * w + c 5%nat * u * (1 - v) * w
  + c 6%nat * (1 - u) * v * w + c 7%nat * u * v * w.

(** The trilinear polynomial with coefficients [a0 .. a7]. *)
Definition poly (a : list R) (w : point) : R :=
  let '(x, y, z) := w in eval_fit a x y z.

(** The explicit inverse of [hmatrix] on a unit cell: column [r] holds the
    monomial coefficients of the Lagrange basis function of corner [r]. *)
Definition wcoef (e b : bool) (x0 : R) : R :=
  match e, b with
  | false, false => x0 + 1
  | false, true => - x0
  | true, false => -1
  | true, true => 1
  end.

Definition corner_bits : list (bool * bool * bool) :=
  [ (false, false, false); (true, false, false); (false, true, false);
    (true, true, false); (false, false, true); (true, false, true);
    (false, true, true); (true, true, true) ].

Definition monomial_flags : list (bool * bool * bool) :=
  [ (false, false, false); (true, false, false); (false, true, false);
    (false, false, true); (true, true, false); (true, false, true);
    (false, true, true); (true, true, true) ].

Definition hinv (x0 y0 z0 : R) : matrix :=
  map (fun e : bool * bool * bool =>
         let '(ex, ey, ez) := e in
         map (fun b : bool * bool * bool =>
                let '(bx, by_, bz) := b in
                wcoef ex bx x0 * wcoef ey by_ y0 * wcoef ez bz z0)
             corner_bits)
      monomial_flags.

Definition mirror3 (n0 n1 n2 : nat) (i : index) : index :=
  let '(i0, i1, i2) := i in (mirror n0 i0, mirror n1 i1, mirror n2 i2).

(** The value stored at an index ([0] outside the field). *)
Definition value (data : tensor3) (i : index) : R :=
  match gather_nd data i with
  | Some v => v
  | None => 0
  end.

Definition in_bounds (n0 n1 n2 : nat) (i : index) : Prop :=
  let '(i0, i1, i2) := i in
  (0 <= i0 < Z.of_nat n0)%Z /\ (0 <= i1 < Z.of_nat n1)%Z /\
  (0 <= i2 < Z.of_nat n2)%Z.

(** A query point inside the field: every coordinate between the first
    and the last lattice point of its axis. *)
Definition in_range (n0 n1 n2 : nat) (w : point) : Prop :=
  let '(x, y, z) := w in
  0 <= x <= INR n0 - 1 /\ 0 <= y <= INR n1 - 1 /\ 0 <= z <= INR n2 - 1.

(** A query point within one voxel of the field. *)
Definition in_band (n0 n1 n2 : nat) (w : point) : Prop :=
  let '(x, y, z) := w in
  -1 < x < INR n0 /\ -1 < y < INR n1 /\ -1 < z < INR n2.

(** The field after the padding. *)
Definition padded_of (data : tensor3) : tensor3 :=
  pad1 (map (fun plane => pad1 (map pad1 plane)) data).

(** ** Sums and matrix products *)

Lemma bigsum_S (n : nat) (f : nat -> R) :
  bigsum (S n) f = f 0%nat + bigsum n (fun k => f (S k)).
Proof.
  unfold bigsum. simpl. now rewrite <- seq_shift, map_map.
Qed.

Lemma bigsum_ext (n : nat) (f g : nat -> R) :
  (forall k, (k < n)%nat -> f k = g k) -> bigsum n f = bigsum n g.
Proof.
  intros H. unfold bigsum. f_equal. apply map_ext_in.
  intros k Hk. apply in_seq in Hk. apply H. lia.
Qed.

Lemma bigsum_plus (n : nat) (f g : nat -> R) :
  bigsum n (fun k => f k + g k) = bigsum n f + bigsum n g.
Proof.
  revert f g. induction n as [|n IH]; intros f g.
  - unfold bigsum. simpl. ring.
  - rewrite !bigsum_S, IH. ring.
Qed.

Lemma bigsum_scal (n : nat) (c : R) (f : nat -> R) :
  bigsum n (fun k => c * f k) = c * bigsum n f.
Proof.
  revert f. induction n as [|n IH]; intros f.
  - unfold bigsum. simpl. ring.
  - rewrite !bigsum_S, IH. ring.
Qed.

Lemma bigsum_0 (n : nat) : bigsum n (fun _ => 0) = 0.
Proof.
  induction n as [|n IH]; [reflexivity|]. rewrite bigsum_S, IH. ring.
Qed.

Lemma bigsum_swap (n m : nat) (f : nat -> nat -> R) :
  bigsum n (fun i => bigsum m (fun j => f i j))
  = bigsum m (fun j => bigsum n (fun i => f i j)).
Proof.
  revert f. induction n as [|n IH]; intros f.
  - unfold bigsum at 1. simpl. symmetry.
    rewrite (bigsum_ext m _ (fun _ => 0)); [apply bigsum_0 | reflexivity].
  - rewrite bigsum_S, IH, <- bigsum_plus. apply bigsum_ext.
    intros j _. now rewrite bigsum_S.
Qed.

Lemma bigsum_delta_r (n j : nat) (f : nat -> R) :
  (j < n)%nat ->
  bigsum n (fun k => f k * (if Nat.eqb k j then 1 else 0)) = f j.
Proof.
  revert j f. induction n as [|n IH]; intros j f Hj; [lia|].
  rewrite bigsum_S. destruct j as [|j].
  - simpl. rewrite (bigsum_ext n _ (fun _ => 0)).
    + rewrite bigsum_0. ring.
    + intros k _. ring.
  - simpl Nat.eqb. rewrite (IH j (fun k => f (S k))) by lia. ring.
Qed.

Lemma bigsum_delta_l (n i : nat) (f : nat -> R) :
  (i < n)%nat ->
  bigsum n (fun k => (if Nat.eqb i k then 1 else 0) * f k) = f i.
Proof.
  intros Hi. rewrite <- (bigsum_delta_r n i f Hi). apply bigsum_ext.
  intros k _. rewrite (Nat.eqb_sym i k). ring.
Qed.

Lemma dot_bigsum (u v : list R) :
  length u = length v ->
  dot u v = bigsum (length u) (fun k => nth k u 0 * nth k v 0).
Proof.
  revert v. induction u as [|x u IH]; intros [|y v] H; simpl in H;
    try discriminate; [reflexivity|].
  simpl length. rewrite bigsum_S. unfold dot in *. simpl.
  f_equal. apply IH. lia.
Qed.

Lemma nth_col (j k : nat) (B : matrix) : nth k (col j B) 0 = entry B k j.
Proof.
  unfold col, entry.
  replace 0 with ((fun row : list R => nth j row 0) []) at 1
    by (destruct j; reflexivity).
  apply (map_nth (fun row : list R => nth j row 0)).
Qed.

Lemma entry_matmul (A B : matrix) (i j : nat) :
  is_square (length B) A -> (i < length A)%nat ->
  (j < length (hd [] B))%nat ->
  entry (matmul A B) i j
  = bigsum (length B) (fun k => entry A i k * entry B k j).
Proof.
  intros [HA HF] Hi Hj. unfold entry at 1, matmul.
  rewrite (nth_indep _ []
             ((fun row => map (fun j => dot row (col j B))
                              (seq 0 (length (hd [] B)))) []))
    by (now rewrite length_map).
  rewrite (map_nth (fun row => map (fun j => dot row (col j B))
                                   (seq 0 (length (hd [] B))))).
  rewrite (nth_indep _ 0 ((fun j => dot (nth i A []) (col j B)) 0%nat))
    by (now rewrite length_map, length_seq).
  rewrite (map_nth (fun j => dot (nth i A []) (col j B))).
  rewrite seq_nth by assumption. simpl.
  assert (Hr : length (nth i A []) = length B).
  { rewrite Forall_forall in HF. apply HF. now apply nth_In. }
  rewrite dot_bigsum by (unfold col; now rewrite length_map).
  rewrite Hr. apply bigsum_ext. intros k _. now rewrite nth_col.
Qed.

Lemma entry_identity (n i j : nat) :
  (i < n)%nat -> (j < n)%nat ->
  entry (identity n) i j = if Nat.eqb i j then 1 else 0.
Proof.
  intros Hi Hj. unfold entry, identity.
  rewrite (nth_indep _ []
             ((fun i => map (fun j => if Nat.eqb i j then 1 else 0)
                            (seq 0 n)) 0%nat))
    by (now rewrite length_map, length_seq).
  rewrite (map_nth (fun i => map (fun j => if Nat.eqb i j then 1 else 0)
                                 (seq 0 n))).
  rewrite seq_nth by assumption. simpl.
  rewrite (nth_indep _ 0 ((fun j => if Nat.eqb i j then 1 else 0) 0%nat))
    by (now rewrite length_map, length_seq).
  rewrite (map_nth (fun j => if Nat.eqb i j then 1 else 0)).
  now rewrite seq_nth.
Qed.

Lemma matrix_ext (n : nat) (M N : matrix) :
  is_square n M -> is_square n N ->
  (forall i j, (i < n)%nat -> (j < n)%nat -> entry M i j = entry N i j) ->
  M = N.
Proof.
  intros [HM FM] [HN FN] H. rewrite Forall_forall in FM, FN.
  apply (nth_ext M N [] []); [congruence|].
  intros i Hi.
  assert (Hi' : (i < length N)%nat) by congruence.
  apply (nth_ext _ _ 0 0).
  - rewrite FM, FN; auto using nth_In.
  - intros j Hj. rewrite FM in Hj by auto using nth_In.
    apply H; [congruence | assumption].
Qed.

Lemma hd_length_square (n : nat) (M : matrix) :
  is_square n M -> length (hd [] M) = n.
Proof.
  intros [HM FM]. destruct M as [|r M]; simpl in *.
  - now subst.
  - now inversion FM.
Qed.

(** A square matrix has at most one inverse. *)
Lemma inverse_unique (A B B' : matrix) :
  is_square (length A) A -> is_inverse A B -> is_inverse A B' -> B' = B.
Proof.
  set (n := length A).
  intros HA (HB & HAB & _) (HB' & _ & HB'A).
  apply (matrix_ext n); [assumption | assumption |].
  intros i j Hi Hj.
  assert (LB : length B = n) by apply HB.
  assert (LB' : length B' = n) by apply HB'.
  assert (E1 : forall k, (k < n)%nat ->
             bigsum n (fun l => entry A k l * entry B l j)
             = if Nat.eqb k j then 1 else 0).
  { intros k Hk. rewrite <- (entry_identity n k j Hk Hj).
    fold n in HAB. rewrite <- HAB, <- LB. symmetry.
    apply entry_matmul.
    - now rewrite LB.
    - assumption.
    - now rewrite (hd_length_square n B HB). }
  assert (E2 : forall l, (l < n)%nat ->
             bigsum n (fun k => entry B' i k * entry A k l)
             = if Nat.eqb i l then 1 else 0).
  { intros l Hl. rewrite <- (entry_identity n i l Hi Hl).
    fold n in HB'A. rewrite <- HB'A. symmetry.
    apply entry_matmul.
    - exact HB'.
    - now rewrite LB'.
    - now rewrite (hd_length_square n A HA). }
  rewrite <- (bigsum_delta_r n j (fun k => entry B' i k) Hj).
  rewrite <- (bigsum_delta_l n i (fun l => entry B l j) Hi).
  transitivity
    (bigsum n (fun k => bigsum n (fun l =>
        entry B' i k * (entry A k l * entry B l j)))).
  { apply bigsum_ext. intros k Hk. rewrite bigsum_scal.
    now rewrite (E1 k Hk). }
  rewrite bigsum_swap. apply bigsum_ext. intros l Hl.
  rewrite <- (E2 l Hl).
  rewrite <- (Rmult_comm (entry B l j)), <- bigsum_scal.
  apply bigsum_ext. intros k _. ring.
Qed.

(** [tf.matrix_inverse] returns the inverse when there is one. *)
Lemma matrix_inverse_eq (A B : matrix) :
  is_square (length A) A -> is_inverse A B -> matrix_inverse A = B.
Proof.
  intros HA HB. apply (inverse_unique A); [assumption | assumption |].
  unfold matrix_inverse. apply epsilon_spec. now exists B.
Qed.

(** ** The fit on a unit cell is trilinear interpolation *)

Ltac list_eq :=
  repeat match goal with
         | |- (_ :: _) = (_ :: _) => apply f_equal2
         end;
  try reflexivity.

Lemma hmatrix_square (x0 y0 z0 x1 y1 z1 : R) :
  is_square (length (hmatrix x0 y0 z0 x1 y1 z1))
            (hmatrix x0 y0 z0 x1 y1 z1).
Proof. split; [reflexivity | repeat constructor]. Qed.

Lemma hinv_inverse (x0 y0 z0 : R) :
  is_inverse (hmatrix x0 y0 z0 (x0 + 1) (y0 + 1) (z0 + 1)) (hinv x0 y0 z0).
Proof.
  split; [split; [reflexivity | repeat constructor] | split].
  - unfold matmul, hmatrix, hinv, hrow, identity, dot, col, rsum.
    simpl. list_eq; ring.
  - unfold matmul, hmatrix, hinv, hrow, identity, dot, col, rsum.
    simpl. list_eq; ring.
Qed.

Lemma fit_trilinear (i0 i1 i2 : Z) (c0 c1 c2 c3 c4 c5 c6 c7 : R)
  (x y z : R) :
  eval_fit (fit (i0, i1, i2) [c0; c1; c2; c3; c4; c5; c6; c7]) x y z
  = trilinear (IZR i0) (IZR i1) (IZR i2)
              [c0; c1; c2; c3; c4; c5; c6; c7] x y z.
Proof.
  unfold fit. simpl fst. simpl snd. rewrite !plus_IZR.
  rewrite (matrix_inverse_eq _ (hinv (IZR i0) (IZR i1) (IZR i2))
             (hmatrix_square _ _ _ _ _ _) (hinv_inverse _ _ _)).
  unfold eval_fit, trilinear, matmul, hinv, dot, col, rsum. simpl. ring.
Qed.

(** ** Padding and gathering *)

Lemma nth_Z_map {X Y : Type} (f : X -> Y) (l : list X) (i : Z) :
  nth_Z (map f l) i = option_map f (nth_Z l i).
Proof.
  unfold nth_Z. destruct (i <? 0)%Z; [reflexivity|]. apply nth_error_map.
Qed.

Lemma nth_Z_Some {X : Type} (l : list X) (i : Z) :
  (0 <= i < Z.of_nat (length l))%Z -> exists v, nth_Z l i = Some v.
Proof.
  intros H. unfold nth_Z.
  destruct (Z.ltb_spec i 0) as [Hneg|_]; [lia|].
  destruct (nth_error l (Z.to_nat i)) as [v|] eqn:E; [now exists v|].
  apply nth_error_None in E. lia.
Qed.

Lemma nth_Z_bounds {X : Type} (l : list X) (i : Z) (v : X) :
  nth_Z l i = Some v -> (0 <= i < Z.of_nat (length l))%Z.
Proof.
  unfold nth_Z. destruct (Z.ltb_spec i 0) as [Hneg|Hpos]; [discriminate|].
  intros E. assert (Z.to_nat i < length l)%nat; [|lia].
  apply nth_error_Some. congruence.
Qed.

Lemma mirror_bounds (n : nat) (i : Z) :
  (0 < n)%nat -> (0 <= mirror n i < Z.of_nat n)%Z.
Proof. unfold mirror. lia. Qed.

Lemma length_pad1 {X : Type} (l : list X) :
  l <> [] -> length (pad1 l) = (length l + 2)%nat.
Proof.
  destruct l as [|x l]; [congruence|]. intros _. unfold pad1.
  simpl. rewrite length_app. simpl. lia.
Qed.

Lemma nth_Z_pad1 {X : Type} (l : list X) (i : Z) :
  l <> [] -> (0 <= i <= Z.of_nat (length l) + 1)%Z ->
  nth_Z (pad1 l) i = nth_Z l (mirror (length l) i).
Proof.
  intros Hne Hi.
  assert (Hlen : (0 < length l)%nat) by (destruct l; simpl; [congruence|lia]).
  assert (Hpad : exists x, pad1 l = x :: l ++ [last l x] /\ hd_error l = Some x).
  { destruct l as [|x l]; [congruence|]. now exists x. }
  destruct Hpad as (x & -> & Hx).
  unfold nth_Z, mirror.
  destruct (Z.ltb_spec i 0) as [Hneg|_]; [lia|].
  destruct (Z.ltb_spec (Z.max 0 (Z.min (Z.of_nat (length l) - 1) (i - 1))) 0)
    as [Hneg|_]; [lia|].
  destruct (Z.eq_dec i 0) as [->|Hi0].
  { replace (Z.max 0 (Z.min (Z.of_nat (length l) - 1) (0 - 1)))
      with 0%Z by lia.
    destruct l; [discriminate | exact (eq_sym Hx)]. }
  replace (Z.to_nat i) with (S (Z.to_nat (i - 1))) by lia.
  change (nth_error (x :: l ++ [last l x]) (S (Z.to_nat (i - 1))))
    with (nth_error (l ++ [last l x]) (Z.to_nat (i - 1))).
  destruct (Z.eq_dec i (Z.of_nat (length l) + 1)) as [->|Hi1].
  - replace (Z.of_nat (length l) + 1 - 1)%Z with (Z.of_nat (length l)) by lia.
    rewrite Nat2Z.id, nth_error_app2 by lia. rewrite Nat.sub_diag.
    replace (Z.to_nat (Z.max 0 (Z.min (Z.of_nat (length l) - 1)
                                      (Z.of_nat (length l)))))
      with (length l - 1)%nat by lia.
    destruct (@exists_last X l Hne) as (l' & y & E).
    rewrite E, last_last, length_app. simpl.
    rewrite nth_error_app2 by lia.
    replace (length l' + 1 - 1 - length l')%nat with 0%nat by lia.
    reflexivity.
  - rewrite nth_error_app1 by lia.
    f_equal. lia.
Qed.

Lemma shape3_inv (n0 n1 n2 : nat) (data : tensor3) :
  shape3 n0 n1 n2 data ->
  length data = n0 /\
  forall plane, In plane data ->
    length plane = n1 /\ forall row, In row plane -> length row = n2.
Proof.
  unfold shape3. simpl. intros (H0 & _ & HF). split; [exact H0|].
  rewrite Forall_forall in HF. intros plane Hp.
  destruct (HF plane Hp) as (H1 & _ & HF1). split; [exact H1|].
  rewrite Forall_forall in HF1. intros row Hr.
  now destruct (HF1 row Hr) as (H2 & _).
Qed.

Lemma nth_Z_In {X : Type} (l : list X) (i : Z) (v : X) :
  nth_Z l i = Some v -> In v l.
Proof.
  unfold nth_Z. destruct (i <? 0)%Z; [discriminate|]. apply nth_error_In.
Qed.

Lemma gather_in_bounds (n0 n1 n2 : nat) (data : tensor3) (i : index) :
  shape3 n0 n1 n2 data -> in_bounds n0 n1 n2 i ->
  exists v, gather_nd data i = Some v.
Proof.
  intros Hs Hi. destruct i as [[i0 i1] i2]. destruct Hi as (H0 & H1 & H2).
  apply shape3_inv in Hs. destruct Hs as [L0 HF].
  unfold gather_nd.
  destruct (nth_Z_Some data i0) as [plane Ep]; [now rewrite L0|].
  rewrite Ep. destruct (HF plane (nth_Z_In _ _ _ Ep)) as [L1 HF1].
  destruct (nth_Z_Some plane i1) as [row Er]; [now rewrite L1|].
  rewrite Er. apply nth_Z_Some. now rewrite (HF1 row (nth_Z_In _ _ _ Er)).
Qed.

Lemma gather_bounds (n0 n1 n2 : nat) (data : tensor3) (i : index) (v : R) :
  shape3 n0 n1 n2 data -> gather_nd data i = Some v -> in_bounds n0 n1 n2 i.
Proof.
  intros Hs. destruct i as [[i0 i1] i2].
  apply shape3_inv in Hs. destruct Hs as [L0 HF].
  unfold gather_nd, in_bounds.
  destruct (nth_Z data i0) as [plane|] eqn:Ep; [|discriminate].
  destruct (nth_Z plane i1) as [row|] eqn:Er; [|discriminate].
  intros Ev.
  destruct (HF plane (nth_Z_In _ _ _ Ep)) as [L1 HF1].
  rewrite <- L0, <- L1, <- (HF1 row (nth_Z_In _ _ _ Er)).
  repeat split; eapply nth_Z_bounds; eassumption.
Qed.

(** The padded field reads the original field at the mirrored index. *)
Lemma gather_padded (n0 n1 n2 : nat) (data : tensor3) (i : index) :
  shape3 n0 n1 n2 data -> (0 < n0)%nat -> (0 < n1)%nat -> (0 < n2)%nat ->
  in_bounds (n0 + 2) (n1 + 2) (n2 + 2) i ->
  gather_nd (pad1 (map (fun plane => pad1 (map pad1 plane)) data)) i
  = gather_nd data (mirror3 n0 n1 n2 i).
Proof.
  intros Hs P0 P1 P2 Hi. destruct i as [[i0 i1] i2].
  destruct Hi as (H0 & H1 & H2).
  apply shape3_inv in Hs. destruct Hs as [L0 HF].
  unfold gather_nd, mirror3.
  rewrite nth_Z_pad1; rewrite ?length_map.
  2:{ intros E. apply (f_equal (@length _)) in E.
      rewrite length_map in E. simpl in E. lia. }
  2:{ lia. }
  rewrite nth_Z_map, L0.
  destruct (nth_Z data (mirror n0 i0)) as [plane|] eqn:Ep; [|reflexivity].
  simpl. destruct (HF plane (nth_Z_In _ _ _ Ep)) as [L1 HF1].
  rewrite nth_Z_pad1; rewrite ?length_map.
  2:{ intros E. apply (f_equal (@length _)) in E.
      rewrite length_map in E. simpl in E. lia. }
  2:{ lia. }
  rewrite nth_Z_map, L1.
  destruct (nth_Z plane (mirror n1 i1)) as [row|] eqn:Er; [|reflexivity].
  simpl. pose proof (HF1 row (nth_Z_In _ _ _ Er)) as L2.
  rewrite nth_Z_pad1.
  - now rewrite L2.
  - intros E. rewrite E in L2. simpl in L2. lia.
  - lia.
Qed.

Lemma pad_symmetric_spec (n0 n1 n2 : nat) (data : tensor3) :
  shape3 n0 n1 n2 data ->
  (pad_symmetric data = None /\ (n0 = 0 \/ n1 = 0 \/ n2 = 0)%nat) \/
  (pad_symmetric data = Some (padded_of data) /\
   (0 < n0)%nat /\ (0 < n1)%nat /\ (0 < n2)%nat).
Proof.
  intros Hs. unfold pad_symmetric, has_empty_axis.
  destruct (Shift.has_shape_ztrunc R 3 _ data Hs) as [_ ->].
  destruct n0 as [|n0]; [left; simpl; auto|].
  destruct n1 as [|n1]; [left; simpl; auto|].
  destruct n2 as [|n2]; [left; simpl; auto|].
  right. simpl. repeat split; lia.
Qed.

Lemma nonempty_length {X : Type} (l : list X) :
  (0 < length l)%nat -> l <> [].
Proof. destruct l; simpl; [lia | congruence]. Qed.

Lemma shape3_padded (n0 n1 n2 : nat) (data : tensor3) :
  shape3 n0 n1 n2 data -> (0 < n0)%nat -> (0 < n1)%nat -> (0 < n2)%nat ->
  shape3 (n0 + 2) (n1 + 2) (n2 + 2) (padded_of data).
Proof.
  intros Hs P0 P1 P2. apply shape3_inv in Hs. destruct Hs as [L0 HF].
  assert (In_pad1 : forall (X : Type) (l : list X) (x : X),
             In x (pad1 l) -> In x l).
  { intros X l x. destruct l as [|y l]; [auto|]. unfold pad1.
    intros [<-|H]; [now left|]. apply in_app_or in H.
    destruct H as [H|[<-|[]]]; [exact H|].
    destruct (@exists_last X (y :: l)) as (l' & z & E); [congruence|].
    rewrite E, last_last. apply in_or_app. right. now left. }
  unfold shape3, padded_of. cbn [Shift.has_shape length].
  repeat split; try reflexivity.
  - rewrite length_pad1; [rewrite length_map; lia|].
    intros E. apply (f_equal (@length _)) in E. rewrite length_map in E.
    simpl in E. lia.
  - rewrite Forall_forall. intros pplane Hpp. apply In_pad1 in Hpp.
    apply in_map_iff in Hpp. destruct Hpp as (plane & <- & Hp).
    destruct (HF plane Hp) as [L1 HF1]. repeat split; try reflexivity.
    + rewrite length_pad1; [rewrite length_map; lia|].
      intros E. apply (f_equal (@length _)) in E. rewrite length_map in E.
      simpl in E. lia.
    + rewrite Forall_forall. intros prow Hpr. apply In_pad1 in Hpr.
      apply in_map_iff in Hpr. destruct Hpr as (row & <- & Hr).
      pose proof (HF1 row Hr) as L2. repeat split; try reflexivity.
      * rewrite length_pad1; [lia|]. apply nonempty_length. lia.
      * now apply Forall_forall.
Qed.

Lemma sequence_map {X Y : Type} (f : X -> option Y) (g : X -> Y)
  (l : list X) :
  (forall x, In x l -> f x = Some (g x)) ->
  sequence (map f l) = Some (map g l).
Proof.
  induction l as [|x l IH]; intros H; simpl; [reflexivity|].
  rewrite (H x) by now left. rewrite IH; [reflexivity|].
  intros y Hy. apply H. now right.
Qed.

(** ** The lower corner of the cell of a query point *)

Lemma floor_shift_bounds (n : nat) (x : R) :
  -1 < x < INR n -> (0 <= Zfloor (x + 1) <= Z.of_nat n)%Z.
Proof.
  intros [Hlo Hhi]. destruct (Zfloor_bound (x + 1)) as [Hf1 Hf2]. split.
  - apply Zfloor_lub. simpl. lra.
  - rewrite INR_IZR_INZ in Hhi.
    assert (H : IZR (Zfloor (x + 1)) < IZR (Z.of_nat n + 1)).
    { rewrite plus_IZR. lra. }
    apply lt_IZR in H. lia.
Qed.

Lemma floor_shift_inner (n : nat) (x : R) :
  0 <= x <= INR n - 1 -> (1 <= Zfloor (x + 1) <= Z.of_nat n)%Z.
Proof.
  intros [Hlo Hhi]. destruct (Zfloor_bound (x + 1)) as [Hf1 Hf2]. split.
  - apply Zfloor_lub. simpl. lra.
  - rewrite INR_IZR_INZ in Hhi.
    assert (H : IZR (Zfloor (x + 1)) < IZR (Z.of_nat n + 1)).
    { rewrite plus_IZR. lra. }
    apply lt_IZR in H. lia.
Qed.

Lemma neighbours_in_bounds (N0 N1 N2 : nat) (i0 i1 i2 : Z) (i : index) :
  (0 <= i0 <= Z.of_nat N0)%Z -> (0 <= i1 <= Z.of_nat N1)%Z ->
  (0 <= i2 <= Z.of_nat N2)%Z ->
  In i (neighbours_of (i0, i1, i2)) ->
  in_bounds (N0 + 2) (N1 + 2) (N2 + 2) i.
Proof.
  intros H0 H1 H2 Hin. unfold neighbours_of, offsets in Hin. simpl in Hin.
  repeat (destruct Hin as [<-|Hin]; [unfold in_bounds; lia|]).
  contradiction.
Qed.

(** ** The interpolated value *)

Lemma gather_neighbours (n0 n1 n2 : nat) (data : tensor3) (i0 i1 i2 : Z) :
  shape3 n0 n1 n2 data -> (0 < n0)%nat -> (0 < n1)%nat -> (0 < n2)%nat ->
  (0 <= i0 <= Z.of_nat n0)%Z -> (0 <= i1 <= Z.of_nat n1)%Z ->
  (0 <= i2 <= Z.of_nat n2)%Z ->
  forall i, In i (neighbours_of (i0, i1, i2)) ->
    gather_nd (padded_of data) i = Some (value data (mirror3 n0 n1 n2 i)).
Proof.
  intros Hs P0 P1 P2 H0 H1 H2 i Hi.
  pose proof (neighbours_in_bounds n0 n1 n2 i0 i1 i2 i H0 H1 H2 Hi) as Hb.
  unfold padded_of. rewrite (gather_padded n0 n1 n2) by assumption.
  destruct (gather_in_bounds n0 n1 n2 data (mirror3 n0 n1 n2 i) Hs)
    as [v Ev].
  - destruct i as [[j0 j1] j2]. unfold mirror3, in_bounds.
    auto using mirror_bounds.
  - unfold value. now rewrite Ev.
Qed.

Lemma interpolate_point_eq (n0 n1 n2 : nat) (data : tensor3) (x y z : R) :
  shape3 n0 n1 n2 data -> (0 < n0)%nat -> (0 < n1)%nat -> (0 < n2)%nat ->
  in_band n0 n1 n2 (x, y, z) ->
  interpolate_point (padded_of data) (x, y, z)
  = Some (trilinear (IZR (Zfloor (x + 1))) (IZR (Zfloor (y + 1)))
                    (IZR (Zfloor (z + 1)))
            (map (fun i => value data (mirror3 n0 n1 n2 i))
                 (neighbours_of (floor_index (x, y, z))))
            (x + 1) (y + 1) (z + 1)).
Proof.
  intros Hs P0 P1 P2 (Hx & Hy & Hz).
  apply floor_shift_bounds in Hx, Hy, Hz.
  unfold interpolate_point.
  rewrite (sequence_map _ (fun i => value data (mirror3 n0 n1 n2 i))).
  2:{ apply (gather_neighbours n0 n1 n2); assumption. }
  f_equal. unfold floor_index, neighbours_of, offsets.
  cbn [map]. apply fit_trilinear.
Qed.

Lemma mirror_inner (n : nat) (i : Z) :
  (1 <= i <= Z.of_nat n)%Z -> mirror n i = (i - 1)%Z.
Proof. unfold mirror. lia. Qed.

Lemma mirror_top (n : nat) :
  (0 < n)%nat -> mirror n (Z.of_nat n + 1) = (Z.of_nat n - 1)%Z.
Proof. unfold mirror. lia. Qed.

(** Along one axis, the upper neighbour of an in-range coordinate is
    either read unmirrored or has weight zero. *)
Lemma upper_neighbour (n : nat) (x : R) :
  0 <= x <= INR n - 1 ->
  mirror n (Zfloor (x + 1)) = (Zfloor (x + 1) - 1)%Z /\
  (mirror n (Zfloor (x + 1) + 1) = Zfloor (x + 1) \/
   (x + 1 = IZR (Zfloor (x + 1)) /\
    mirror n (Zfloor (x + 1) + 1) = (Zfloor (x + 1) - 1)%Z)).
Proof.
  intros Hx. pose proof (floor_shift_inner n x Hx) as Hf.
  split; [now apply mirror_inner|].
  destruct (Z.eq_dec (Zfloor (x + 1)) (Z.of_nat n)) as [E|NE].
  - right. split.
    + destruct (Zfloor_bound (x + 1)) as [Hf1 _].
      rewrite E in *. rewrite <- INR_IZR_INZ in *. lra.
    + rewrite E. apply mirror_top. lia.
  - left. rewrite mirror_inner by lia. lia.
Qed.

Lemma trilinear_corner (x0 y0 z0 : R) (cs : list R) :
  trilinear x0 y0 z0 cs x0 y0 z0 = nth 0 cs 0.
Proof. unfold trilinear. ring. Qed.

Lemma trilinear_reproduces (a : list R) (X Y Z ex ey ez x y z : R) :
  (ex = X \/ (x + 1 = X /\ ex = X - 1)) ->
  (ey = Y \/ (y + 1 = Y /\ ey = Y - 1)) ->
  (ez = Z \/ (z + 1 = Z /\ ez = Z - 1)) ->
  trilinear X Y Z
    [ poly a (X - 1, Y - 1, Z - 1); poly a (ex, Y - 1, Z - 1);
      poly a (X - 1, ey, Z - 1); poly a (ex, ey, Z - 1);
      poly a (X - 1, Y - 1, ez); poly a (ex, Y - 1, ez);
      poly a (X - 1, ey, ez); poly a (ex, ey, ez) ]
    (x + 1) (y + 1) (z + 1)
  = poly a (x, y, z).
Proof.
  intros Hx Hy Hz. unfold trilinear, poly, eval_fit. cbn [nth].
  destruct Hx as [->|[Hx ->]]; [|replace x with (X - 1) by lra];
  (destruct Hy as [->|[Hy ->]]; [|replace y with (Y - 1) by lra]);
  (destruct Hz as [->|[Hz ->]]; [|replace z with (Z - 1) by lra]);
  ring.
Qed.

Lemma in_range_in_band (n0 n1 n2 : nat) (w : point) :
  in_range n0 n1 n2 w ->
  in_band n0 n1 n2 w /\ (0 < n0)%nat /\ (0 < n1)%nat /\ (0 < n2)%nat.
Proof.
  destruct w as [[x y] z]. intros (Hx & Hy & Hz).
  assert (P : forall n t, 0 <= t <= INR n - 1 -> (0 < n)%nat /\ -1 < t < INR n).
  { intros n t Ht. split; [|lra]. apply INR_lt. simpl. lra. }
  destruct (P _ _ Hx) as [? ?], (P _ _ Hy) as [? ?], (P _ _ Hz) as [? ?].
  unfold in_band. auto.
Qed.

Lemma value_sample (n0 n1 n2 : nat) (data : tensor3) (f : point -> R)
  (i0 i1 i2 : Z) :
  shape3 n0 n1 n2 data ->
  (forall i j k v, gather_nd data (i, j, k) = Some v ->
                   v = f (IZR i, IZR j, IZR k)) ->
  in_bounds n0 n1 n2 (i0, i1, i2) ->
  value data (i0, i1, i2) = f (IZR i0, IZR i1, IZR i2).
Proof.
  intros Hs Hf Hb. destruct (gather_in_bounds n0 n1 n2 data _ Hs Hb) as [v Ev].
  unfold value. rewrite Ev. now apply Hf.
Qed.

Lemma interpolate_point_sample (n0 n1 n2 : nat) (data : tensor3)
  (a : list R) (w : point) :
  shape3 n0 n1 n2 data ->
  (forall i j k v, gather_nd data (i, j, k) = Some v ->
                   v = poly a (IZR i, IZR j, IZR k)) ->
  in_range n0 n1 n2 w ->
  interpolate_point (padded_of data) w = Some (poly a w).
Proof.
  intros Hs Hf Hw.
  destruct (in_range_in_band n0 n1 n2 w Hw) as (Hband & P0 & P1 & P2).
  destruct w as [[x y] z]. destruct Hw as (Hx & Hy & Hz).
  rewrite (interpolate_point_eq n0 n1 n2) by assumption.
  f_equal.
  destruct (upper_neighbour n0 x Hx) as [Lx Ux].
  destruct (upper_neighbour n1 y Hy) as [Ly Uy].
  destruct (upper_neighbour n2 z Hz) as [Lz Uz].
  pose proof (floor_shift_inner n0 x Hx) as Fx.
  pose proof (floor_shift_inner n1 y Hy) as Fy.
  pose proof (floor_shift_inner n2 z Hz) as Fz.
  unfold floor_index, neighbours_of, offsets. cbn [map add_index mirror3].
  rewrite !Z.add_0_r.
  rewrite !(value_sample n0 n1 n2 data (poly a) _ _ _ Hs Hf)
    by (unfold in_bounds; auto using mirror_bounds).
  rewrite Lx, Ly, Lz, !minus_IZR.
  rewrite <- (trilinear_reproduces a
                (IZR (Zfloor (x + 1))) (IZR (Zfloor (y + 1)))
                (IZR (Zfloor (z + 1)))
                (IZR (mirror n0 (Zfloor (x + 1) + 1)))
                (IZR (mirror n1 (Zfloor (y + 1) + 1)))
                (IZR (mirror n2 (Zfloor (z + 1) + 1))) x y z).
  - reflexivity.
  - destruct Ux as [->|[E ->]]; [now left | right; now rewrite minus_IZR].
  - destruct Uy as [->|[E ->]]; [now left | right; now rewrite minus_IZR].
  - destruct Uz as [->|[E ->]]; [now left | right; now rewrite minus_IZR].
Qed.



Lemma interpolation_lattice (n0 n1 n2 : nat) (data : tensor3)
  (i j k : Z) (v : R) :
  shape3 n0 n1 n2 data ->
  gather_nd data (i, j, k) = Some v ->
  biliniear_interpolation_3d data [(IZR i, IZR j, IZR k)] = Some [v].
Proof.
  intros Hs Ev.
  pose proof (gather_bounds n0 n1 n2 data _ v Hs Ev) as (Hi & Hj & Hk).
  destruct (pad_symmetric_spec n0 n1 n2 data Hs)
    as [[_ Hz]|(E & P0 & P1 & P2)]; [lia|].
  unfold biliniear_interpolation_3d. rewrite E. cbn [map sequence].
  rewrite (interpolate_point_eq n0 n1 n2) by
    (try assumption; unfold in_band; rewrite !INR_IZR_INZ;
     repeat split; (apply IZR_lt; lia)).
  unfold floor_index.
  replace (IZR i + 1) with (IZR (i + 1)) by (now rewrite plus_IZR).
  replace (IZR j + 1) with (IZR (j + 1)) by (now rewrite plus_IZR).
  replace (IZR k + 1) with (IZR (k + 1)) by (now rewrite plus_IZR).
  rewrite !ZfloorZ, trilinear_corner.
  unfold neighbours_of, offsets. cbn [map nth add_index mirror3].
  rewrite !Z.add_0_r, !mirror_inner by lia.
  replace (i + 1 - 1)%Z with i by lia.
  replace (j + 1 - 1)%Z with j by lia.
  replace (k + 1 - 1)%Z with k by lia.
  unfold value. now rewrite Ev.
Qed.

Lemma interpolation_sample (n0 n1 n2 : nat) (data : tensor3) (a : list R)
  (w : point) (warp : list point) :
  shape3 n0 n1 n2 data ->
  (forall (i j k : Z) (v : R),
      gather_nd data (i, j, k) = Some v ->
      v = poly a (IZR i, IZR j, IZR k)) ->
  Forall (in_range n0 n1 n2) (w :: warp) ->
  biliniear_interpolation_3d data (w :: warp)
  = Some (map (poly a) (w :: warp)).
Proof.
  intros Hs Hp Hall.
  assert (Hw : in_range n0 n1 n2 w) by now inversion Hall.
  destruct (in_range_in_band n0 n1 n2 w Hw) as (_ & P0 & P1 & P2).
  destruct (pad_symmetric_spec n0 n1 n2 data Hs)
    as [[_ Hz]|(E & _)]; [lia|].
  unfold biliniear_interpolation_3d. rewrite E.
  apply sequence_map. intros q Hq. rewrite Forall_forall in Hall.
  apply (interpolate_point_sample n0 n1 n2); auto.
Qed.



(** The field [1 + y + 2 z] on a [1 x 2 x 2] grid, queried at a lattice
    point and at a fractional point. *)
Example interpolation_values :
  biliniear_interpolation_3d [[[1; 3]; [2; 4]]]
    [(0, 1, 0); (0, 1 / 2, 1 / 4)] = Some [2; 2].
Proof.
  assert (Hs : shape3 1 2 2 [[[1; 3]; [2; 4]]]).
  { unfold shape3. simpl. repeat split; repeat constructor. }
  rewrite (interpolation_sample 1 2 2 _ [1; 0; 1; 2; 0; 0; 0; 0]).
  - unfold poly, eval_fit. cbn [map nth]. repeat f_equal; lra.
  - exact Hs.
  - intros i j k v Ev.
    pose proof (gather_bounds 1 2 2 _ _ v Hs Ev) as (Hi & Hj & Hk).
    assert (Ei : i = 0%Z) by lia.
    assert (Ej : j = 0%Z \/ j = 1%Z) by lia.
    assert (Ek : k = 0%Z \/ k = 1%Z) by lia.
    subst i. destruct Ej as [-> | ->], Ek as [-> | ->];
      injection Ev as <-; unfold poly, eval_fit; simpl; lra.
  - repeat constructor; simpl; lra.
Qed.

End Interp.

(* ================================================================= *)
(** * util.py: Fresnel kernels and [multislice_propagate] *)
(* ================================================================= *)

Module Propagate.

Local Open Scope R_scope.

(** ** Complex numbers *)

Definition C : Type := (R * R)%type.

Definition RtoC (x : R) : C := (x, 0).
Definition Ci : C := (0, 1).
Definition Cneg (a : C) : C := (- fst a, - snd a).
Definition Cadd (a b : C) : C := (fst a + fst b, snd a + snd b).
Definition Cmul (a b : C) : C :=
  (fst a * fst b - snd a * snd b, fst a * snd b + snd a * fst b).
Definition Cinv (a : C) : C :=
  let n := fst a * fst a + snd a * snd a in (fst a / n, - snd a / n).
Definition Cdiv (a b : C) : C := Cmul a (Cinv b).
Definition Cexp (a : C) : C :=
  (exp (fst a) * cos (snd a), exp (fst a) * sin (snd a)).
Definition Cabs (a : C) : R := sqrt (fst a * fst a + snd a * snd a).

(** A complex number times a real one, and the converse. *)
Definition Cmulr (a : C) (r : R) : C := Cmul a (RtoC r).
Definition Crmul (r : R) (a : C) : C := Cmul (RtoC r) a.

Definition image : Type := list (list R).
Definition cimage : Type := list (list C).
Definition volume : Type := list (list (list R)).

Definition zip_image {X Y Z : Type} (f : X -> Y -> Z)
  (a : list (list X)) (b : list (list Y)) : list (list Z) :=
  Shift.map2 (Shift.map2 f) a b.

(** Element-wise product of two complex images. *)
Definition cmul_image (a b : cimage) : cimage := zip_image Cmul a b.

(** [grid[:, :, i]] *)
Definition slice_z (grid : volume) (i : nat) : image :=
  map (map (fun column => nth i column 0)) grid.

(** [np.prod] *)
Definition prod (l : list R) : R := fold_right Rmult 1 l.

(** [x ** (1. / 3)] for a positive [x]. *)
Definition cube_root (x : R) : R := Rpower x (1 / 3).

(** [np.linspace(a, b, n)] *)
Definition linspace (a b : R) (n : nat) : list R :=
  match n with
  | O => []
  | S O => [a]
  | _ => map (fun k => a + INR k * ((b - a) / INR (n - 1))) (seq 0 n)
  end.

(** [np.arange(start, stop, step)] *)
Definition arange (start stop step : R) : list R :=
  map (fun k => start + INR k * step)
      (seq 0 (Z.to_nat (Zceil ((stop - start) / step)))).

(** [np.meshgrid(xx, yy)] *)
Definition meshgrid (xx yy : list R) : image * image :=
  (map (fun _ => xx) yy, map (fun y => map (fun _ => y) xx) yy).

Definition gen_mesh (max : R * R) (shape : nat * nat) : image * image :=
  let yy := linspace (- fst max) (fst max) (fst shape) in
  let xx := linspace (- snd max) (snd max) (snd shape) in
  meshgrid xx yy.

Inductive algorithm : Type := TF | IR.

Section Propagation.

(** [PI] comes from the module [constants], [fft2d] and [ifft2d] from
    TensorFlow. *)
Variable PI : R.
Variables fft2d ifft2d : cimage -> cimage.

Definition fftshift (t : cimage) : cimage := Shift.fftshift (A:=C) 2 t.
Definition ifftshift (t : cimage) : cimage := Shift.ifftshift (A:=C) 2 t.

(** Fresnel propagation kernel for the TF algorithm. *)
Definition get_kernel (dist_nm lmbda_nm : R) (voxel_nm : list R)
  (grid_shape : list nat) : cimage :=
  let u_max := 1 / (2 * nth 0 voxel_nm 0) in
  let v_max := 1 / (2 * nth 1 voxel_nm 0) in
  let '(u, v) := gen_mesh (v_max, u_max)
                          (nth 0 grid_shape 0%nat, nth 1 grid_shape 0%nat) in
  zip_image
    (fun u v =>
       Cexp (Cmulr (Cmulr (Cmulr (Cmulr (Cneg Ci) PI) lmbda_nm) dist_nm)
                   (u * u + v * v)))
    u v.

(** Fresnel propagation kernel for the IR algorithm. *)
Definition get_kernel_ir (dist_nm lmbda_nm : R) (voxel_nm : list R)
  (grid_shape : list nat) : cimage :=
  let size_nm := Shift.map2 (fun v n => v * INR n) voxel_nm grid_shape in
  let k := 2 * PI / lmbda_nm in
  let ymin := nth 0 size_nm 0 / -2 in
  let xmin := nth 1 size_nm 0 / -2 in
  let dy := nth 0 voxel_nm 0 in
  let dx := nth 1 voxel_nm 0 in
  let x := arange xmin (xmin + nth 1 size_nm 0) dx in
  let y := arange ymin (ymin + nth 0 size_nm 0) dy in
  let '(x, y) := meshgrid x y in
  let h :=
    zip_image
      (fun x y =>
         Cmul (Cdiv (Cexp (Cmulr (Cmulr Ci k) dist_nm))
                    (Cmulr (Cmulr Ci lmbda_nm) dist_nm))
              (Cexp (Cmulr (Cmulr Ci (k / (2 * dist_nm))) (x * x + y * y))))
      x y in
  map (map (fun c => Cmulr (Cmulr c (nth 0 voxel_nm 0)) (nth 1 voxel_nm 0)))
      (fft2d (fftshift h)).

(** [c = tf.exp(1j * k * delta_slice) * tf.exp(-k * beta_slice)] for one
    voxel; both slices have been cast to complex. *)
Definition transmission (k delta beta : R) : C :=
  Cmul (Cexp (Cmul (Cmulr Ci k) (RtoC delta)))
       (Cexp (Crmul (- k) (RtoC beta))).

(** The quantities shared by the slice loop and the free-space step. *)
Definition voxel_nm_of (psize_cm : R) : list R :=
  map (fun p => p * 1e7) [psize_cm; psize_cm; psize_cm].

Definition size_nm_of (obj_shape : list nat) (voxel_nm : list R) : list R :=
  Shift.map2 (fun n v => INR n * v) obj_shape voxel_nm.

Definition mean_voxel_nm_of (voxel_nm : list R) : R :=
  cube_root (prod voxel_nm).

(** [crit_samp = lmbda_nm * dist_nm / l] with
    [l = np.prod(size_nm)**(1. / 3)] *)
Definition crit_samp_of (lmbda_nm dist_nm : R) (size_nm : list R) : R :=
  let l := cube_root (prod size_nm) in
  lmbda_nm * dist_nm / l.

(** One pass of the loop body [modulate_and_propagate] for slice [i]. *)
Definition modulate_and_propagate (grid_delta grid_beta : volume)
  (k mean_voxel_nm lmbda_nm delta_nm : R) (size_nm : list R) (h : cimage)
  (i : nat) (wavefront : cimage) : cimage :=
  let delta_slice := slice_z grid_delta i in
  let beta_slice := slice_z grid_beta i in
  let c := zip_image (transmission k) delta_slice beta_slice in
  let wavefront := cmul_image wavefront c in
  let dist_nm := delta_nm in
  let crit_samp := crit_samp_of lmbda_nm dist_nm size_nm in
  if Rlt_dec crit_samp mean_voxel_nm then
    ifft2d (ifftshift (cmul_image (fftshift (fft2d wavefront)) h))
  else
    let wavefront := fft2d (fftshift wavefront) in
    ifftshift (ifft2d (cmul_image wavefront h)).

(** [algorithm = 'TF' if mean_voxel_nm > crit_samp else 'IR'] *)
Definition select_algorithm (mean_voxel_nm crit_samp : R) : algorithm :=
  if Rlt_dec crit_samp mean_voxel_nm then TF else IR.

(** The algorithm and the kernel of the final free-space propagation over
    [free_prop_cm]; [multislice_propagate_batch] and
    [multislice_propagate_batch_numpy] repeat these statements with
    [grid_shape] for [obj_shape]. *)
Definition free_space_algorithm (psize_cm energy_ev free_prop_cm : R)
  (obj_shape : list nat) : algorithm :=
  let voxel_nm := voxel_nm_of psize_cm in
  let lmbda_nm := 1240 / energy_ev in
  let mean_voxel_nm := mean_voxel_nm_of voxel_nm in
  let size_nm := size_nm_of obj_shape voxel_nm in
  let dist_nm := free_prop_cm * 1e7 in
  select_algorithm mean_voxel_nm (crit_samp_of lmbda_nm dist_nm size_nm).

Definition free_space_kernel (psize_cm energy_ev free_prop_cm : R)
  (obj_shape : list nat) : cimage :=
  let voxel_nm := voxel_nm_of psize_cm in
  let lmbda_nm := 1240 / energy_ev in
  let dist_nm := free_prop_cm * 1e7 in
  match free_space_algorithm psize_cm energy_ev free_prop_cm obj_shape with
  | TF => get_kernel dist_nm lmbda_nm voxel_nm obj_shape
  | IR => get_kernel_ir dist_nm lmbda_nm voxel_nm obj_shape
  end.

(** [multislice_propagate] with [pad=None]; the wavefront starts as
    [zeros + probe_real + 1j * probe_imag].  The result is [None] when no
    kernel [h] is passed, since the loop body multiplies by [h]. *)
Definition multislice_propagate (grid_delta grid_beta : volume)
  (probe_real probe_imag : image) (energy_ev psize_cm : R)
  (h : option cimage) (free_prop_cm : option R) (obj_shape : list nat)
  : option cimage :=
  let voxel_nm := voxel_nm_of psize_cm in
  let wavefront :=
    zip_image (fun re im => Cadd (Cadd (RtoC 0) (RtoC re))
                                 (Cmul Ci (RtoC im)))
              probe_real probe_imag in
  let lmbda_nm := 1240 / energy_ev in
  let mean_voxel_nm := mean_voxel_nm_of voxel_nm in
  let size_nm := size_nm_of obj_shape voxel_nm in
  let n_slice := nth 2 (Shift.shape_of R 3 grid_delta) 0%nat in
  let delta_nm := last voxel_nm 0 in
  match h with
  | None => None
  | Some h =>
      let k := 2 * PI * delta_nm / lmbda_nm in
      let wavefront :=
        fold_left
          (fun wf i =>
             modulate_and_propagate grid_delta grid_beta k mean_voxel_nm
                                    lmbda_nm delta_nm size_nm h i wf)
          (seq 0 n_slice) wavefront in
      match free_prop_cm with
      | None => Some wavefront
      | Some free_prop_cm =>
          let h := free_space_kernel psize_cm energy_ev free_prop_cm
                                     obj_shape in
          let wavefront := cmul_image (fftshift (fft2d wavefront)) h in
          Some (ifft2d (ifftshift wavefront))
      end
  end.

(** ** Specification-level definitions *)

(** The propagation of one slice thickness, applied to the modulated
    wavefront: the second half of [modulate_and_propagate]. *)
Definition propagate_slice (mean_voxel_nm lmbda_nm delta_nm : R)
  (size_nm : list R) (h : cimage) (wavefront : cimage) : cimage :=
  if Rlt_dec (crit_samp_of lmbda_nm delta_nm size_nm) mean_voxel_nm then
    ifft2d (ifftshift (cmul_image (fftshift (fft2d wavefront)) h))
  else
    ifftshift (ifft2d (cmul_image (fft2d (fftshift wavefront)) h)).

(** The transmission function of slice [i], voxel by voxel. *)
Definition transmission_slice (grid_delta grid_beta : volume) (k : R)
  (i : nat) : cimage :=
  zip_image (transmission k) (slice_z grid_delta i) (slice_z grid_beta i).

(** The wavefront after the loop over the slices. *)
Definition slices_wavefront (grid_delta grid_beta : volume)
  (probe_real probe_imag : image) (energy_ev psize_cm : R) (h : cimage)
  (obj_shape : list nat) : cimage :=
  let voxel_nm := voxel_nm_of psize_cm in
  let lmbda_nm := 1240 / energy_ev in
  let delta_nm := last voxel_nm 0 in
  fold_left
    (fun wf i =>
       modulate_and_propagate grid_delta grid_beta
         (2 * PI * delta_nm / lmbda_nm) (mean_voxel_nm_of voxel_nm)
         lmbda_nm delta_nm (size_nm_of obj_shape voxel_nm) h i wf)
    (seq 0 (nth 2 (Shift.shape_of R 3 grid_delta) 0%nat))
    (zip_image (fun re im => Cadd (Cadd (RtoC 0) (RtoC re))
                                  (Cmul Ci (RtoC im)))
               probe_real probe_imag).

(** ** The transmission function *)

Lemma Cexp_phase (k delta : R) :
  Cexp (Cmul (Cmulr Ci k) (RtoC delta)) = (cos (k * delta), sin (k * delta)).
Proof.
  unfold Cexp, Cmul, Cmulr, Ci, RtoC. simpl.
  replace ((0 * k - 1 * 0) * delta - (0 * 0 + 1 * k) * 0) with 0 by ring.
  replace ((0 * k - 1 * 0) * 0 + (0 * 0 + 1 * k) * delta) with (k * delta)
    by ring.
  rewrite exp_0. f_equal; ring.
Qed.

Lemma Cexp_attenuation (k beta : R) :
  Cexp (Crmul (- k) (RtoC beta)) = (exp (- (k * beta)), 0).
Proof.
  unfold Cexp, Cmul, Crmul, RtoC. simpl.
  replace (- k * beta - 0 * 0) with (- (k * beta)) by ring.
  replace (- k * 0 + 0 * beta) with 0 by ring.
  rewrite cos_0, sin_0. f_equal; ring.
Qed.

Lemma Cabs_phase (t : R) : Cabs (cos t, sin t) = 1.
Proof.
  unfold Cabs. simpl.
  replace (cos t * cos t + sin t * sin t) with ((sin t)² + (cos t)²)
    by (unfold Rsqr; ring).
  rewrite sin2_cos2. apply sqrt_1.
Qed.

Lemma transmission_polar (k delta beta : R) :
  transmission k delta beta
  = (exp (- (k * beta)) * cos (k * delta),
     exp (- (k * beta)) * sin (k * delta)).
Proof.
  unfold transmission. rewrite Cexp_phase, Cexp_attenuation.
  unfold Cmul. simpl. f_equal; ring.
Qed.

Lemma Cabs_transmission (k delta beta : R) :
  Cabs (transmission k delta beta) = exp (- (k * beta)).
Proof.
  rewrite transmission_polar. unfold Cabs. simpl.
  set (e := exp (- (k * beta))).
  replace (e * cos (k * delta) * (e * cos (k * delta))
           + e * sin (k * delta) * (e * sin (k * delta)))
    with (e² * ((sin (k * delta))² + (cos (k * delta))²))
    by (unfold Rsqr; ring).
  rewrite sin2_cos2, Rmult_1_r. apply sqrt_Rsqr.
  left. apply exp_pos.
Qed.


(** ** Choice of the free-space kernel *)

Lemma select_algorithm_TF (m s : R) : select_algorithm m s = TF <-> m > s.
Proof.
  unfold select_algorithm. destruct (Rlt_dec s m) as [H|H]; split; intros K;
    try reflexivity; try discriminate; try assumption.
  contradiction.
Qed.

Lemma select_algorithm_IR (m s : R) : select_algorithm m s = IR <-> m <= s.
Proof.
  unfold select_algorithm. destruct (Rlt_dec s m) as [H|H]; split; intros K;
    try reflexivity; try discriminate; try lra.
Qed.

Lemma cube_root_pos (x : R) : 0 < cube_root x.
Proof. unfold cube_root, Rpower. apply exp_pos. Qed.

Lemma cube_root_cube (p : R) : 0 < p -> cube_root (p * (p * (p * 1))) = p.
Proof.
  intros Hp. unfold cube_root, Rpower.
  rewrite Rmult_1_r, !ln_mult by nra.
  replace (1 / 3 * (ln p + (ln p + ln p))) with (ln p) by field.
  now apply exp_ln.
Qed.


End Propagation.


End Propagate.

(* ================================================================= *)
(** * ptychography.py: the forward model and the loss *)
(* ================================================================= *)

Module Objective.

Import Propagate.

Local Open Scope R_scope.

(** ** Rotation of the object: [tensorflow.contrib.image.rotate] *)

(** [tf_rotate] is the rotation of TensorFlow 1.x: the angle is turned
    into a projective transform that maps every output pixel to an input
    position, which is sampled by bilinear interpolation; the library has
    no padding option and reads the pixels outside the image as zero. *)

(** An image in height, width, channel layout, and the object volume with
    axes [(x, y, z, channel)]: the rotation treats the first axis as the
    batch axis. *)
Definition image3 : Type := list (list (list R)).
Definition volume4 : Type := list image3.

(** The library reads a pixel outside the image as [fill_value]. *)
Definition read_with_fill_value (img : image3) (y x : Z) (channel : nat)
  (fill_value : R) : R :=
  match Interp.nth_Z img y with
  | None => fill_value
  | Some row =>
      match Interp.nth_Z row x with
      | None => fill_value
      | Some pixel => nth channel pixel fill_value
      end
  end.

(** Bilinear interpolation of the library's projective transform. *)
Definition bilinear_interpolation (img : image3) (y x : R) (channel : nat)
  (fill_value : R) : R :=
  let y_floor := Zfloor y in
  let x_floor := Zfloor x in
  let y_ceil := (y_floor + 1)%Z in
  let x_ceil := (x_floor + 1)%Z in
  let value_yfloor :=
    (IZR x_ceil - x) * read_with_fill_value img y_floor x_floor channel
                                            fill_value
    + (x - IZR x_floor) * read_with_fill_value img y_floor x_ceil channel
                                               fill_value in
  let value_yceil :=
    (IZR x_ceil - x) * read_with_fill_value img y_ceil x_floor channel
                                            fill_value
    + (x - IZR x_floor) * read_with_fill_value img y_ceil x_ceil channel
                                               fill_value in
  (IZR y_ceil - y) * value_yfloor + (y - IZR y_floor) * value_yceil.

(** [angles_to_projective_transforms]: the rotation about the centre of
    the image as the eight coefficients of a projective transform. *)
Definition angles_to_projective_transforms (angle : R)
  (image_height image_width : nat) : list R :=
  let h := INR image_height - 1 in
  let w := INR image_width - 1 in
  let x_offset := (w - (cos angle * w - sin angle * h)) / 2 in
  let y_offset := (h - (sin angle * w + cos angle * h)) / 2 in
  [cos angle; - sin angle; x_offset; sin angle; cos angle; y_offset; 0; 0].

(** The input position sampled for the output pixel [(output_y,
    output_x)]. *)
Definition input_position (t : list R) (output_y output_x : nat) : R * R :=
  let c k := nth k t 0 in
  let ox := INR output_x in
  let oy := INR output_y in
  let projection := c 6%nat * ox + c 7%nat * oy + 1 in
  let input_x := (c 0%nat * ox + c 1%nat * oy + c 2%nat) / projection in
  let input_y := (c 3%nat * ox + c 4%nat * oy + c 5%nat) / projection in
  (input_y, input_x).

Definition transform_image (img : image3) (t : list R)
  (height width channels : nat) : image3 :=
  map (fun output_y =>
         map (fun output_x =>
                let '(input_y, input_x) :=
                  input_position t output_y output_x in
                map (fun channel =>
                       bilinear_interpolation img input_y input_x channel 0)
                    (seq 0 channels))
             (seq 0 width))
      (seq 0 height).

(** [tf_rotate(obj, angle, interpolation='BILINEAR')] *)
Definition tf_rotate (obj : volume4) (angle : R) : volume4 :=
  let shape := Shift.shape_of R 4 obj in
  let height := nth 1 shape 0%nat in
  let width := nth 2 shape 0%nat in
  let channels := nth 3 shape 0%nat in
  map (fun img =>
         transform_image img
           (angles_to_projective_transforms angle height width)
           height width channels)
      obj.

(** ** Python slicing *)

Definition slice_bound (n i : Z) : Z :=
  Z.max 0 (Z.min n (if (i <? 0)%Z then i + n else i))%Z.

(** [l[start:stop]] *)
Definition py_slice {X : Type} (l : list X) (start stop : Z) : list X :=
  let n := Z.of_nat (length l) in
  let a := slice_bound n start in
  let b := slice_bound n stop in
  firstn (Z.to_nat (b - a)) (skipn (Z.to_nat a) l).

(** [subobj[:, :, :, c]] *)
Definition channel (c : nat) (sub : volume4) : volume :=
  map (map (map (fun v => nth c v 0))) sub.

(** ** Reductions *)

Definition rsum2 {X : Type} (f : X -> R) (img : list (list X)) : R :=
  Interp.rsum (map (fun row => Interp.rsum (map f row)) img).

Definition count2 {X : Type} (img : list (list X)) : nat :=
  fold_right Nat.add 0%nat (map (@length X) img).

(** [tf.reduce_mean] of a two-dimensional tensor *)
Definition reduce_mean (img : image) : R :=
  rsum2 (fun v => v) img / INR (count2 img).

(** [tf.squared_difference] *)
Definition squared_difference (a b : R) : R := (a - b) * (a - b).

(** [tf.abs] of a complex tensor *)
Definition abs_image (w : cimage) : image := map (map Cabs) w.

Definition rsum3 (f : R -> R) (v : volume) : R :=
  Interp.rsum (map (rsum2 f) v).

(** [tf.norm(v, ord=1)] and [tf.norm(v, ord=2)] of the flattened tensor *)
Definition norm1 (v : volume) : R := rsum3 Rabs v.
Definition norm2 (v : volume) : R := sqrt (rsum3 (fun x => x * x) v).

Definition norm1_4 (obj : volume4) : R :=
  Interp.rsum (map (fun img => rsum3 Rabs img) obj).

(** Sum of the absolute differences of neighbouring elements of a list
    of tensors, the elements being compared by [d]. *)
Fixpoint diff_sum {X : Type} (d : X -> X -> R) (l : list X) : R :=
  match l with
  | a :: ((b :: _) as l') => d b a + diff_sum d l'
  | _ => 0
  end.

Definition absdiff1 (u v : list R) : R :=
  Interp.rsum (Shift.map2 (fun a b => Rabs (a - b)) u v).

Definition absdiff2 (u v : list (list R)) : R :=
  Interp.rsum (Shift.map2 absdiff1 u v).

(** [tf.image.total_variation] of a height, width, channel image *)
Definition total_variation (img : image3) : R :=
  diff_sum absdiff2 img + Interp.rsum (map (diff_sum absdiff1) img).

(** ** Samples outside the volume: definitions *)

(** The reading the symmetric-padding convention would give: the index is
    mirrored at the boundary of an axis of length [n]. *)
Definition reflect (n : nat) (i : Z) : Z :=
  let period := (2 * Z.of_nat n)%Z in
  let j := (i mod period)%Z in
  if (j <? Z.of_nat n)%Z then j else (period - 1 - j)%Z.

Definition read_symmetric (img : image3) (y x : Z) (channel : nat) : R :=
  let height := length img in
  let width := length (hd [] img) in
  read_with_fill_value img (reflect height y) (reflect width x) channel 0.

(** Bilinear interpolation and rotation over an arbitrary way of reading
    pixels. *)
Definition bilinear_with (read : Z -> Z -> nat -> R) (y x : R)
  (channel : nat) : R :=
  let y_floor := Zfloor y in
  let x_floor := Zfloor x in
  let y_ceil := (y_floor + 1)%Z in
  let x_ceil := (x_floor + 1)%Z in
  (IZR y_ceil - y)
  * ((IZR x_ceil - x) * read y_floor x_floor channel
     + (x - IZR x_floor) * read y_floor x_ceil channel)
  + (y - IZR y_floor)
    * ((IZR x_ceil - x) * read y_ceil x_floor channel
       + (x - IZR x_floor) * read y_ceil x_ceil channel).

(** The value the rotation would give a voxel under the symmetric-padding
    convention. *)
Definition rotated_symmetric (obj : volume4) (angle : R)
  (b oy ox c : nat) : R :=
  let shape := Shift.shape_of R 4 obj in
  let t := angles_to_projective_transforms angle (nth 1 shape 0%nat)
                                           (nth 2 shape 0%nat) in
  let '(input_y, input_x) := input_position t oy ox in
  bilinear_with (read_symmetric (nth b obj [])) input_y input_x c.

Definition voxel4 (v : volume4) (b y x c : nat) : R :=
  nth c (nth x (nth y (nth b v []) []) []) 0.

(** A pixel position outside an image of the given height and width. *)
Definition outside (height width : nat) (y x : Z) : Prop :=
  ~ ((0 <= y < Z.of_nat height)%Z /\ (0 <= x < Z.of_nat width)%Z).

(** A row of five voxels of value one, rotated by a quarter turn: the
    first output voxel samples the position [(-2, 2)], two rows above the
    volume. *)
Definition row_of_ones : volume4 := [[[[1]; [1]; [1]; [1]; [1]]]].

Fixpoint chunks {X : Type} (size count : nat) (l : list X) : list (list X) :=
  match count with
  | O => []
  | S count' => firstn size l :: chunks size count' (skipn size l)
  end.

(** [tf.reshape(t, [d0, d1, -1])] of a two-dimensional tensor *)
Definition reshape3 (t : image) (d0 d1 : nat) : image3 :=
  let flat := List.concat t in
  let c := (length flat / (d0 * d1))%nat in
  map (chunks c d1) (chunks (d1 * c) d0 flat).

Section Loss.

(** [PI], [fft2d] and [ifft2d] as in [Propagate]; [probe_mask] is used by
    [rotate_and_project] and defined nowhere in the module. *)
Variable PI : R.
Variables fft2d ifft2d : cimage -> cimage.
Variable probe_mask : cimage.

(** The settings of [reconstruct_ptychography] read by the loss. *)
Record settings : Type := {
  probe_size : nat * nat;
  obj_size : list nat;
  energy_ev : R;
  psize_cm : R;
  ds_level : R;
  probe_circ_mask : option R;
  probe_type : string;
  alpha : R;
  alpha_d : option R;
  alpha_b : option R;
  gamma : R;
  n_theta : nat;
  n_pos : nat;
  dim_y : nat;
  dim_x : nat;
  minibatch_size : nat
}.

(** [(np.array(probe_size) / 2).astype('int')] *)
Definition probe_size_half (st : settings) : Z * Z :=
  (Z.of_nat (fst (probe_size st) / 2), Z.of_nat (snd (probe_size st) / 2)).

(** The sub-volume under the probe at [pos] and its exit wave. *)
Definition subobj_at (st : settings) (obj_rot : volume4) (pos : Z * Z)
  : volume4 :=
  let '(h0, h1) := probe_size_half st in
  let '(s0, s1) := probe_size st in
  map (fun plane => py_slice plane (snd pos - h1) (snd pos - h1 + Z.of_nat s1))
      (py_slice obj_rot (fst pos - h0) (fst pos - h0 + Z.of_nat s0)).

Definition exit_wave (st : settings) (obj_rot : volume4) (pos : Z * Z)
  (probe_real probe_imag : image) (h : cimage) : option cimage :=
  let subobj := subobj_at st obj_rot pos in
  multislice_propagate PI fft2d ifft2d
    (channel 0 subobj) (channel 1 subobj) probe_real probe_imag
    (energy_ev st) (psize_cm st * ds_level st) (Some h) None
    [fst (probe_size st); snd (probe_size st); last (obj_size st) 0%nat].

(** [rotate_and_project(loss)] *)
Definition rotate_and_project (st : settings) (obj : volume4)
  (this_theta : R) (this_pos_batch : list (Z * Z))
  (this_prj_batch : list cimage) (probe_real probe_imag : image)
  (h : cimage) (loss : R) : option R :=
  let obj_rot := tf_rotate obj this_theta in
  fold_left
    (fun acc j =>
       match acc with
       | None => None
       | Some loss =>
           let pos := nth j this_pos_batch (0, 0)%Z in
           match exit_wave st obj_rot pos probe_real probe_imag h with
           | None => None
           | Some exiting =>
               let exiting :=
                 match probe_circ_mask st with
                 | Some _ => cmul_image exiting probe_mask
                 | None => exiting
                 end in
               let exiting := fftshift (fft2d exiting) in
               Some (loss
                     + reduce_mean
                         (zip_image squared_difference (abs_image exiting)
                            (abs_image (nth j this_prj_batch []))))
           end
       end)
    (seq 0 (minibatch_size st)) (Some loss).

(** [reg_term]; multiplying by a weight that is [None] is an error. *)
Definition reg_term (st : settings) (obj : volume4) : option R :=
  match alpha_d st with
  | None =>
      Some (alpha st * norm1_4 obj
            + gamma st * total_variation (channel 0 obj))
  | Some ad =>
      match alpha_b st with
      | None => None
      | Some ab =>
          if Req_dec_T (gamma st) 0 then
            Some (ad * norm1 (channel 0 obj) + ab * norm1 (channel 1 obj))
          else
            Some (ad * norm1 (channel 0 obj) + ab * norm1 (channel 1 obj)
                  + gamma st * norm2 (channel 0 obj))
      end
  end.

Definition probe_reg (st : settings) (probe_real : image) : R :=
  1e-10 * (total_variation (reshape3 probe_real (dim_y st) (dim_x st))
           + total_variation (reshape3 probe_real (dim_y st) (dim_x st))).

(** The tensor [loss] minimised by the optimizer. *)
Definition total_loss (st : settings) (obj : volume4) (this_theta : R)
  (this_pos_batch : list (Z * Z)) (this_prj_batch : list cimage)
  (probe_real probe_imag : image) (h : cimage) : option R :=
  match rotate_and_project st obj this_theta this_pos_batch this_prj_batch
                           probe_real probe_imag h 0
  with
  | None => None
  | Some loss =>
      match reg_term st obj with
      | None => None
      | Some reg_term =>
          let loss := loss / INR (n_theta st) / INR (n_pos st) + reg_term in
          if String.eqb (probe_type st) "optimizable" then
            Some (loss + probe_reg st probe_real)
          else Some loss
      end
  end.

(** ** Specification-level definitions *)

(** The exit wavefront of pose [j] of the minibatch. *)
Definition exiting_of (st : settings) (obj : volume4) (this_theta : R)
  (this_pos_batch : list (Z * Z)) (probe_real probe_imag : image)
  (h : cimage) (j : nat) : cimage :=
  match exit_wave st (tf_rotate obj this_theta)
                  (nth j this_pos_batch (0, 0)%Z) probe_real probe_imag h
  with
  | Some w => w
  | None => []
  end.

Definition masked (st : settings) (exiting : cimage) : cimage :=
  match probe_circ_mask st with
  | Some _ => cmul_image exiting probe_mask
  | None => exiting
  end.

(** Mean squared difference between the magnitude of the shifted Fourier
    transform of the (optionally masked) exit wave and the magnitude of
    the measured pattern. *)
Definition pose_term (st : settings) (exiting measured : cimage) : R :=
  reduce_mean
    (zip_image squared_difference
       (abs_image (fftshift (fft2d (masked st exiting))))
       (abs_image measured)).

(** The regularizer: [reg_term], plus the probe penalty when the probe is
    optimized. *)
Definition regularizer (st : settings) (reg : R) (probe_real : image) : R :=
  reg + (if String.eqb (probe_type st) "optimizable"
         then probe_reg st probe_real else 0).

Lemma exit_wave_Some (st : settings) (obj_rot : volume4) (pos : Z * Z)
  (probe_real probe_imag : image) (h : cimage) :
  exists w, exit_wave st obj_rot pos probe_real probe_imag h = Some w.
Proof. unfold exit_wave, multislice_propagate. eauto. Qed.

Lemma rotate_and_project_sum (st : settings) (obj : volume4) (this_theta : R)
  (this_pos_batch : list (Z * Z)) (this_prj_batch : list cimage)
  (probe_real probe_imag : image) (h : cimage) (loss : R) :
  rotate_and_project st obj this_theta this_pos_batch this_prj_batch
                     probe_real probe_imag h loss
  = Some (loss
          + Interp.rsum
              (map (fun j =>
                      pose_term st
                        (exiting_of st obj this_theta this_pos_batch
                                    probe_real probe_imag h j)
                        (nth j this_prj_batch []))
                   (seq 0 (minibatch_size st)))).
Proof.
  unfold rotate_and_project. revert loss.
  induction (seq 0 (minibatch_size st)) as [|j l IH]; intros loss.
  - simpl. f_equal. ring.
  - cbn [fold_left map Interp.rsum fold_right].
    unfold exiting_of at 1, pose_term at 1, masked at 1.
    destruct (exit_wave_Some st (tf_rotate obj this_theta)
                (nth j this_pos_batch (0, 0)%Z) probe_real probe_imag h)
      as [w Ew].
    rewrite Ew, IH. f_equal. unfold Interp.rsum. ring.
Qed.


End Loss.

(** ** Samples outside the volume *)

Lemma nth_Z_None {X : Type} (l : list X) (i : Z) :
  ~ (0 <= i < Z.of_nat (length l))%Z -> Interp.nth_Z l i = None.
Proof.
  intros H. unfold Interp.nth_Z.
  destruct (Z.ltb_spec i 0) as [Hneg|Hpos]; [reflexivity|].
  apply nth_error_None. lia.
Qed.

Lemma read_outside (height width channels : nat) (img : image3) (y x : Z)
  (c : nat) (fill : R) :
  Shift.has_shape 3 [height; width; channels] img ->
  outside height width y x ->
  read_with_fill_value img y x c fill = fill.
Proof.
  intros Hs Hout. apply Interp.shape3_inv in Hs. destruct Hs as [L0 HF].
  unfold read_with_fill_value.
  destruct (Interp.nth_Z img y) as [row|] eqn:Ey; [|reflexivity].
  destruct (HF row (Interp.nth_Z_In _ _ _ Ey)) as [L1 _].
  apply Interp.nth_Z_bounds in Ey.
  rewrite nth_Z_None; [reflexivity|].
  unfold outside in Hout. rewrite L1. rewrite L0 in Ey. tauto.
Qed.

Lemma nth_map_seq {X : Type} (f : nat -> X) (n i : nat) (d : X) :
  (i < n)%nat -> nth i (map f (seq 0 n)) d = f i.
Proof.
  intros Hi. rewrite (nth_indep _ d (f 0%nat))
    by (now rewrite length_map, length_seq).
  rewrite (map_nth f). now rewrite seq_nth.
Qed.

Lemma voxel_tf_rotate (n height width channels : nat) (obj : volume4)
  (angle : R) (b oy ox c : nat) :
  Shift.has_shape 4 [n; height; width; channels] obj ->
  (b < n)%nat -> (oy < height)%nat -> (ox < width)%nat ->
  (c < channels)%nat ->
  voxel4 (tf_rotate obj angle) b oy ox c
  = bilinear_interpolation (nth b obj [])
      (fst (input_position
              (angles_to_projective_transforms angle height width) oy ox))
      (snd (input_position
              (angles_to_projective_transforms angle height width) oy ox))
      c 0.
Proof.
  intros Hs Hb Hy Hx Hc.
  destruct (Shift.has_shape_ztrunc R 4 _ obj Hs) as [_ E].
  unfold voxel4, tf_rotate. rewrite E.
  assert (Ez : Shift.ztrunc [n; height; width; channels]
               = [n; height; width; channels]).
  { destruct n, height, width, channels; try lia. reflexivity. }
  rewrite Ez. cbn [nth].
  assert (Ln : length obj = n) by (simpl in Hs; tauto).
  set (F := fun img : image3 => transform_image img _ _ _ _).
  rewrite (nth_indep _ [] (F [])) by (rewrite length_map; lia).
  rewrite (map_nth F). unfold F, transform_image.
  rewrite nth_map_seq by assumption.
  rewrite nth_map_seq by assumption.
  destruct (input_position _ oy ox) as [iy ix]. cbn [fst snd].
  now rewrite nth_map_seq by assumption.
Qed.

(** C7 (as the code has it).  [rotate_and_project] rotates the unpadded
    object with the library rotation: a voxel of the rotated object is the
    bilinear combination of four pixels read with fill value zero, so a
    pixel outside the volume is read as [0], and a sample all four of whose
    neighbours are outside the volume is [0]. *)
Theorem rotation_zero_fill (n height width channels : nat) (obj : volume4)
  (angle : R) (b oy ox c : nat) :
  Shift.has_shape 4 [n; height; width; channels] obj ->
  (b < n)%nat -> (oy < height)%nat -> (ox < width)%nat ->
  (c < channels)%nat ->
  let img := nth b obj [] in
  let pos := input_position
               (angles_to_projective_transforms angle height width) oy ox in
  let y0 := Zfloor (fst pos) in
  let x0 := Zfloor (snd pos) in
  voxel4 (tf_rotate obj angle) b oy ox c
  = bilinear_with (fun y x ch => read_with_fill_value img y x ch 0)
                  (fst pos) (snd pos) c /\
  (forall y x, outside height width y x ->
               read_with_fill_value img y x c 0 = 0) /\
  (outside height width y0 x0 -> outside height width y0 (x0 + 1) ->
   outside height width (y0 + 1) x0 ->
   outside height width (y0 + 1) (x0 + 1) ->
   voxel4 (tf_rotate obj angle) b oy ox c = 0).
Proof.
  intros Hs Hb Hy Hx Hc img pos y0 x0.
  assert (Himg : Shift.has_shape 3 [height; width; channels] img).
  { simpl in Hs. destruct Hs as (Ln & _ & HF). rewrite Forall_forall in HF.
    apply HF. apply nth_In. unfold volume4, image3 in *.
    rewrite Ln. exact Hb. }
  assert (Ev : voxel4 (tf_rotate obj angle) b oy ox c
               = bilinear_interpolation img (fst pos) (snd pos) c 0)
    by now apply (voxel_tf_rotate n height width channels).
  split; [|split].
  - rewrite Ev. unfold bilinear_interpolation, bilinear_with. ring.
  - intros y x Hout. now apply (read_outside height width channels).
  - intros H00 H01 H10 H11. rewrite Ev. unfold bilinear_interpolation.
    fold y0 x0.
    rewrite !(read_outside height width channels) by assumption. ring.
Qed.

Lemma quarter_turn_transform :
  angles_to_projective_transforms (PI / 2) 1 5 = [0; -1; 2; 1; 0; -2; 0; 0].
Proof.
  unfold angles_to_projective_transforms. rewrite cos_PI2, sin_PI2.
  simpl INR. Interp.list_eq; lra.
Qed.

Lemma quarter_turn_position :
  input_position (angles_to_projective_transforms (PI / 2) 1 5) 0 0
  = (-2, 2).
Proof.
  rewrite quarter_turn_transform. unfold input_position. cbn [nth INR].
  f_equal; lra.
Qed.

Lemma row_of_ones_shape : Shift.has_shape 4 [1; 1; 5; 1]%nat row_of_ones.
Proof. simpl. repeat split; repeat constructor. Qed.

Lemma rotation_zero_fill_witness :
  voxel4 (tf_rotate row_of_ones (PI / 2)) 0 0 0 0 = 0.
Proof.
  refine (proj2 (proj2 (rotation_zero_fill 1 1 5 1 row_of_ones (PI / 2)
                          0 0 0 0 row_of_ones_shape _ _ _ _)) _ _ _ _);
    try lia;
    rewrite quarter_turn_position; cbn [fst snd];
    rewrite !ZfloorZ; unfold outside; lia.
Defined.

(** At that voxel the code gives [0]; the symmetric-padding convention
    would give the mirrored value [1]. *)
Lemma rotation_fill_counterexample :
  voxel4 (tf_rotate row_of_ones (PI / 2)) 0 0 0 0 = 0 /\
  rotated_symmetric row_of_ones (PI / 2) 0 0 0 0 = 1 /\
  voxel4 (tf_rotate row_of_ones (PI / 2)) 0 0 0 0
  <> rotated_symmetric row_of_ones (PI / 2) 0 0 0 0.
Proof.
  assert (E0 : voxel4 (tf_rotate row_of_ones (PI / 2)) 0 0 0 0 = 0).
  { rewrite (voxel_tf_rotate 1 1 5 1) by (try apply row_of_ones_shape; lia).
    rewrite quarter_turn_position. cbn [fst snd].
    unfold bilinear_interpolation. rewrite !ZfloorZ.
    unfold read_with_fill_value, Interp.nth_Z, row_of_ones. simpl. lra. }
  assert (E1 : rotated_symmetric row_of_ones (PI / 2) 0 0 0 0 = 1).
  { unfold rotated_symmetric.
    change (Shift.shape_of R 4 row_of_ones) with [1; 1; 5; 1]%nat.
    cbn [nth]. rewrite quarter_turn_position.
    unfold bilinear_with. rewrite !ZfloorZ.
    unfold read_symmetric, read_with_fill_value, Interp.nth_Z, reflect,
      row_of_ones. simpl. lra. }
  rewrite E0, E1. repeat split. lra.
Qed.

End Objective.

(* ================================================================= *)
(** * ptychography.py: the reconstruction driver *)
(* ================================================================= *)

Module Driver.

Local Open Scope string_scope.
Local Open Scope list_scope.
Local Open Scope Q_scope.

(** ** The object variable and its clamp *)

(** The object is a four-dimensional tensor over [(x, y, z, channel)]. *)
Definition object : Type := Shift.tensor Q 4.

Fixpoint tmap (f : Q -> Q) (d : nat) : Shift.tensor Q d -> Shift.tensor Q d :=
  match d return Shift.tensor Q d -> Shift.tensor Q d with
  | O => fun x => f x
  | S d' => fun t => map (tmap f d') t
  end.

Fixpoint tzip (f : Q -> Q -> Q) (d : nat)
  : Shift.tensor Q d -> Shift.tensor Q d -> Shift.tensor Q d :=
  match d return Shift.tensor Q d -> Shift.tensor Q d -> Shift.tensor Q d with
  | O => fun x y => f x y
  | S d' => fun t u => Shift.map2 (tzip f d') t u
  end.

Fixpoint tforall (P : Q -> Prop) (d : nat) : Shift.tensor Q d -> Prop :=
  match d return Shift.tensor Q d -> Prop with
  | O => fun x => P x
  | S d' => fun t => Forall (tforall P d') t
  end.

(** [tf.nn.relu] on one value *)
Definition relu (x : Q) : Q := if Qle_bool x 0 then 0 else x.

(** A tensor of the TensorFlow graph built from the object variable: the
    variable itself, or [tf.nn.relu] of such a tensor. *)
Inductive node : Type :=
| Variable_obj
| Relu (n : node).

(** The optimizer holds the variable; the Python name [obj] is bound to a
    node of the graph. *)
Record session : Type := {
  variable : object;
  obj : node
}.

(** [sess.run(n)] *)
Fixpoint run (n : node) (value : object) : object :=
  match n with
  | Variable_obj => value
  | Relu n' => tmap relu 4 (run n' value)
  end.

(** [sess.run(obj)] *)
Definition read_obj (s : session) : object := run (obj s) (variable s).

(** One update of the optimizer ([sess.run(update_obj)] or
    [sess.run(optimizer)]): the step computed from the gradients is
    subtracted from the variable. *)
Definition apply_update (s : session) (step : object) : session :=
  {| variable := tzip Qminus 4 (variable s) step; obj := obj s |}.

(** [obj = tf.nn.relu(obj)], the last statement of an epoch before the
    stopping criterion. *)
Definition clamp (s : session) : session :=
  {| variable := variable s; obj := Relu (obj s) |}.

(** The updates of one epoch, over all angles and minibatches, followed by
    the clamp. *)
Definition epoch (steps : list object) (s : session) : session :=
  clamp (fold_left apply_update steps s).

Definition nonneg (t : object) : Prop := tforall (fun x => 0 <= x) 4 t.

(** ** The stopping criterion *)

Definition Qltb (x y : Q) : bool := negb (Qle_bool y x).

(** [-crit_conv_rate < (current_loss - loss_ls[-1]) / loss_ls[-1] < 0] *)
Definition converged (crit_conv_rate current_loss previous_loss : Q) : bool :=
  let rate := (current_loss - previous_loss) / previous_loss in
  Qltb (- crit_conv_rate) rate && Qltb rate 0.

(** [n_epochs] is ['auto'] or a number. *)
Inductive epoch_budget : Type :=
| Auto
| Epochs (n : nat).

(** [n_loop] *)
Definition n_loop (n_epochs : epoch_budget) (max_nepochs : nat)
  (ds_level : nat) (n_epoch_final_pass : option nat) : nat :=
  let n := match n_epochs with
           | Auto => max_nepochs
           | Epochs n => n
           end in
  match n_epoch_final_pass with
  | Some n' => if Nat.eqb ds_level 1 then n' else n
  | None => n
  end.

Inductive level_end : Type :=
| Stopped (epoch : nat) (loss_ls : list Q)
| Exhausted (loss_ls : list Q).

(** [for epoch in range(n_loop)], from [epoch] on with [remaining] epochs
    left; [loss epoch] is the value of [current_loss] at the end of
    [epoch], on the worker of rank 0 whose decision is broadcast. *)
Fixpoint epoch_loop (n_epochs : epoch_budget) (crit_conv_rate : Q)
  (loss : nat -> Q) (epoch remaining : nat) (loss_ls : list Q) : level_end :=
  match remaining with
  | O => Exhausted loss_ls
  | S remaining' =>
      let current_loss := loss epoch in
      let stop_iteration :=
        match n_epochs with
        | Auto =>
            match loss_ls with
            | [] => false
            | _ => converged crit_conv_rate current_loss (last loss_ls 0)
            end
        | Epochs _ => false
        end in
      if stop_iteration then Stopped epoch (loss_ls ++ [current_loss])
      else epoch_loop n_epochs crit_conv_rate loss (S epoch) remaining'
                      (loss_ls ++ [current_loss])
  end.

(** The epochs of one resolution level. *)
Definition run_level (n_epochs : epoch_budget) (crit_conv_rate : Q)
  (max_nepochs : nat) (ds_level : nat) (n_epoch_final_pass : option nat)
  (loss : nat -> Q) : level_end :=
  epoch_loop n_epochs crit_conv_rate loss 0
             (n_loop n_epochs max_nepochs ds_level n_epoch_final_pass) [].

(** The relative change of the loss at [epoch] lies in
    [(-crit_conv_rate, 0)]. *)
Definition small_decrease (crit_conv_rate : Q) (loss : nat -> Q)
  (epoch : nat) : Prop :=
  - crit_conv_rate < (loss epoch - loss (epoch - 1)%nat) / loss (epoch - 1)%nat
  /\ (loss epoch - loss (epoch - 1)%nat) / loss (epoch - 1)%nat < 0.

(** ** Start of a reconstruction: the configuration and its errors *)

(** The arguments of [reconstruct_ptychography] that decide how far the
    function gets before the optimization starts.  [core_parallelization]
    keeps its default [True]; reading the files is taken to succeed. *)
Record config : Type := {
  probe_type : string;
  multiscale_level : Z;
  minibatch_size : option nat;
  probe_initial : option (list (list Q) * list (list Q));
  kwargs : list (string * Q)
}.

(** The exceptions the start of a level can raise. *)
Inductive error : Type :=
| TypeError_None_times_int
| KeyError (key : string)
| TypeError_unpack_None
| ValueError_invalid_wavefront_type.

(** The stages of the function, in the order of the source. *)
Inductive phase : Type :=
| Read_data
| Downsample (ds_level : Z)
| Create_dataset (ds_level : Z)
| Initialize_object (ds_level : Z)
| Initialize_probe (ds_level : Z)
| Generate_kernel (ds_level : Z)
| Build_physical_model (ds_level : Z)
| Create_optimizer (ds_level : Z)
| Optimize (ds_level : Z)
| Save_level (ds_level : Z).

Inductive outcome : Type :=
| Completed
| Raised (during : phase) (e : error).

(** [kwargs[key]] *)
Fixpoint lookup (key : string) (kw : list (string * Q)) : option Q :=
  match kw with
  | [] => None
  | (k, v) :: kw' => if String.eqb k key then Some v else lookup key kw'
  end.

(** The values [2 ** ds_level] for
    [ds_level in range(multiscale_level - 1, -1, -1)]. *)
Definition levels (multiscale_level : Z) : list Z :=
  map (fun i => (2 ^ Z.of_nat i)%Z) (rev (seq 0 (Z.to_nat multiscale_level))).

(** The probe initialization: [None] when it succeeds. *)
Definition initialize_probe (c : config) : option error :=
  if String.eqb (probe_type c) "gaussian" then
    match lookup "probe_mag_sigma" (kwargs c) with
    | None => Some (KeyError "probe_mag_sigma")
    | Some _ =>
        match lookup "probe_phase_max" (kwargs c) with
        | None => Some (KeyError "probe_phase_max")
        | Some _ =>
            match lookup "probe_phase_sigma" (kwargs c) with
            | None => Some (KeyError "probe_phase_sigma")
            | Some _ => None
            end
        end
    end
  else if String.eqb (probe_type c) "optimizable" then None
  else if String.eqb (probe_type c) "fixed" then
    match probe_initial c with
    | None => Some TypeError_unpack_None
    | Some _ => None
    end
  else Some ValueError_invalid_wavefront_type.

(** One pass of the loop over the resolution levels: the stages completed
    and how the pass ends.  [minibatch_size * hvd.size()] is evaluated
    when the dataset is created, before [minibatch_size] gets its default;
    the stages after the probe initialization are listed in their order
    and not modelled further. *)
Definition level (c : config) (ds : Z) : list phase * outcome :=
  match minibatch_size c with
  | None => ([Downsample ds], Raised (Create_dataset ds) TypeError_None_times_int)
  | Some _ =>
      match initialize_probe c with
      | Some e =>
          ([Downsample ds; Create_dataset ds; Initialize_object ds],
           Raised (Initialize_probe ds) e)
      | None =>
          ([Downsample ds; Create_dataset ds; Initialize_object ds;
            Initialize_probe ds; Generate_kernel ds; Build_physical_model ds;
            Create_optimizer ds; Optimize ds; Save_level ds],
           Completed)
      end
  end.

Fixpoint run_levels (c : config) (ls : list Z) : list phase * outcome :=
  match ls with
  | [] => ([], Completed)
  | ds :: ls' =>
      match level c ds with
      | (done, Raised during e) => (done, Raised during e)
      | (done, Completed) =>
          let '(done', out) := run_levels c ls' in (done ++ done', out)
      end
  end.

(** [reconstruct_ptychography], up to the order of its stages. *)
Definition reconstruct_ptychography (c : config) : list phase * outcome :=
  let '(done, out) := run_levels c (levels (multiscale_level c)) in
  (Read_data :: done, out).

Definition valid_probe_type (c : config) : Prop :=
  probe_type c = "gaussian" \/ probe_type c = "optimizable" \/
  probe_type c = "fixed".

(** Propagation or optimization work. *)
Definition is_work (p : phase) : Prop :=
  match p with
  | Build_physical_model _ | Create_optimizer _ | Optimize _ => True
  | _ => False
  end.

(** ** Inputs of the examples *)

(** An object with one voxel, [delta = 1] and [beta = 1], and an update
    step of [2] on [delta]. *)
Definition one_voxel : session :=
  {| variable := [[[[1; 1]]]]; obj := Variable_obj |}.

Definition large_step : object := [[[[2; 0]]]].

(** A loss that halves and then decreases by two parts in a thousand. *)
Definition slow_loss (e : nat) : Q :=
  match e with
  | O => 100
  | S O => 50
  | _ => 49.9
  end.

(** One level, with the probe type ['plane'] that the error message
    itself proposes. *)
Definition plane_wave_config : config :=
  {| probe_type := "plane";
     multiscale_level := 1;
     minibatch_size := Some 23%nat;
     probe_initial := None;
     kwargs := [] |}.

(** The same probe type with no level to run. *)
Definition no_level_config : config :=
  {| probe_type := "plane";
     multiscale_level := 0;
     minibatch_size := Some 23%nat;
     probe_initial := None;
     kwargs := [] |}.

(** ** The clamp *)

Lemma relu_nonneg (x : Q) : 0 <= relu x.
Proof.
  unfold relu. destruct (Qle_bool x 0) eqn:E.
  - apply Qle_refl.
  - apply Qlt_le_weak, Qnot_le_lt. intros H.
    apply Qle_bool_iff in H. congruence.
Qed.

Lemma tmap_relu_nonneg (d : nat) (t : Shift.tensor Q d) :
  tforall (fun x => 0 <= x) d (tmap relu d t).
Proof.
  induction d as [|d IH]; simpl.
  - apply relu_nonneg.
  - apply Forall_forall. intros u Hu. apply in_map_iff in Hu.
    destruct Hu as (v & <- & _). apply IH.
Qed.

Lemma obj_fold_update (steps : list object) (s : session) :
  obj (fold_left apply_update steps s) = obj s.
Proof.
  revert s. induction steps as [|step steps IH]; intros s; simpl.
  - reflexivity.
  - now rewrite IH.
Qed.


(** The clamp rebinds the name [obj] and leaves the variable alone: what
    is read through [obj] stays clamped during the updates that follow,
    and the variable keeps the value the updates gave it. *)
Remark clamp_is_a_view (steps later : list object) (s : session) :
  nonneg (read_obj (fold_left apply_update later (epoch steps s))) /\
  variable (epoch steps s) = variable (fold_left apply_update steps s).
Proof.
  split; [|reflexivity].
  unfold read_obj. rewrite obj_fold_update.
  unfold epoch, clamp. simpl. apply tmap_relu_nonneg.
Qed.


(** ** The stopping criterion *)

Lemma Qltb_lt (x y : Q) : Qltb x y = true <-> x < y.
Proof.
  unfold Qltb. rewrite negb_true_iff. split.
  - intros E. apply Qnot_le_lt. intros H. apply Qle_bool_iff in H. congruence.
  - intros H. destruct (Qle_bool y x) eqn:E; [|reflexivity].
    apply Qle_bool_iff in E. exfalso. now apply (Qlt_not_le x y).
Qed.

Lemma converged_iff (crit : Q) (loss : nat -> Q) (e : nat) :
  converged crit (loss (S e)) (loss e) = true
  <-> small_decrease crit loss (S e).
Proof.
  unfold converged, small_decrease. simpl. rewrite Nat.sub_0_r.
  rewrite andb_true_iff, !Qltb_lt. tauto.
Qed.

Lemma history_snoc (loss : nat -> Q) (e : nat) :
  map loss (seq 0 e) ++ [loss e] = map loss (seq 0 (S e)).
Proof. now rewrite seq_S, map_app. Qed.

Lemma history_last (loss : nat -> Q) (e : nat) :
  last (map loss (seq 0 (S e))) 0 = loss e.
Proof. rewrite <- history_snoc. apply last_last. Qed.

Lemma epoch_loop_step (crit : Q) (loss : nat -> Q) (e r : nat) :
  epoch_loop Auto crit loss e (S r) (map loss (seq 0 e))
  = if match e with
       | O => false
       | S e' => converged crit (loss e) (loss e')
       end
    then Stopped e (map loss (seq 0 (S e)))
    else epoch_loop Auto crit loss (S e) r (map loss (seq 0 (S e))).
Proof.
  cbn [epoch_loop]. rewrite history_snoc. destruct e as [|e'].
  - reflexivity.
  - rewrite history_last.
    destruct (map loss (seq 0 (S e'))) eqn:E; [|reflexivity].
    apply (f_equal (@length Q)) in E.
    rewrite length_map, length_seq in E. discriminate.
Qed.

Lemma epoch_loop_stops (crit : Q) (loss : nat -> Q) (s r e : nat) :
  (e <= S s < e + r)%nat ->
  (forall e', (e <= e' <= s)%nat -> (1 <= e')%nat ->
              ~ small_decrease crit loss e') ->
  small_decrease crit loss (S s) ->
  epoch_loop Auto crit loss e r (map loss (seq 0 e))
  = Stopped (S s) (map loss (seq 0 (S (S s)))).
Proof.
  revert e. induction r as [|r IH]; intros e He Hbefore Hs; [lia|].
  rewrite epoch_loop_step. destruct e as [|e'].
  - apply IH; [lia | | assumption].
    intros e' He' H1. apply Hbefore; lia.
  - destruct (converged crit (loss (S e')) (loss e')) eqn:E.
    + apply converged_iff in E.
      destruct (Nat.eq_dec e' s) as [->|Hne]; [reflexivity|].
      exfalso. apply (Hbefore (S e')); [lia | lia | assumption].
    + destruct (Nat.eq_dec e' s) as [->|Hne].
      * apply converged_iff in Hs. congruence.
      * apply IH; [lia | | assumption].
        intros e'' He'' H1. apply Hbefore; lia.
Qed.

Lemma epoch_loop_exhausts (crit : Q) (loss : nat -> Q) (r e : nat) :
  (forall e', (e <= e' < e + r)%nat -> (1 <= e')%nat ->
              ~ small_decrease crit loss e') ->
  epoch_loop Auto crit loss e r (map loss (seq 0 e))
  = Exhausted (map loss (seq 0 (e + r))).
Proof.
  revert e. induction r as [|r IH]; intros e Hnone.
  - now rewrite Nat.add_0_r.
  - rewrite epoch_loop_step.
    replace (e + S r)%nat with (S e + r)%nat by lia.
    destruct e as [|e'].
    + apply IH. intros e' He' H1. apply Hnone; lia.
    + destruct (converged crit (loss (S e')) (loss e')) eqn:E.
      * apply converged_iff in E. exfalso.
        apply (Hnone (S e')); [lia | lia | assumption].
      * apply IH. intros e'' He'' H1. apply Hnone; lia.
Qed.

(** C6 (as the code has it).  With the epoch budget ['auto'] a level runs
    at most [n_loop] epochs ([max_nepochs], or [n_epoch_final_pass] on the
    last level).  It stops at the first epoch whose relative loss change
    lies strictly within [(-crit_conv_rate, 0)] when that epoch is among
    them: if the first such epoch is [k + 1], the level stops at epoch
    [k + 1], not earlier and not later.  When none of the [n_loop] epochs
    is such an epoch, the level ends with the budget. *)
Theorem convergence_stop (crit_conv_rate : Q) (max_nepochs ds_level : nat)
  (n_epoch_final_pass : option nat) (loss : nat -> Q) :
  let n := n_loop Auto max_nepochs ds_level n_epoch_final_pass in
  let level := run_level Auto crit_conv_rate max_nepochs ds_level
                         n_epoch_final_pass loss in
  (forall k : nat,
      (S k < n)%nat ->
      (forall e, (1 <= e <= k)%nat -> ~ small_decrease crit_conv_rate loss e) ->
      small_decrease crit_conv_rate loss (S k) ->
      level = Stopped (S k) (map loss (seq 0 (S (S k))))) /\
  ((forall e, (1 <= e < n)%nat -> ~ small_decrease crit_conv_rate loss e) ->
   level = Exhausted (map loss (seq 0 n))).
Proof.
  intros n level. unfold level, run_level. fold n. split.
  - intros k Hk Hbefore Hs.
    apply (epoch_loop_stops crit_conv_rate loss k n 0); [lia | | assumption].
    intros e He H1. apply Hbefore. lia.
  - intros Hnone.
    apply (epoch_loop_exhausts crit_conv_rate loss n 0).
    intros e He H1. apply Hnone. lia.
Qed.

Example slow_loss_run :
  run_level Auto 0.03 200 1 None slow_loss = Stopped 2 [100; 50; 49.9].
Proof. reflexivity. Qed.

Lemma convergence_stop_witness :
  run_level Auto 0.03 200 1 None slow_loss
  = Stopped 2 (map slow_loss (seq 0 3)).
Proof.
  refine (proj1 (convergence_stop 0.03 200 1 None slow_loss) 1%nat _ _ _).
  - simpl. lia.
  - intros e He. assert (e = 1%nat) as -> by lia.
    unfold small_decrease. simpl. intros [H _]. revert H. now compute.
  - unfold small_decrease. simpl. split; now compute.
Defined.

(** With a budget of two epochs the level ends after epochs [0] and [1],
    although the first epoch with a small decrease is epoch [2]. *)
Lemma convergence_stop_counterexample :
  small_decrease 0.03 slow_loss 2 /\
  ~ small_decrease 0.03 slow_loss 1 /\
  run_level Auto 0.03 2 1 None slow_loss = Exhausted [100; 50] /\
  run_level Auto 0.03 2 1 None slow_loss
  <> Stopped 2 (map slow_loss (seq 0 3)).
Proof.
  split; [|split; [|split]].
  - unfold small_decrease. simpl. split; now compute.
  - unfold small_decrease. simpl. intros [H _]. revert H. now compute.
  - reflexivity.
  - discriminate.
Qed.

(** ** The configuration error *)

Lemma initialize_probe_invalid (c : config) :
  initialize_probe c = Some ValueError_invalid_wavefront_type
  <-> ~ valid_probe_type c.
Proof.
  unfold initialize_probe, valid_probe_type.
  destruct (String.eqb_spec (probe_type c) "gaussian") as [Eg|Ng].
  { split; [|tauto].
    destruct (lookup "probe_mag_sigma" (kwargs c)); [|discriminate].
    destruct (lookup "probe_phase_max" (kwargs c)); [|discriminate].
    destruct (lookup "probe_phase_sigma" (kwargs c)); discriminate. }
  destruct (String.eqb_spec (probe_type c) "optimizable") as [Eo|No].
  { split; [discriminate | tauto]. }
  destruct (String.eqb_spec (probe_type c) "fixed") as [Ef|Nf].
  { split; [|tauto]. destruct (probe_initial c); discriminate. }
  split; [tauto | reflexivity].
Qed.

Lemma levels_first (l : Z) :
  (1 <= l)%Z -> exists rest, levels l = (2 ^ (l - 1))%Z :: rest.
Proof.
  intros Hl. unfold levels.
  replace (Z.to_nat l) with (S (Z.to_nat (l - 1))) by lia.
  rewrite seq_S, rev_app_distr. simpl.
  rewrite Z2Nat.id by lia. eauto.
Qed.

(** C9 (as the code has it).  When at least one resolution level is run
    and a minibatch size is given, [reconstruct_ptychography] raises its
    [ValueError] ("Invalid wavefront type") if and only if [probe_type] is
    not one of ['gaussian'], ['optimizable'], ['fixed']; it is raised
    during the probe initialization of the first level, after the data
    have been read, downsampled and the object initialized, and before any
    propagation or optimization work. *)
Theorem invalid_probe_type_error (c : config) :
  (1 <= multiscale_level c)%Z ->
  minibatch_size c <> None ->
  let ds := (2 ^ (multiscale_level c - 1))%Z in
  let r := reconstruct_ptychography c in
  (snd r = Raised (Initialize_probe ds) ValueError_invalid_wavefront_type
   <-> ~ valid_probe_type c) /\
  (forall during,
      snd r = Raised during ValueError_invalid_wavefront_type ->
      during = Initialize_probe ds /\
      fst r = [Read_data; Downsample ds; Create_dataset ds;
               Initialize_object ds] /\
      Forall (fun p => ~ is_work p) (fst r)).
Proof.
  intros Hl Hm ds r.
  destruct (levels_first (multiscale_level c) Hl) as [rest El].
  unfold r, reconstruct_ptychography. rewrite El. fold ds.
  cbn [run_levels]. unfold level.
  destruct (minibatch_size c) as [m|] eqn:Em; [|congruence].
  pose proof (initialize_probe_invalid c) as Hp.
  destruct (initialize_probe c) as [e|] eqn:Ep.
  - cbn [fst snd]. split.
    + rewrite <- Hp. split; congruence.
    + intros during [= <- ->]. repeat split; auto.
      repeat constructor; simpl; tauto.
  - assert (Hvalid : valid_probe_type c).
    { destruct (String.eqb_spec (probe_type c) "gaussian");
        [left; assumption|].
      destruct (String.eqb_spec (probe_type c) "optimizable");
        [right; left; assumption|].
      destruct (String.eqb_spec (probe_type c) "fixed");
        [right; right; assumption|].
      exfalso.
      assert (E : @None error = Some ValueError_invalid_wavefront_type)
        by (apply Hp; unfold valid_probe_type; tauto).
      discriminate. }
    assert (Hrest : forall ls during,
               snd (run_levels c ls)
               <> Raised during ValueError_invalid_wavefront_type).
    { induction ls as [|d ls IH]; intros during; cbn [run_levels].
      - discriminate.
      - unfold level. rewrite Em, Ep.
        destruct (run_levels c ls) as [done' out] eqn:Er.
        cbn [snd] in *. apply IH. }
    destruct (run_levels c rest) as [done' out] eqn:Er.
    cbn [fst snd]. specialize (Hrest rest). rewrite Er in Hrest.
    cbn [snd] in Hrest. split.
    + split; [intros H; exfalso; now apply (Hrest _ H) | tauto].
    + intros during H. exfalso. now apply (Hrest during).
Qed.

Lemma invalid_probe_type_error_witness :
  snd (reconstruct_ptychography plane_wave_config)
  = Raised (Initialize_probe 1) ValueError_invalid_wavefront_type.
Proof.
  refine (proj2 (proj1 (invalid_probe_type_error plane_wave_config _ _)) _).
  - simpl. lia.
  - discriminate.
  - unfold valid_probe_type. simpl. intros [H|[H|H]]; discriminate.
Defined.

(** No level at all: an unknown probe type goes unnoticed. *)
Lemma invalid_probe_type_counterexample :
  ~ valid_probe_type no_level_config /\
  reconstruct_ptychography no_level_config = ([Read_data], Completed).
Proof.
  split; [|reflexivity].
  unfold valid_probe_type. simpl. intros [H|[H|H]]; discriminate.
Qed.

(** The default [minibatch_size=None] stops a run while the dataset is
    created, whatever the probe type. *)
Example default_minibatch_size :
  reconstruct_ptychography
    {| probe_type := "fixed"; multiscale_level := 1;
       minibatch_size := None; probe_initial := None; kwargs := [] |}
  = ([Read_data; Downsample 1],
     Raised (Create_dataset 1) TypeError_None_times_int).
Proof. reflexivity. Qed.

End Driver.

(* ================================================================= *)
(** * Further properties of [fftshift] and [ifftshift] *)
(* ================================================================= *)

Module ShiftProps.

Import Shift.

Section Tensors.

Variable A : Type.

(** Element-wise combination of two tensors of rank two, as in
    [Propagate.zip_image]. *)
Definition zip2 (f : A -> A -> A) (a b : tensor A 2) : tensor A 2 :=
  map2 (map2 f) a b.

Definition all_even (s : list nat) : Prop := Forall (fun n => Nat.even n = true) s.

Lemma rot_map2 {X : Type} (g : X -> X -> X) (a b : list X) (p : nat) :
  length a = length b ->
  rot p (map2 g a b) = map2 g (rot p a) (rot p b).
Proof.
  intros Hl. unfold rot.
  assert (Hskip : forall (u v : list X) q,
             skipn q (map2 g u v) = map2 g (skipn q u) (skipn q v)).
  { intros u v q. revert u v. induction q as [|q IH]; intros u v.
    - reflexivity.
    - destruct u as [|x u], v as [|y v]; simpl; try reflexivity.
      + now destruct (skipn q u).
      + apply IH. }
  assert (Hfirst : forall (u v : list X) q,
             firstn q (map2 g u v) = map2 g (firstn q u) (firstn q v)).
  { intros u v q. revert u v. induction q as [|q IH]; intros u v.
    - reflexivity.
    - destruct u as [|x u], v as [|y v]; simpl; try reflexivity.
      now rewrite IH. }
  assert (Happ : forall (u v u' v' : list X),
             length u = length v ->
             map2 g (u ++ u') (v ++ v') = map2 g u v ++ map2 g u' v').
  { induction u as [|x u IH]; intros [|y v] u' v' E; simpl in *;
      try discriminate; [reflexivity|].
    rewrite IH by lia. reflexivity. }
  rewrite Hskip, Hfirst. symmetry. apply Happ.
  rewrite !length_skipn. lia.
Qed.

Lemma map_map2 {X : Type} (g : X -> X -> X) (h : X -> X) (a b : list X) :
  (forall x y, In x a -> In y b -> h (g x y) = g (h x) (h y)) ->
  map h (map2 g a b) = map2 g (map h a) (map h b).
Proof.
  revert b. induction a as [|x a IH]; intros [|y b] H; simpl;
    try reflexivity.
  rewrite H by (now left). rewrite IH; [reflexivity|].
  intros u v Hu Hv. apply H; now right.
Qed.

Lemma roll_zip2 (f : A -> A -> A) (n0 n1 : nat) (a b : tensor A 2)
  (i p : nat) :
  has_shape 2 [n0; n1] a -> has_shape 2 [n0; n1] b ->
  roll A 2 i p (zip2 f a b) = zip2 f (roll A 2 i p a) (roll A 2 i p b).
Proof.
  intros (La & _ & Fa) (Lb & _ & Fb). unfold zip2.
  rewrite Forall_forall in Fa, Fb.
  destruct i as [|i]; cbn [roll].
  - apply (@rot_map2 (list A)). congruence.
  - apply (@map_map2 (list A)). intros x y Hx Hy.
    destruct i as [|i]; cbn [roll].
    + apply (@rot_map2 A).
      destruct (Fa x Hx) as (Lx & _), (Fb y Hy) as (Ly & _). congruence.
    + apply (@map_map2 A). reflexivity.
Qed.

Lemma has_shape_zip2 (f : A -> A -> A) (n0 n1 : nat) (a b : tensor A 2) :
  has_shape 2 [n0; n1] a -> has_shape 2 [n0; n1] b ->
  has_shape 2 [n0; n1] (zip2 f a b).
Proof.
  intros (La & _ & Fa) (Lb & _ & Fb). unfold zip2.
  assert (Hlen : forall (X : Type) (g : X -> X -> X) (u v : list X),
             length u = length v -> length (map2 g u v) = length u).
  { intros X g. induction u as [|x u IH]; intros [|y v] E; simpl in *;
      try discriminate; [reflexivity|]. rewrite IH; lia. }
  cbn [has_shape]. repeat split; try reflexivity.
  - rewrite Hlen; congruence.
  - revert b n0 La Lb Fb. induction a as [|x a IH]; intros [|y b] n0 La Lb Fb;
      simpl in *; try constructor.
    + inversion Fa as [|? ? (Lx & _) Fa']; subst.
      inversion Fb as [|? ? (Ly & _) Fb']; subst.
      cbn [has_shape]. repeat split; try reflexivity.
      * rewrite Hlen; congruence.
      * apply Forall_forall. intros; reflexivity.
    + inversion Fa; inversion Fb; subst.
      apply (IH ltac:(assumption) b (length a)); auto.
Qed.

Lemma roll_all_zip2 (f : A -> A -> A) (split : nat -> nat) (s0 : list nat)
  (n0 n1 : nat) (l : list nat) (a b : tensor A 2) :
  has_shape 2 [n0; n1] a -> has_shape 2 [n0; n1] b ->
  roll_all A split s0 2 l (zip2 f a b)
  = zip2 f (roll_all A split s0 2 l a) (roll_all A split s0 2 l b).
Proof.
  revert a b. unfold roll_all.
  induction l as [|i l IH]; intros a b Ha Hb; cbn [fold_left];
    [reflexivity|].
  rewrite (roll_zip2 f n0 n1) by assumption.
  apply IH; now apply has_shape_roll.
Qed.

Lemma roll_all_ext (f g : nat -> nat) (s0 : list nat) (d : nat)
  (l : list nat) (t : tensor A d) :
  (forall i, f (nth i s0 0%nat) = g (nth i s0 0%nat)) ->
  roll_all A f s0 d l t = roll_all A g s0 d l t.
Proof.
  intros H. unfold roll_all. revert t.
  induction l as [|i l IH]; intros t; cbn [fold_left]; [reflexivity|].
  rewrite H. apply IH.
Qed.

Lemma even_split (n : nat) : Nat.even n = true -> fft_split n = ifft_split n.
Proof.
  intros H. apply Nat.even_spec in H. destruct H as [k ->].
  unfold fft_split, ifft_split.
  assert (E : ((2 * k + 1) / 2 = k)%nat).
  { symmetry. apply (Nat.div_unique (2 * k + 1) 2 k 1); lia. }
  rewrite E. lia.
Qed.

Lemma even_nth_ztrunc (s : list nat) (i : nat) :
  all_even s -> Nat.even (nth i (ztrunc s) 0%nat) = true.
Proof.
  intros H. revert i. induction H as [|n s Hn Hs IH]; intros i.
  - now destruct i.
  - cbn [ztrunc]. destruct i as [|i]; [exact Hn|]. cbn [nth].
    destruct n as [|n]; [|apply IH].
    destruct (Nat.lt_ge_cases i (length (repeat 0%nat (length s)))) as [L|L].
    + erewrite nth_indep by exact L. now rewrite nth_repeat.
    + now rewrite nth_overflow.
Qed.

Lemma nth_rot {X : Type} (l : list X) (p i : nat) (d : X) :
  (p <= length l)%nat -> (i < length l)%nat ->
  nth i (rot p l) d = nth ((i + p) mod length l) l d.
Proof.
  intros Hp Hi. unfold rot.
  destruct (Nat.lt_ge_cases (i + p) (length l)) as [L|L].
  - rewrite app_nth1 by (rewrite length_skipn; lia).
    rewrite nth_skipn, Nat.mod_small by lia. f_equal. lia.
  - rewrite app_nth2 by (rewrite length_skipn; lia).
    rewrite length_skipn, nth_firstn.
    assert (E : ((i + p) mod length l = i + p - length l)%nat).
    { symmetry. apply (Nat.mod_unique (i + p) (length l) 1); lia. }
    rewrite E.
    replace (i - (length l - p))%nat with (i + p - length l)%nat by lia.
    destruct (Nat.ltb_spec (i + p - length l) p); [reflexivity | lia].
Qed.

Lemma shift_rank1 (split : nat -> nat) (t : tensor A 1) :
  shift_loop A split 1 t = rot (split (length t)) t.
Proof.
  assert (H : has_shape 1 [length t] t).
  { cbn [has_shape]. repeat split. apply Forall_forall. intros; reflexivity. }
  rewrite (shift_loop_roll_all A split 1 _ t H).
  unfold roll_all. cbn [seq fold_left ztrunc nth roll]. reflexivity.
Qed.

(** Both shifts keep the shape of their argument. *)
Theorem shift_preserves_shape (d : nat) (s : list nat) (t : tensor A d) :
  has_shape d s t ->
  has_shape d s (fftshift d t) /\ has_shape d s (ifftshift d t).
Proof.
  intros H. unfold fftshift, ifftshift.
  rewrite !(shift_loop_roll_all A _ d s t H).
  split; now apply has_shape_roll_all.
Qed.

(** On a tensor whose axes all have even length the two shifts are the
    same function. *)
Theorem shift_even_axes (d : nat) (s : list nat) (t : tensor A d) :
  has_shape d s t -> all_even s -> fftshift d t = ifftshift d t.
Proof.
  intros H Hs. unfold fftshift, ifftshift.
  rewrite !(shift_loop_roll_all A _ d s t H).
  apply roll_all_ext. intros i. apply even_split.
  now apply even_nth_ztrunc.
Qed.

(** A shift commutes with an element-wise product, so shifting one factor,
    multiplying and shifting back is the product with the back-shifted
    second factor. *)
Lemma shift_product (f : A -> A -> A) (n0 n1 : nat) (a h : tensor A 2) :
  has_shape 2 [n0; n1] a -> has_shape 2 [n0; n1] h ->
  ifftshift 2 (zip2 f (fftshift 2 a) h) = zip2 f a (ifftshift 2 h).
Proof.
  intros Ha Hh. unfold fftshift, ifftshift.
  assert (Ha' : has_shape 2 [n0; n1] (shift_loop A fft_split 2 a)).
  { rewrite (shift_loop_roll_all A _ 2 _ a Ha). now apply has_shape_roll_all. }
  rewrite (shift_loop_roll_all A _ 2 [n0; n1] _
             (has_shape_zip2 f n0 n1 _ _ Ha' Hh)).
  rewrite (roll_all_zip2 f _ _ n0 n1 _ _ _ Ha' Hh).
  rewrite (shift_loop_roll_all A _ 2 _ h Hh). f_equal.
  rewrite (shift_loop_roll_all A _ 2 _ a Ha).
  destruct (has_shape_ztrunc A 2 _ a Ha) as [Hz _].
  apply roll_all_inverse; [|exact Hz].
  intros n. destruct (split_sum n) as (? & ? & ?). lia.
Qed.

(** Index form of the shifts on a vector of length [n]: entry [i] of
    [fftshift t] is entry [(i + ceil(n/2)) mod n] of [t], entry [i] of
    [ifftshift t] is entry [(i + floor(n/2)) mod n] of [t]; in particular
    [fftshift] moves entry [0] to position [floor(n/2)]. *)
Theorem shift_index (t : tensor A 1) (i : nat) (d : A) :
  (i < length t)%nat ->
  nth i (fftshift 1 t) d = nth ((i + (length t + 1) / 2) mod length t) t d /\
  nth i (ifftshift 1 t) d = nth ((i + length t / 2) mod length t) t d /\
  nth (length t / 2) (fftshift 1 t) d = nth 0 t d.
Proof.
  intros Hi. unfold fftshift, ifftshift. rewrite !shift_rank1.
  destruct (split_sum (length t)) as (H1 & H2 & H3).
  assert (E : ifft_split (length t) = (length t / 2)%nat).
  { unfold ifft_split, fft_split in *.
    destruct (Nat.even (length t)) eqn:Ev.
    - apply Nat.even_spec in Ev. destruct Ev as [k Ek]. rewrite Ek.
      replace ((2 * k + 1) / 2)%nat with k
        by (apply (Nat.div_unique (2 * k + 1) 2 k 1); lia).
      replace (2 * k / 2)%nat with k
        by (apply (Nat.div_unique (2 * k) 2 k 0); lia).
      lia.
    - assert (Od : Nat.odd (length t) = true)
        by (rewrite <- Nat.negb_even, Ev; reflexivity).
      apply Nat.odd_spec in Od. destruct Od as [k Ek]. rewrite Ek.
      replace ((2 * k + 1 + 1) / 2)%nat with (k + 1)%nat
        by (apply (Nat.div_unique (2 * k + 1 + 1) 2 (k + 1) 0); lia).
      replace ((2 * k + 1) / 2)%nat with k
        by (apply (Nat.div_unique (2 * k + 1) 2 k 1); lia).
      lia. }
  assert (Hh : (length t / 2 < length t)%nat).
  { apply Nat.Div0.div_lt_upper_bound; lia. }
  repeat split.
  - now apply nth_rot.
  - rewrite <- E. now apply nth_rot.
  - rewrite nth_rot by assumption. f_equal.
    rewrite <- E, Nat.add_comm. fold (fft_split (length t)).
    rewrite H3. apply Nat.Div0.mod_same.
Qed.

End Tensors.

Lemma shift_preserves_shape_witness :
  has_shape 2 [2; 3]%nat [[1; 2; 3]; [4; 5; 6]]%nat /\
  has_shape 2 [2; 3]%nat (fftshift 2 [[1; 2; 3]; [4; 5; 6]]%nat) /\
  has_shape 2 [2; 3]%nat (ifftshift 2 [[1; 2; 3]; [4; 5; 6]]%nat).
Proof.
  assert (H : has_shape (A:=nat) 2 [2; 3]%nat [[1; 2; 3]; [4; 5; 6]]%nat).
  { simpl. repeat split; repeat constructor. }
  split; [exact H|].
  exact (shift_preserves_shape nat 2 [2; 3]%nat _ H).
Defined.

Lemma shift_even_axes_witness :
  has_shape 2 [2; 4]%nat [[1; 2; 3; 4]; [5; 6; 7; 8]]%nat /\
  all_even [2; 4]%nat /\
  fftshift 2 [[1; 2; 3; 4]; [5; 6; 7; 8]]%nat
  = ifftshift 2 [[1; 2; 3; 4]; [5; 6; 7; 8]]%nat.
Proof.
  assert (H : has_shape (A:=nat) 2 [2; 4]%nat
                [[1; 2; 3; 4]; [5; 6; 7; 8]]%nat).
  { simpl. repeat split; repeat constructor. }
  assert (E : all_even [2; 4]%nat) by (repeat constructor).
  split; [exact H|]. split; [exact E|].
  exact (shift_even_axes nat 2 [2; 4]%nat _ H E).
Defined.

Lemma shift_index_witness :
  (1 < length [10; 20; 30]%nat)%nat /\
  nth 1 (fftshift 1 [10; 20; 30]%nat) 0%nat
  = nth ((1 + (length [10; 20; 30]%nat + 1) / 2) mod length [10; 20; 30]%nat)
      [10; 20; 30]%nat 0%nat /\
  nth 1 (ifftshift 1 [10; 20; 30]%nat) 0%nat
  = nth ((1 + length [10; 20; 30]%nat / 2) mod length [10; 20; 30]%nat)
      [10; 20; 30]%nat 0%nat /\
  nth (length [10; 20; 30]%nat / 2) (fftshift 1 [10; 20; 30]%nat) 0%nat
  = nth 0 [10; 20; 30]%nat 0%nat.
Proof.
  assert (H : (1 < length [10; 20; 30]%nat)%nat) by (simpl; lia).
  split; [exact H|].
  exact (shift_index nat [10; 20; 30]%nat 1%nat 0%nat H).
Defined.

End ShiftProps.

(* ================================================================= *)
(** * Batches: [create_batches] and the minibatch schedule *)
(* ================================================================= *)

Module Schedule.

Local Open Scope list_scope.

(** ** [util.create_batches] *)

(** The [while i < arr_len] loop; [fuel] bounds the number of iterations
    and [None] stands for a loop that has not ended within it. *)
Fixpoint create_batches_loop {X : Type} (fuel : nat) (arr : list X)
  (batch_size i : Z) (batches : list (list X)) : option (list (list X)) :=
  match fuel with
  | O => None
  | S fuel' =>
      let arr_len := Z.of_nat (length arr) in
      if (i <? arr_len)%Z then
        create_batches_loop fuel' arr batch_size (i + batch_size)%Z
          (batches
           ++ [Objective.py_slice arr i (Z.min (i + batch_size) arr_len)])
      else Some batches
  end.

Definition create_batches {X : Type} (fuel : nat) (arr : list X)
  (batch_size : Z) : option (list (list X)) :=
  create_batches_loop fuel arr batch_size 0 [].

(** ** The minibatches of an epoch ([reconstruct_ptychography]) *)

(** The exceptions of the optimization loop. *)
Inductive exn : Type :=
| ZeroDivisionError
| ValueError_sample_larger_than_population
| ValueError_number_sections
| UnboundLocalError_feed_dict
| AttributeError_minimize
| NameError_update_obj
| TypeError_fetch_optimizer.

(** [float(n_pos) / minibatch_size / hvd.size()], the floats read as
    rationals. *)
Definition ratio (n_pos minibatch_size size : nat) : Q :=
  (inject_Z (Z.of_nat n_pos) / inject_Z (Z.of_nat minibatch_size)
   / inject_Z (Z.of_nat size))%Q.

(** [n_batch = int(np.ceil(float(n_pos) / minibatch_size / hvd.size()))] *)
Definition n_batch (n_pos minibatch_size size : nat) : exn + nat :=
  if ((minibatch_size =? 0) || (size =? 0))%nat then inl ZeroDivisionError
  else inr (Z.to_nat (Qceiling (ratio n_pos minibatch_size size))).

(** [np.random.choice(range(n), k, replace=False)]: the first [k] entries
    of the permutation [draw] of [range(n)] that the generator produces;
    a sample larger than the population is refused. *)
Definition choice (draw : list nat) (n k : nat) : exn + list nat :=
  if (n <? k)%nat then inl ValueError_sample_larger_than_population
  else inr (firstn k draw).

(** [draw] is an outcome of the generator for [range(n)]. *)
Definition is_draw (n : nat) (draw : list nat) : Prop :=
  length draw = n /\ forall i, In i draw <-> (i < n)%nat.

(** [np.array_split(ary, sections)] *)
Definition array_split {X : Type} (ary : list X) (sections : nat)
  : exn + list (list X) :=
  if (sections =? 0)%nat then inl ValueError_number_sections
  else
    let each := (length ary / sections)%nat in
    let extras := (length ary mod sections)%nat in
    inr (Objective.chunks (each + 1) extras ary
         ++ Objective.chunks each (sections - extras)
              (skipn ((each + 1) * extras) ary)).

(** The index lists of the minibatches of one epoch: a random order of
    the probe positions, filled up with further positions when they do not
    split evenly, and cut into [n_batch] parts. *)
Definition index_batches (draw draw_add : list nat)
  (n_pos minibatch_size size n_batch : nat) : exn + list (list nat) :=
  match choice draw n_pos n_pos with
  | inl e => inl e
  | inr ind_list_rand =>
      if Driver.Qltb (ratio n_pos minibatch_size size)
                     (inject_Z (Z.of_nat n_batch))
      then
        match choice draw_add n_pos
                (n_batch * minibatch_size * size - n_pos) with
        | inl e => inl e
        | inr ind_add => array_split (ind_list_rand ++ ind_add) n_batch
        end
      else array_split ind_list_rand n_batch
  end.

(** ** The optimizer and the operations of a minibatch *)

(** What the name [optimizer] is bound to: the optimizer object, or the
    operation its method [minimize] returns. *)
Inductive optimizer_value : Type :=
| Optimizer_object
| Train_operation.

(** The names bound when the optimizer has been created. *)
Record optimizer_names : Type := {
  optimizer : optimizer_value;
  update_obj_bound : bool
}.

(** The creation of the optimizer: [update_obj] is defined when
    [n_batch_per_update > 1], otherwise [optimizer] is rebound to
    [optimizer.minimize(...)]; when [minibatch_size >= n_theta],
    [optimizer.minimize(...)] is called (once more) on whatever
    [optimizer] is by then, and an operation has no such method. *)
Definition create_optimizer (n_batch_per_update : Z)
  (minibatch_size n_theta : nat) : exn + optimizer_names :=
  let names :=
    if (1 <? n_batch_per_update)%Z
    then {| optimizer := Optimizer_object; update_obj_bound := true |}
    else {| optimizer := Train_operation; update_obj_bound := false |} in
  if (n_theta <=? minibatch_size)%nat then
    match optimizer names with
    | Optimizer_object =>
        inr {| optimizer := Train_operation;
               update_obj_bound := update_obj_bound names |}
    | Train_operation => inl AttributeError_minimize
    end
  else inr names.

(** What a minibatch asks of these names: [update_obj] when
    [n_batch_per_update > 1], otherwise [sess.run([optimizer, ...])],
    which accepts an operation only. *)
Definition minibatch_operations (n_batch_per_update : Z)
  (names : optimizer_names) : exn + unit :=
  if (1 <? n_batch_per_update)%Z then
    if update_obj_bound names then inr tt else inl NameError_update_obj
  else
    match optimizer names with
    | Train_operation => inr tt
    | Optimizer_object => inl TypeError_fetch_optimizer
    end.

(** ** The updates of one epoch *)

Section Optimizer.

(** [V] holds the variables of the optimizer (the object and the slots of
    Adam), [G] is a gradient.  [gradient i_theta batch v] is the gradient
    of the loss for the angle [i_theta] and the positions [batch] at the
    variables [v]; [apply_gradients] is one step of the optimizer. *)
Variables V G : Type.
Variable zeros : G.
Variable add : G -> G -> G.
Variable divide : G -> Z -> G.
Variable gradient : nat -> list nat -> V -> G.
Variable apply_gradients : V -> G -> V.

Record state : Type := {
  variables : V;
  accum_grad : G
}.

(** The body of [for i_batch in range(n_batch)] when
    [n_batch_per_update > 1]: [accum_op], and [update_obj] followed by
    [initialize_grad] when the window is full or the batch is the last. *)
Definition accumulate_step (n_batch_per_update : Z) (n_batch i_theta : nat)
  (ind_list_rand : list (list nat)) (sc : state * Z) (i_batch : nat)
  : state * Z :=
  let '(s, batch_counter) := sc in
  let accum :=
    add (accum_grad s)
        (gradient i_theta (nth i_batch ind_list_rand []) (variables s)) in
  let batch_counter := (batch_counter + 1)%Z in
  if ((batch_counter =? n_batch_per_update)%Z
      || (i_batch =? n_batch - 1)%nat)%bool
  then
    ({| variables :=
          apply_gradients (variables s) (divide accum n_batch_per_update);
        accum_grad := zeros |}, 0%Z)
  else ({| variables := variables s; accum_grad := accum |}, batch_counter).

(** The body when [n_batch_per_update <= 1]: [sess.run(optimizer)]. *)
Definition minimize_step (i_theta : nat) (ind_list_rand : list (list nat))
  (s : state) (i_batch : nat) : state :=
  {| variables :=
       apply_gradients (variables s)
         (gradient i_theta (nth i_batch ind_list_rand []) (variables s));
     accum_grad := accum_grad s |}.

Definition minibatch_loop (n_batch_per_update : Z) (n_batch i_theta : nat)
  (ind_list_rand : list (list nat)) (s : state) : state :=
  if (1 <? n_batch_per_update)%Z then
    fst (fold_left
           (accumulate_step n_batch_per_update n_batch i_theta ind_list_rand)
           (seq 0 n_batch) (s, 0%Z))
  else
    fold_left (minimize_step i_theta ind_list_rand) (seq 0 n_batch) s.

(** One angle.  The branch for [minibatch_size >= n_pos] passes the local
    variable [feed_dict], which only the other branch assigns; the test
    has the same outcome at every angle, epoch and level. *)
Definition theta_pass (n_pos minibatch_size : nat) (n_batch_per_update : Z)
  (n_batch : nat) (ind_list_rand : list (list nat)) (s : state)
  (i_theta : nat) : exn + state :=
  if (minibatch_size <? n_pos)%nat then
    inr (minibatch_loop n_batch_per_update n_batch i_theta ind_list_rand s)
  else inl UnboundLocalError_feed_dict.

Fixpoint theta_loop (n_pos minibatch_size : nat) (n_batch_per_update : Z)
  (n_batch : nat) (ind_list_rand : list (list nat)) (thetas : list nat)
  (s : state) : exn + state :=
  match thetas with
  | [] => inr s
  | i_theta :: thetas' =>
      match theta_pass n_pos minibatch_size n_batch_per_update n_batch
                       ind_list_rand s i_theta with
      | inl e => inl e
      | inr s' =>
          theta_loop n_pos minibatch_size n_batch_per_update n_batch
                     ind_list_rand thetas' s'
      end
  end.

(** The updates of one epoch: the index lists, then every angle. *)
Definition epoch_pass (draw draw_add : list nat)
  (n_pos n_theta minibatch_size size : nat) (n_batch_per_update : Z)
  (n_batch : nat) (s : state) : exn + state :=
  match index_batches draw draw_add n_pos minibatch_size size n_batch with
  | inl e => inl e
  | inr ind_list_rand =>
      theta_loop n_pos minibatch_size n_batch_per_update n_batch
                 ind_list_rand (seq 0 n_theta) s
  end.

(** The update a window of minibatches amounts to: the gradients are all
    taken at the variables the window starts with, summed, and divided by
    [n_batch_per_update]. *)
Definition update_window (n_batch_per_update : Z) (i_theta : nat)
  (ind_list_rand : list (list nat)) (v : V) (window : list nat) : V :=
  apply_gradients v
    (divide
       (fold_left
          (fun a i_batch =>
             add a (gradient i_theta (nth i_batch ind_list_rand []) v))
          window zeros)
       n_batch_per_update).

End Optimizer.

Lemma py_slice_inner {X : Type} (l : list X) (a b : Z) :
  (0 <= a <= b)%Z -> (b <= Z.of_nat (length l))%Z ->
  Objective.py_slice l a b
  = firstn (Z.to_nat (b - a)) (skipn (Z.to_nat a) l).
Proof.
  intros Ha Hb. unfold Objective.py_slice, Objective.slice_bound.
  destruct (Z.ltb_spec a 0); [lia|].
  destruct (Z.ltb_spec b 0); [lia|].
  rewrite !Z.min_r, !Z.max_r by lia. reflexivity.
Qed.

Lemma create_batches_loop_spec {X : Type} (arr : list X) (batch_size : Z) :
  (1 <= batch_size)%Z ->
  forall (fuel : nat) (i : Z) (batches : list (list X)),
    (0 <= i)%Z ->
    (Z.max 0 (Z.of_nat (length arr) - i) < Z.of_nat fuel)%Z ->
    exists rest,
      create_batches_loop fuel arr batch_size i batches
      = Some (batches ++ rest) /\
      concat rest = skipn (Z.to_nat i) arr /\
      Forall (fun b => (1 <= Z.of_nat (length b) <= batch_size)%Z) rest /\
      (Z.of_nat (length rest)
       = (Z.max 0 (Z.of_nat (length arr) - i) + batch_size - 1) / batch_size)%Z
      /\
      (forall k, (S k < length rest)%nat ->
                 Z.of_nat (length (nth k rest [])) = batch_size).
Proof.
  intros Hb. induction fuel as [|fuel IH]; intros i batches Hi Hfuel; [lia|].
  cbn [create_batches_loop].
  destruct (Z.ltb_spec i (Z.of_nat (length arr))) as [Hlt|Hge].
  - destruct (IH (i + batch_size)%Z
                (batches
                 ++ [Objective.py_slice arr i
                       (Z.min (i + batch_size) (Z.of_nat (length arr)))]))
      as (rest & Hrun & Hcat & Hall & Hlen & Hfull); [lia | lia |].
    set (stop := Z.min (i + batch_size) (Z.of_nat (length arr))) in *.
    assert (Hslice : Objective.py_slice arr i stop
                     = firstn (Z.to_nat (stop - i)) (skipn (Z.to_nat i) arr)).
    { apply py_slice_inner; subst stop; lia. }
    assert (Hsl : Z.of_nat (length (Objective.py_slice arr i stop))
                  = (stop - i)%Z).
    { rewrite Hslice, length_firstn, length_skipn. subst stop. lia. }
    exists (Objective.py_slice arr i stop :: rest).
    split; [rewrite Hrun, <- app_assoc; reflexivity|].
    split.
    { cbn [concat]. rewrite Hcat, Hslice.
      destruct (Z.le_gt_cases (i + batch_size) (Z.of_nat (length arr)))
        as [Hin|Hout].
      - replace (stop - i)%Z with batch_size by (subst stop; lia).
        replace (Z.to_nat (i + batch_size))
          with (Z.to_nat batch_size + Z.to_nat i)%nat by lia.
        rewrite <- skipn_skipn. apply firstn_skipn.
      - rewrite (skipn_all2 arr (n:=Z.to_nat (i + batch_size))) by lia.
        rewrite app_nil_r. apply firstn_all2.
        rewrite length_skipn. subst stop. lia. }
    split.
    { constructor; [|exact Hall]. rewrite Hsl. subst stop. lia. }
    split.
    { cbn [length]. rewrite Nat2Z.inj_succ, Hlen.
      destruct (Z.le_gt_cases (i + batch_size) (Z.of_nat (length arr)))
        as [Hin|Hout].
      - rewrite !Z.max_r by lia.
        replace (Z.of_nat (length arr) - i + batch_size - 1)%Z
          with (Z.of_nat (length arr) - (i + batch_size) + batch_size - 1
                + 1 * batch_size)%Z by lia.
        rewrite Z.div_add by lia. lia.
      - rewrite Z.max_l, Z.max_r by lia.
        rewrite (Z.div_small (0 + batch_size - 1) batch_size) by lia.
        change (Z.succ 0) with 1%Z.
        apply (Z.div_unique _ batch_size 1
                 (Z.of_nat (length arr) - i - 1)); lia. }
    intros k Hk. destruct k as [|k].
    + cbn [nth]. rewrite Hsl.
      cbn [length] in Hk.
      assert (Hpos : (0 < Z.of_nat (length rest))%Z) by lia.
      rewrite Hlen in Hpos.
      destruct (Z.le_gt_cases (i + batch_size) (Z.of_nat (length arr)))
        as [Hin|Hout]; [subst stop; lia|].
      rewrite Z.max_l, (Z.div_small (0 + batch_size - 1) batch_size)
        in Hpos by lia. lia.
    + cbn [nth]. apply Hfull. cbn [length] in Hk. lia.
  - exists []. rewrite app_nil_r. split; [reflexivity|].
    split; [cbn [concat]; symmetry; apply skipn_all2; lia|].
    split; [constructor|]. split.
    + cbn [length]. rewrite Z.max_l by lia.
      symmetry. apply Z.div_small. lia.
    + intros k Hk. cbn [length] in Hk. lia.
Qed.

Lemma create_batches_loop_stuck {X : Type} (arr : list X) (batch_size : Z) :
  (batch_size <= 0)%Z -> arr <> [] ->
  forall (fuel : nat) (i : Z) (batches : list (list X)),
    (i <= 0)%Z -> create_batches_loop fuel arr batch_size i batches = None.
Proof.
  intros Hb Harr. induction fuel as [|fuel IH]; intros i batches Hi;
    [reflexivity|].
  cbn [create_batches_loop].
  destruct (Z.ltb_spec i (Z.of_nat (length arr))) as [Hlt|Hge].
  - apply IH. lia.
  - destruct arr; [congruence | cbn [length] in Hge; lia].
Qed.

(** With a batch size of at least one, [create_batches] ends after at
    most [len(arr)] iterations and cuts the array into consecutive,
    non-empty batches: their concatenation is the array, there are
    [ceil(len(arr) / batch_size)] of them, none is longer than
    [batch_size], and all but the last have exactly [batch_size]
    elements. *)
Theorem create_batches_partition {X : Type} (arr : list X) (batch_size : Z)
  (fuel : nat) :
  (1 <= batch_size)%Z -> (length arr < fuel)%nat ->
  exists batches,
    create_batches fuel arr batch_size = Some batches /\
    concat batches = arr /\
    Forall (fun b => (1 <= Z.of_nat (length b) <= batch_size)%Z) batches /\
    (Z.of_nat (length batches)
     = (Z.of_nat (length arr) + batch_size - 1) / batch_size)%Z /\
    (forall k, (S k < length batches)%nat ->
               Z.of_nat (length (nth k batches [])) = batch_size).
Proof.
  intros Hb Hfuel.
  destruct (create_batches_loop_spec arr batch_size Hb fuel 0 [])
    as (rest & Hrun & Hcat & Hall & Hlen & Hfull); [lia | lia |].
  exists rest. unfold create_batches. rewrite Hrun. cbn [app].
  split; [reflexivity|]. split; [exact Hcat|]. split; [exact Hall|].
  split; [|exact Hfull].
  rewrite Hlen, Z.max_r by lia. f_equal. lia.
Qed.

(** With a batch size of zero or less and a non-empty array the loop of
    [create_batches] never ends: no number of iterations gives a
    result. *)
Theorem create_batches_diverges {X : Type} (arr : list X) (batch_size : Z)
  (fuel : nat) :
  (batch_size <= 0)%Z -> arr <> [] ->
  create_batches fuel arr batch_size = None.
Proof.
  intros Hb Harr. unfold create_batches.
  apply create_batches_loop_stuck; [assumption | assumption | lia].
Qed.

Lemma create_batches_partition_witness :
  (1 <= 2)%Z /\ (length [10; 20; 30; 40; 50] < 6)%nat /\
  exists batches,
    create_batches 6 [10; 20; 30; 40; 50] 2 = Some batches /\
    concat batches = [10; 20; 30; 40; 50] /\
    Forall (fun b => (1 <= Z.of_nat (length b) <= 2)%Z) batches /\
    (Z.of_nat (length batches)
     = (Z.of_nat (length [10; 20; 30; 40; 50]) + 2 - 1) / 2)%Z /\
    (forall k, (S k < length batches)%nat ->
               Z.of_nat (length (nth k batches [])) = 2%Z).
Proof.
  split; [lia|]. split; [simpl; lia|].
  apply (create_batches_partition [10; 20; 30; 40; 50] 2 6); simpl; lia.
Defined.

Lemma create_batches_diverges_witness :
  (0 <= 0)%Z /\ [10; 20] <> [] /\ create_batches 1000 [10; 20] 0 = None.
Proof.
  split; [lia|]. split; [discriminate|].
  apply (create_batches_diverges [10; 20] 0 1000); [lia | discriminate].
Defined.

(** ** The index lists *)

Lemma chunks_exact {X : Type} (m nb : nat) (l : list X) :
  length l = (nb * m)%nat ->
  length (Objective.chunks m nb l) = nb /\
  Forall (fun b => length b = m) (Objective.chunks m nb l) /\
  concat (Objective.chunks m nb l) = l.
Proof.
  revert l. induction nb as [|nb IH]; intros l Hl; cbn [Objective.chunks].
  - destruct l; [|discriminate]. repeat split. constructor.
  - destruct (IH (skipn m l)) as (H1 & H2 & H3).
    { rewrite length_skipn. lia. }
    cbn [length concat]. rewrite H1, H3. split; [reflexivity|]. split.
    + constructor; [|exact H2]. rewrite length_firstn. lia.
    + apply firstn_skipn.
Qed.

Lemma array_split_even {X : Type} (m nb : nat) (l : list X) :
  nb <> 0%nat -> length l = (nb * m)%nat ->
  array_split l nb = inr (Objective.chunks m nb l).
Proof.
  intros Hnb Hl. unfold array_split.
  destruct (Nat.eqb_spec nb 0) as [E|_]; [contradiction|].
  rewrite Hl, (Nat.mul_comm nb m), Nat.div_mul, Nat.Div0.mod_mul by exact Hnb.
  cbn [Objective.chunks app]. rewrite Nat.mul_0_r, Nat.sub_0_r.
  reflexivity.
Qed.

Lemma inject_nat_pos (n : nat) : (1 <= n)%nat -> (0 < inject_Z (Z.of_nat n))%Q.
Proof.
  intros H. change 0%Q with (inject_Z 0). rewrite <- Zlt_Qlt. lia.
Qed.

Lemma ratio_mult (n_pos minibatch_size size : nat) :
  (1 <= minibatch_size)%nat -> (1 <= size)%nat ->
  (ratio n_pos minibatch_size size
   * inject_Z (Z.of_nat (minibatch_size * size))
   == inject_Z (Z.of_nat n_pos))%Q.
Proof.
  intros Hm Hs. unfold ratio. rewrite Nat2Z.inj_mul, inject_Z_mult.
  pose proof (inject_nat_pos _ Hm) as Pm.
  pose proof (inject_nat_pos _ Hs) as Ps.
  field. split; intros E; rewrite E in *;
    [apply (Qlt_irrefl 0 Pm) | apply (Qlt_irrefl 0 Ps)].
Qed.

Lemma ratio_lt (n_pos minibatch_size size : nat) (c : Z) :
  (1 <= minibatch_size)%nat -> (1 <= size)%nat ->
  (ratio n_pos minibatch_size size < inject_Z c)%Q <->
  (Z.of_nat n_pos < c * Z.of_nat (minibatch_size * size))%Z.
Proof.
  intros Hm Hs.
  assert (P : (0 < inject_Z (Z.of_nat (minibatch_size * size)))%Q).
  { apply inject_nat_pos. nia. }
  rewrite <- (Qmult_lt_r _ _ _ P), ratio_mult by assumption.
  rewrite <- inject_Z_mult, <- Zlt_Qlt. reflexivity.
Qed.

Lemma ratio_le (n_pos minibatch_size size : nat) (c : Z) :
  (1 <= minibatch_size)%nat -> (1 <= size)%nat ->
  (ratio n_pos minibatch_size size <= inject_Z c)%Q <->
  (Z.of_nat n_pos <= c * Z.of_nat (minibatch_size * size))%Z.
Proof.
  intros Hm Hs.
  assert (P : (0 < inject_Z (Z.of_nat (minibatch_size * size)))%Q).
  { apply inject_nat_pos. nia. }
  rewrite <- (Qmult_le_r _ _ _ P), ratio_mult by assumption.
  rewrite <- inject_Z_mult, <- Zle_Qle. reflexivity.
Qed.

Lemma ratio_gt (n_pos minibatch_size size : nat) (c : Z) :
  (1 <= minibatch_size)%nat -> (1 <= size)%nat ->
  (inject_Z c < ratio n_pos minibatch_size size)%Q <->
  (c * Z.of_nat (minibatch_size * size) < Z.of_nat n_pos)%Z.
Proof.
  intros Hm Hs.
  assert (P : (0 < inject_Z (Z.of_nat (minibatch_size * size)))%Q).
  { apply inject_nat_pos. nia. }
  rewrite <- (Qmult_lt_r _ _ _ P), ratio_mult by assumption.
  rewrite <- inject_Z_mult, <- Zlt_Qlt. reflexivity.
Qed.

(** [n_batch] is the integer ceiling of [n_pos / (minibatch_size * size)]. *)
Lemma n_batch_ceiling (n_pos minibatch_size size : nat) :
  (1 <= minibatch_size)%nat -> (1 <= size)%nat ->
  exists nb,
    n_batch n_pos minibatch_size size = inr nb /\
    (n_pos <= nb * (minibatch_size * size))%nat /\
    (nb * (minibatch_size * size) < n_pos + minibatch_size * size)%nat.
Proof.
  intros Hm Hs. unfold n_batch.
  destruct (Nat.eqb_spec minibatch_size 0); [lia|].
  destruct (Nat.eqb_spec size 0); [lia|]. cbn [orb].
  set (x := ratio n_pos minibatch_size size).
  pose proof (Qle_ceiling x) as Hle.
  pose proof (Qceiling_lt x) as Hlt.
  apply (ratio_le n_pos minibatch_size size _ Hm Hs) in Hle.
  apply (ratio_gt n_pos minibatch_size size _ Hm Hs) in Hlt.
  fold x in Hle, Hlt.
  exists (Z.to_nat (Qceiling x)). split; [reflexivity|].
  assert (H0 : (0 <= Qceiling x)%Z) by nia.
  split; nia.
Qed.

Lemma Qltb_ratio (n_pos minibatch_size size nb : nat) :
  (1 <= minibatch_size)%nat -> (1 <= size)%nat ->
  Driver.Qltb (ratio n_pos minibatch_size size) (inject_Z (Z.of_nat nb))
  = (n_pos <? nb * (minibatch_size * size))%nat.
Proof.
  intros Hm Hs.
  destruct (Nat.ltb_spec n_pos (nb * (minibatch_size * size))) as [L|L].
  - apply Driver.Qltb_lt. apply ratio_lt; [assumption | assumption | nia].
  - destruct (Driver.Qltb _ _) eqn:E; [|reflexivity].
    apply Driver.Qltb_lt in E. apply ratio_lt in E; [nia | assumption..].
Qed.

(** When the padded index list is no longer than twice the number of
    positions, the index lists of an epoch are [n_batch] lists of exactly
    [minibatch_size * size] valid positions each, and every position
    occurs in one of them. *)
Theorem index_batches_cover (draw draw_add : list nat)
  (n_pos minibatch_size size nb : nat) :
  (1 <= n_pos)%nat ->
  n_batch n_pos minibatch_size size = inr nb ->
  is_draw n_pos draw -> is_draw n_pos draw_add ->
  (nb * minibatch_size * size <= 2 * n_pos)%nat ->
  exists batches,
    index_batches draw draw_add n_pos minibatch_size size nb = inr batches /\
    length batches = nb /\
    Forall (fun b => length b = (minibatch_size * size)%nat) batches /\
    Forall (Forall (fun i => (i < n_pos)%nat)) batches /\
    (forall i, (i < n_pos)%nat -> In i (concat batches)).
Proof.
  intros Hn Hnb (Ld & Hd) (La & Ha) Hsmall.
  assert (Hm : (1 <= minibatch_size)%nat /\ (1 <= size)%nat).
  { unfold n_batch in Hnb.
    destruct (Nat.eqb_spec minibatch_size 0); [discriminate|].
    destruct (Nat.eqb_spec size 0); [discriminate|]. lia. }
  destruct Hm as [Hm Hs].
  destruct (n_batch_ceiling n_pos minibatch_size size Hm Hs)
    as (nb' & E & Hle & Hlt).
  rewrite E in Hnb. injection Hnb as ->.
  assert (Hnb0 : nb <> 0%nat) by nia.
  unfold index_batches, choice.
  rewrite Nat.ltb_irrefl, Qltb_ratio by assumption.
  rewrite (@firstn_all2 _ n_pos draw) by lia.
  set (m := (minibatch_size * size)%nat) in *.
  assert (Hspec : forall l : list nat,
             length l = (nb * m)%nat ->
             (forall i, In i l -> (i < n_pos)%nat) ->
             (forall i, (i < n_pos)%nat -> In i l) ->
             exists batches,
               array_split l nb = inr batches /\
               length batches = nb /\
               Forall (fun b => length b = m) batches /\
               Forall (Forall (fun i => (i < n_pos)%nat)) batches /\
               (forall i, (i < n_pos)%nat -> In i (concat batches))).
  { intros l Hl Hin Hall.
    destruct (chunks_exact m nb l Hl) as (H1 & H2 & H3).
    exists (Objective.chunks m nb l).
    rewrite (array_split_even m nb l Hnb0 Hl), H3.
    repeat split; try assumption.
    apply Forall_forall. intros b Hb. apply Forall_forall. intros i Hi.
    apply Hin. rewrite <- H3. apply in_concat. exists b. split; assumption. }
  destruct (Nat.ltb_spec n_pos (nb * m)) as [L|L].
  - destruct (Nat.ltb_spec n_pos (nb * minibatch_size * size - n_pos))
      as [K|K]; [lia|].
    apply Hspec.
    + rewrite length_app, length_firstn. subst m. nia.
    + intros i Hi. apply in_app_or in Hi. destruct Hi as [Hi|Hi].
      * now apply Hd.
      * apply Ha. rewrite <- (firstn_skipn (nb * minibatch_size * size - n_pos)
                                draw_add).
        apply in_or_app. now left.
    + intros i Hi. apply in_or_app. left. now apply Hd.
  - apply Hspec.
    + lia.
    + intros i Hi. now apply Hd.
    + intros i Hi. now apply Hd.
Qed.

(** When the minibatches of all workers together need more than twice the
    number of positions, filling up the index list fails: the sample
    asked of [np.random.choice] is larger than its population. *)
Theorem index_batches_error (draw draw_add : list nat)
  (n_pos minibatch_size size nb : nat) :
  n_batch n_pos minibatch_size size = inr nb ->
  (2 * n_pos < nb * minibatch_size * size)%nat ->
  index_batches draw draw_add n_pos minibatch_size size nb
  = inl ValueError_sample_larger_than_population.
Proof.
  intros Hnb Hlarge.
  assert (Hm : (1 <= minibatch_size)%nat /\ (1 <= size)%nat).
  { unfold n_batch in Hnb.
    destruct (Nat.eqb_spec minibatch_size 0); [discriminate|].
    destruct (Nat.eqb_spec size 0); [discriminate|]. lia. }
  destruct Hm as [Hm Hs].
  unfold index_batches, choice.
  rewrite Nat.ltb_irrefl, Qltb_ratio by assumption.
  destruct (Nat.ltb_spec n_pos (nb * (minibatch_size * size))) as [L|L];
    [|nia].
  destruct (Nat.ltb_spec n_pos (nb * minibatch_size * size - n_pos))
    as [K|K]; [reflexivity | lia].
Qed.

(** ** The updates *)

Section OptimizerProps.

Variables V G : Type.
Variable zeros : G.
Variable add : G -> G -> G.
Variable divide : G -> Z -> G.
Variable gradient : nat -> list nat -> V -> G.
Variable apply_gradients : V -> G -> V.

Local Abbreviation step :=
  (accumulate_step V G zeros add divide gradient apply_gradients).
Local Abbreviation window :=
  (update_window V G zeros add divide gradient apply_gradients).
Local Abbreviation loop :=
  (minibatch_loop V G zeros add divide gradient apply_gradients).
Local Abbreviation epoch :=
  (epoch_pass V G zeros add divide gradient apply_gradients).

Lemma accumulate_from (n_batch_per_update : Z) (nb i_theta : nat)
  (batches : list (list nat)) :
  (1 < n_batch_per_update)%Z ->
  forall (r i : nat) (pre : list nat) (v : V),
    (i + r = nb)%nat ->
    (Z.of_nat (length pre) < n_batch_per_update)%Z ->
    pre = [] \/ r <> 0%nat ->
    exists windows,
      concat windows = pre ++ seq i r /\
      Forall (fun w => (1 <= Z.of_nat (length w) <= n_batch_per_update)%Z)
             windows /\
      (forall k, (S k < length windows)%nat ->
                 Z.of_nat (length (nth k windows [])) = n_batch_per_update) /\
      fold_left (step n_batch_per_update nb i_theta batches) (seq i r)
        ({| variables := v;
            accum_grad :=
              fold_left
                (fun a i_batch =>
                   add a (gradient i_theta (nth i_batch batches []) v))
                pre zeros |},
         Z.of_nat (length pre))
      = ({| variables :=
              fold_left (window n_batch_per_update i_theta batches) windows v;
            accum_grad := zeros |}, 0%Z).
Proof.
  intros Hk. induction r as [|r IH]; intros i pre v Hi Hpre Hor.
  - destruct Hor as [->|]; [|contradiction].
    exists []. repeat split; try constructor.
    intros k Hlt. cbn [length] in Hlt. lia.
  - cbn [seq fold_left]. unfold accumulate_step at 2.
    cbn [variables accum_grad].
    assert (Hacc : add (fold_left
                          (fun a i_batch =>
                             add a (gradient i_theta (nth i_batch batches []) v))
                          pre zeros)
                       (gradient i_theta (nth i batches []) v)
                   = fold_left
                       (fun a i_batch =>
                          add a (gradient i_theta (nth i_batch batches []) v))
                       (pre ++ [i]) zeros).
    { rewrite fold_left_app. reflexivity. }
    rewrite Hacc.
    assert (Hlen : (Z.of_nat (length pre) + 1)%Z
                   = Z.of_nat (length (pre ++ [i]))).
    { rewrite length_app. cbn [length]. lia. }
    rewrite Hlen.
    destruct ((Z.of_nat (length (pre ++ [i])) =? n_batch_per_update)%Z
              || (i =? nb - 1)%nat)%bool eqn:Eflush.
    + destruct (IH (S i) []
                  (window n_batch_per_update i_theta batches v (pre ++ [i])))
        as (ws & Hcat & Hall & Hfull & Hrun); [lia | cbn [length]; lia
                                              | now left |].
      exists ((pre ++ [i]) :: ws).
      split; [cbn [concat]; rewrite Hcat, <- app_assoc; reflexivity|].
      split; [constructor; [lia | exact Hall]|].
      split.
      * intros k Hlt. destruct k as [|k]; cbn [nth].
        -- apply Bool.orb_true_iff in Eflush. destruct Eflush as [E|E].
           ++ now apply Z.eqb_eq in E.
           ++ apply Nat.eqb_eq in E. assert (r = 0%nat) by lia. subst r.
              cbn [seq app] in Hcat. cbn [length] in Hlt.
              destruct ws as [|w ws]; [cbn [length] in Hlt; lia|].
              inversion Hall as [|? ? Hw _]; subst.
              cbn [concat] in Hcat. apply app_eq_nil in Hcat.
              destruct Hcat as [-> _]. cbn [length] in Hw. lia.
        -- apply Hfull. cbn [length] in Hlt. lia.
      * cbn [fold_left]. exact Hrun.
    + apply Bool.orb_false_iff in Eflush. destruct Eflush as [E1 E2].
      apply Z.eqb_neq in E1. apply Nat.eqb_neq in E2.
      destruct (IH (S i) (pre ++ [i]) v) as (ws & Hcat & Hall & Hfull & Hrun);
        [lia | lia | right; lia |].
      exists ws. split; [rewrite Hcat, <- app_assoc; reflexivity|].
      repeat split; assumption.
Qed.


(** Full-batch mode cannot run: with [minibatch_size >= n_pos] the epoch
    raises before any update, [UnboundLocalError] for [feed_dict] at the
    first angle, or already [ValueError] while the index list is filled
    up when [minibatch_size * size] exceeds twice the number of
    positions. *)
Theorem full_batch_raises (draw draw_add : list nat)
  (n_pos n_theta minibatch_size size : nat) (n_batch_per_update : Z)
  (s : state V G) :
  (1 <= n_pos <= minibatch_size)%nat -> (1 <= size)%nat ->
  (1 <= n_theta)%nat ->
  n_batch n_pos minibatch_size size = inr 1%nat /\
  epoch draw draw_add n_pos n_theta minibatch_size size n_batch_per_update
        1%nat s
  = inl (if (2 * n_pos <? minibatch_size * size)%nat
         then ValueError_sample_larger_than_population
         else UnboundLocalError_feed_dict).
Proof.
  intros [Hn Hm] Hs Ht.
  destruct (n_batch_ceiling n_pos minibatch_size size) as (nb & E & Hle & Hlt);
    [lia | lia |].
  assert (nb = 1%nat) by nia. subst nb. split; [exact E|].
  unfold epoch_pass, index_batches, choice.
  rewrite Nat.ltb_irrefl, Qltb_ratio by lia.
  assert (Hsplit : forall l : list nat,
             exists bs, array_split l 1 = inr bs).
  { intros l. unfold array_split. cbn [Nat.eqb]. eexists. reflexivity. }
  assert (Hloop : forall bs,
             theta_loop V G zeros add divide gradient apply_gradients
               n_pos minibatch_size n_batch_per_update 1 bs (seq 0 n_theta) s
             = inl UnboundLocalError_feed_dict).
  { intros bs. destruct n_theta as [|n]; [lia|].
    cbn [seq theta_loop]. unfold theta_pass.
    destruct (Nat.ltb_spec minibatch_size n_pos); [lia | reflexivity]. }
  replace (1 * minibatch_size * size - n_pos)%nat
    with (minibatch_size * size - n_pos)%nat by lia.
  replace (1 * (minibatch_size * size))%nat
    with (minibatch_size * size)%nat by lia.
  destruct (Nat.ltb_spec n_pos (minibatch_size * size)) as [L|L].
  - destruct (Nat.ltb_spec n_pos (minibatch_size * size - n_pos)) as [K|K].
    + destruct (Nat.ltb_spec (2 * n_pos) (minibatch_size * size));
        [reflexivity | lia].
    + destruct (Hsplit (firstn n_pos draw
                        ++ firstn (minibatch_size * size - n_pos) draw_add))
        as (bs & ->).
      rewrite Hloop.
      destruct (Nat.ltb_spec (2 * n_pos) (minibatch_size * size));
        [lia | reflexivity].
  - destruct (Hsplit (firstn n_pos draw)) as (bs & ->). rewrite Hloop.
    destruct (Nat.ltb_spec (2 * n_pos) (minibatch_size * size));
      [lia | reflexivity].
Qed.

End OptimizerProps.

Lemma index_batches_cover_witness :
  (1 <= 5)%nat /\ n_batch 5 2 1 = inr 3%nat /\
  is_draw 5 [3; 0; 4; 1; 2]%nat /\ is_draw 5 [2; 4; 0; 3; 1]%nat /\
  (3 * 2 * 1 <= 2 * 5)%nat /\
  exists batches,
    index_batches [3; 0; 4; 1; 2]%nat [2; 4; 0; 3; 1]%nat 5 2 1 3
    = inr batches /\
    length batches = 3%nat /\
    Forall (fun b => length b = (2 * 1)%nat) batches /\
    Forall (Forall (fun i => (i < 5)%nat)) batches /\
    (forall i, (i < 5)%nat -> In i (concat batches)).
Proof.
  assert (D : forall l, length l = 5%nat ->
                        (forall i, (i < 5)%nat -> In i l) ->
                        Forall (fun i => (i < 5)%nat) l -> is_draw 5 l).
  { intros l Hl Hin Hall. split; [exact Hl|]. intros i. split; [|apply Hin].
    rewrite Forall_forall in Hall. apply Hall. }
  assert (D1 : is_draw 5 [3; 0; 4; 1; 2]%nat).
  { apply D; [reflexivity | | repeat constructor].
    intros i Hi. simpl.
    destruct i as [|[|[|[|[|i]]]]]; try lia; tauto. }
  assert (D2 : is_draw 5 [2; 4; 0; 3; 1]%nat).
  { apply D; [reflexivity | | repeat constructor].
    intros i Hi. simpl.
    destruct i as [|[|[|[|[|i]]]]]; try lia; tauto. }
  assert (N : n_batch 5 2 1 = inr 3%nat) by reflexivity.
  split; [lia|]. split; [exact N|]. split; [exact D1|]. split; [exact D2|].
  split; [simpl; lia|].
  apply (index_batches_cover _ _ 5 2 1 3); [lia | exact N | exact D1
                                           | exact D2 | simpl; lia].
Defined.

Lemma index_batches_error_witness :
  n_batch 3 2 4 = inr 1%nat /\ (2 * 3 < 1 * 2 * 4)%nat /\
  index_batches [0; 1; 2]%nat [2; 1; 0]%nat 3 2 4 1
  = inl ValueError_sample_larger_than_population.
Proof.
  assert (N : n_batch 3 2 4 = inr 1%nat) by reflexivity.
  split; [exact N|]. split; [simpl; lia|].
  apply (index_batches_error _ _ 3 2 4 1); [exact N | simpl; lia].
Defined.


Lemma full_batch_raises_witness :
  (1 <= 4 <= 4)%nat /\ (1 <= 1)%nat /\ (1 <= 2)%nat /\
  n_batch 4 4 1 = inr 1%nat /\
  epoch_pass Z Z 0%Z Z.add Z.div
    (fun _ batch v => (v + Z.of_nat (length batch))%Z) Z.sub
    [2; 0; 3; 1]%nat [0; 1; 2; 3]%nat 4 2 4 1 5 1
    {| variables := 100%Z; accum_grad := 0%Z |}
  = inl (if (2 * 4 <? 4 * 1)%nat
         then ValueError_sample_larger_than_population
         else UnboundLocalError_feed_dict).
Proof.
  split; [lia|]. split; [lia|]. split; [lia|].
  apply (full_batch_raises Z Z 0%Z Z.add Z.div
           (fun _ batch v => (v + Z.of_nat (length batch))%Z) Z.sub
           [2; 0; 3; 1]%nat [0; 1; 2; 3]%nat 4 2 4 1 5
           {| variables := 100%Z; accum_grad := 0%Z |}); lia.
Defined.


End Schedule.

(* ================================================================= *)
(** * Further properties of the propagation *)
(* ================================================================= *)

Module PropagateProps.

Import Propagate.

Local Open Scope R_scope.

(** A complex image whose entries are all one. *)
Definition all_ones (w : cimage) : Prop :=
  Forall (Forall (fun c : C => c = (1, 0))) w.

Definition unit_modulus (w : cimage) : Prop :=
  Forall (Forall (fun c : C => Cabs c = 1)) w.

Lemma length_linspace (a b : R) (n : nat) : length (linspace a b n) = n.
Proof.
  unfold linspace. destruct n as [|[|n]]; try reflexivity.
  now rewrite length_map, length_seq.
Qed.

Lemma map2_const {X Y Z : Type} (f : X -> Y -> Z) (l : list X) (y : Y) :
  Shift.map2 f l (map (fun _ => y) l) = map (fun x => f x y) l.
Proof.
  induction l as [|x l IH]; simpl; [reflexivity|]. now rewrite IH.
Qed.

Lemma zip_meshgrid {Z : Type} (f : R -> R -> Z) (xx yy : list R) :
  zip_image f (fst (meshgrid xx yy)) (snd (meshgrid xx yy))
  = map (fun y => map (fun x => f x y) xx) yy.
Proof.
  unfold zip_image, meshgrid. cbn [fst snd].
  induction yy as [|y yy IH]; simpl; [reflexivity|].
  now rewrite IH, map2_const.
Qed.

Lemma Cabs_mul (a b : C) : Cabs (Cmul a b) = Cabs a * Cabs b.
Proof.
  unfold Cabs, Cmul. cbn [fst snd]. rewrite <- sqrt_mult.
  - f_equal. ring.
  - nra.
  - nra.
Qed.

Lemma Cabs_nonneg (a : C) : 0 <= Cabs a.
Proof. apply sqrt_pos. Qed.

Section Kernel.

Variable PI : R.

(** The kernel entry for the squared frequency [r]. *)
Definition kernel_entry (lmbda_nm dist_nm r : R) : C :=
  Cexp (Cmulr (Cmulr (Cmulr (Cmulr (Cneg Ci) PI) lmbda_nm) dist_nm) r).

Lemma kernel_entry_polar (lmbda_nm dist_nm r : R) :
  kernel_entry lmbda_nm dist_nm r
  = (cos (- (PI * lmbda_nm * dist_nm * r)),
     sin (- (PI * lmbda_nm * dist_nm * r))).
Proof.
  unfold kernel_entry, Cexp, Cmulr, Cmul, Cneg, Ci, RtoC. cbn [fst snd].
  match goal with
  | |- (exp ?a * cos ?b, exp ?a * sin ?b) = _ =>
      replace a with 0 by ring;
      replace b with (- (PI * lmbda_nm * dist_nm * r)) by ring
  end.
  rewrite exp_0. f_equal; ring.
Qed.

Lemma get_kernel_grid (dist_nm lmbda_nm : R) (voxel_nm : list R)
  (grid_shape : list nat) :
  get_kernel PI dist_nm lmbda_nm voxel_nm grid_shape
  = map (fun v =>
           map (fun u => kernel_entry lmbda_nm dist_nm (u * u + v * v))
               (linspace (- (1 / (2 * nth 0 voxel_nm 0)))
                         (1 / (2 * nth 0 voxel_nm 0))
                         (nth 1 grid_shape 0%nat)))
        (linspace (- (1 / (2 * nth 1 voxel_nm 0)))
                  (1 / (2 * nth 1 voxel_nm 0))
                  (nth 0 grid_shape 0%nat)).
Proof.
  unfold get_kernel, gen_mesh. cbn [fst snd].
  rewrite (surjective_pairing (meshgrid _ _)).
  apply (zip_meshgrid
           (fun u v => kernel_entry lmbda_nm dist_nm (u * u + v * v))).
Qed.

Lemma kernel_entry_mul (lmbda_nm d1 d2 r : R) :
  Cmul (kernel_entry lmbda_nm d1 r) (kernel_entry lmbda_nm d2 r)
  = kernel_entry lmbda_nm (d1 + d2) r.
Proof.
  rewrite !kernel_entry_polar. unfold Cmul. cbn [fst snd].
  replace (- (PI * lmbda_nm * (d1 + d2) * r))
    with (- (PI * lmbda_nm * d1 * r) + - (PI * lmbda_nm * d2 * r)) by ring.
  rewrite cos_plus, sin_plus. f_equal; ring.
Qed.

Lemma kernel_shape (dist_nm lmbda_nm : R) (voxel_nm : list R)
  (grid_shape : list nat) :
  Shift.has_shape 2 [nth 0 grid_shape 0%nat; nth 1 grid_shape 0%nat]
    (get_kernel PI dist_nm lmbda_nm voxel_nm grid_shape).
Proof.
  rewrite get_kernel_grid. cbn [Shift.has_shape].
  rewrite length_map, length_linspace. repeat split.
  apply Forall_forall. intros row Hrow. apply in_map_iff in Hrow.
  destruct Hrow as (v & <- & _).
  rewrite length_map, length_linspace. repeat split.
  apply Forall_forall. intros; reflexivity.
Qed.

(** The kernel is a grid of [grid_shape[0]] rows and [grid_shape[1]]
    columns of pure phase factors: every entry has modulus one, for every
    distance and wavelength.  The voxel sizes are not zero, as the
    divisions [1. / (2. * voxel_nm[i])] need. *)
Theorem kernel_unit_modulus (dist_nm lmbda_nm : R) (voxel_nm : list R)
  (grid_shape : list nat) :
  nth 0 voxel_nm 0 <> 0 -> nth 1 voxel_nm 0 <> 0 ->
  Shift.has_shape 2 [nth 0 grid_shape 0%nat; nth 1 grid_shape 0%nat]
    (get_kernel PI dist_nm lmbda_nm voxel_nm grid_shape) /\
  unit_modulus (get_kernel PI dist_nm lmbda_nm voxel_nm grid_shape).
Proof.
  intros _ _. split; [apply kernel_shape|].
  rewrite get_kernel_grid. unfold unit_modulus.
  apply Forall_forall. intros row Hrow. apply in_map_iff in Hrow.
  destruct Hrow as (v & <- & _).
  apply Forall_forall. intros c Hc. apply in_map_iff in Hc.
  destruct Hc as (u & <- & _).
  rewrite kernel_entry_polar. apply Cabs_phase.
Qed.

(** The kernels of two distances multiply, entry by entry, to the kernel
    of the sum of the distances; the kernel of [- dist_nm], the kind
    [create_probe_initial_guess] asks for, undoes the kernel of [dist_nm]
    for the same wavelength.  The voxel sizes are not zero. *)
Theorem kernel_composition (d1 d2 lmbda_nm : R) (voxel_nm : list R)
  (grid_shape : list nat) :
  nth 0 voxel_nm 0 <> 0 -> nth 1 voxel_nm 0 <> 0 ->
  cmul_image (get_kernel PI d1 lmbda_nm voxel_nm grid_shape)
             (get_kernel PI d2 lmbda_nm voxel_nm grid_shape)
  = get_kernel PI (d1 + d2) lmbda_nm voxel_nm grid_shape /\
  all_ones (cmul_image (get_kernel PI d1 lmbda_nm voxel_nm grid_shape)
                       (get_kernel PI (- d1) lmbda_nm voxel_nm grid_shape)).
Proof.
  intros _ _.
  assert (Hmul : forall a b,
             cmul_image (get_kernel PI a lmbda_nm voxel_nm grid_shape)
                        (get_kernel PI b lmbda_nm voxel_nm grid_shape)
             = get_kernel PI (a + b) lmbda_nm voxel_nm grid_shape).
  { intros a b. rewrite !get_kernel_grid. unfold cmul_image, zip_image.
    rewrite Shift.map2_map. apply map_ext. intros v.
    rewrite Shift.map2_map. apply map_ext. intros u.
    apply kernel_entry_mul. }
  split; [apply Hmul|].
  rewrite Hmul, get_kernel_grid. unfold all_ones.
  apply Forall_forall. intros row Hrow. apply in_map_iff in Hrow.
  destruct Hrow as (v & <- & _).
  apply Forall_forall. intros c Hc. apply in_map_iff in Hc.
  destruct Hc as (u & <- & _).
  rewrite kernel_entry_polar.
  replace (- (PI * lmbda_nm * (d1 + - d1) * (u * u + v * v))) with 0 by ring.
  now rewrite cos_0, sin_0.
Qed.

(** Modulating a wavefront sample by the transmission function of a voxel
    scales its modulus by [exp(-k beta)]: with [k >= 0] and [beta >= 0]
    the modulus never grows, and a voxel with [delta = beta = 0] leaves
    the sample as it is. *)
Theorem modulation_attenuates (k delta beta : R) (w : C) :
  0 <= k -> 0 <= beta ->
  Cabs (Cmul w (transmission k delta beta))
  = Cabs w * exp (- (k * beta)) /\
  Cabs (Cmul w (transmission k delta beta)) <= Cabs w /\
  Cmul w (transmission k 0 0) = w.
Proof.
  intros Hk Hb.
  assert (E : Cabs (Cmul w (transmission k delta beta))
              = Cabs w * exp (- (k * beta))).
  { rewrite Cabs_mul, Cabs_transmission. reflexivity. }
  split; [exact E|]. split.
  - rewrite E. rewrite <- (Rmult_1_r (Cabs w)) at 2.
    apply Rmult_le_compat_l; [apply Cabs_nonneg|].
    rewrite <- exp_0. destruct (Req_dec (k * beta) 0) as [Z|NZ].
    + rewrite Z, Ropp_0. apply Rle_refl.
    + left. apply exp_increasing. nra.
  - rewrite transmission_polar. unfold Cmul. cbn [fst snd].
    rewrite !Rmult_0_r, Ropp_0, exp_0, cos_0, sin_0.
    destruct w as [re im]. cbn [fst snd]. f_equal; ring.
Qed.

End Kernel.

Section Step.

Variables fft2d ifft2d : cimage -> cimage.

(** In the branch of the slice step that multiplies the shifted spectrum
    by the kernel and shifts the product back, the two shifts amount to
    one shift of the kernel: the step is the inverse transform of the
    unshifted spectrum times [ifftshift h]. *)
Theorem spectrum_step_unshifted (mean_voxel_nm lmbda_nm delta_nm : R)
  (size_nm : list R) (h wavefront : cimage) (n0 n1 : nat) :
  Shift.has_shape 2 [n0; n1] (fft2d wavefront) ->
  Shift.has_shape 2 [n0; n1] h ->
  crit_samp_of lmbda_nm delta_nm size_nm < mean_voxel_nm ->
  propagate_slice fft2d ifft2d mean_voxel_nm lmbda_nm delta_nm size_nm h
                  wavefront
  = ifft2d (cmul_image (fft2d wavefront) (ifftshift h)).
Proof.
  intros Hw Hh Hcrit. unfold propagate_slice.
  destruct (Rlt_dec _ _) as [_|N]; [|contradiction].
  f_equal. unfold ifftshift, fftshift, cmul_image, zip_image.
  apply (ShiftProps.shift_product C Cmul n0 n1 _ _ Hw Hh).
Qed.

End Step.

Lemma kernel_unit_modulus_witness :
  nth 0 [1; 1; 1] 0 <> 0 /\ nth 1 [1; 1; 1] 0 <> 0 /\
  Shift.has_shape 2 [nth 0 [2; 2; 2]%nat 0%nat; nth 1 [2; 2; 2]%nat 0%nat]
    (get_kernel 3.1415927 1 1 [1; 1; 1] [2; 2; 2]%nat) /\
  unit_modulus (get_kernel 3.1415927 1 1 [1; 1; 1] [2; 2; 2]%nat).
Proof.
  assert (H0 : nth 0 [1; 1; 1] 0 <> 0) by (simpl; lra).
  assert (H1 : nth 1 [1; 1; 1] 0 <> 0) by (simpl; lra).
  split; [exact H0|]. split; [exact H1|].
  exact (kernel_unit_modulus 3.1415927 1 1 [1; 1; 1] [2; 2; 2]%nat H0 H1).
Defined.

Lemma kernel_composition_witness :
  nth 0 [1; 1; 1] 0 <> 0 /\ nth 1 [1; 1; 1] 0 <> 0 /\
  cmul_image (get_kernel 3.1415927 1 1 [1; 1; 1] [2; 2; 2]%nat)
             (get_kernel 3.1415927 2 1 [1; 1; 1] [2; 2; 2]%nat)
  = get_kernel 3.1415927 (1 + 2) 1 [1; 1; 1] [2; 2; 2]%nat /\
  all_ones (cmul_image (get_kernel 3.1415927 1 1 [1; 1; 1] [2; 2; 2]%nat)
                       (get_kernel 3.1415927 (- 1) 1 [1; 1; 1] [2; 2; 2]%nat)).
Proof.
  assert (H0 : nth 0 [1; 1; 1] 0 <> 0) by (simpl; lra).
  assert (H1 : nth 1 [1; 1; 1] 0 <> 0) by (simpl; lra).
  split; [exact H0|]. split; [exact H1|].
  exact (kernel_composition 3.1415927 1 2 1 [1; 1; 1] [2; 2; 2]%nat H0 H1).
Defined.

Lemma modulation_attenuates_witness :
  0 <= 2 /\ 0 <= 1 /\
  Cabs (Cmul (3, 4) (transmission 2 1 1)) = Cabs (3, 4) * exp (- (2 * 1)) /\
  Cabs (Cmul (3, 4) (transmission 2 1 1)) <= Cabs (3, 4) /\
  Cmul (3, 4) (transmission 2 0 0) = (3, 4).
Proof.
  assert (H0 : 0 <= 2) by lra.
  assert (H1 : 0 <= 1) by lra.
  split; [exact H0|]. split; [exact H1|].
  exact (modulation_attenuates 2 1 1 (3, 4) H0 H1).
Defined.

Lemma spectrum_step_unshifted_witness :
  Shift.has_shape 2 [1; 2]%nat
    ((fun w : cimage => w) [[(1, 0); (0, 1)]]) /\
  Shift.has_shape 2 [1; 2]%nat [[(0, 1); (1, 0)]] /\
  crit_samp_of 0 1 [1; 1; 1] < 1 /\
  propagate_slice (fun w => w) (fun w => w) 1 0 1 [1; 1; 1]
                  [[(0, 1); (1, 0)]] [[(1, 0); (0, 1)]]
  = (fun w : cimage => w)
      (cmul_image ((fun w : cimage => w) [[(1, 0); (0, 1)]])
                  (ifftshift [[(0, 1); (1, 0)]])).
Proof.
  assert (H0 : Shift.has_shape (A:=C) 2 [1; 2]%nat
                 ((fun w : cimage => w) [[(1, 0); (0, 1)]])).
  { simpl. repeat split; repeat constructor. }
  assert (H1 : Shift.has_shape (A:=C) 2 [1; 2]%nat [[(0, 1); (1, 0)]]).
  { simpl. repeat split; repeat constructor. }
  assert (H2 : crit_samp_of 0 1 [1; 1; 1] < 1).
  { unfold crit_samp_of, Rdiv. rewrite !Rmult_0_l. lra. }
  split; [exact H0|]. split; [exact H1|]. split; [exact H2|].
  exact (spectrum_step_unshifted (fun w => w) (fun w => w) 1 0 1
           [1; 1; 1] _ _ 1 2 H0 H1 H2).
Defined.

End PropagateProps.

(* ================================================================= *)
(** * Further properties of the interpolation *)
(* ================================================================= *)

Module InterpProps.

Import Interp.

Local Open Scope R_scope.

(** The query points the function accepts: every coordinate in
    [[-1, n)]. *)
Definition in_domain (n0 n1 n2 : nat) (w : point) : Prop :=
  let '(x, y, z) := w in
  -1 <= x < INR n0 /\ -1 <= y < INR n1 /\ -1 <= z < INR n2.

(** The nearest coordinate between the first and the last lattice point
    of an axis of length [n]. *)
Definition clamp (n : nat) (t : R) : R := Rmax 0 (Rmin (INR n - 1) t).

Definition clamp3 (n0 n1 n2 : nat) (w : point) : point :=
  let '(x, y, z) := w in (clamp n0 x, clamp n1 y, clamp n2 z).

Definition lerp (a b t : R) : R := a * (1 - t) + b * t.

(** Linear interpolation along one axis of length [n] at coordinate [t],
    between the two source values the padded field holds at the
    neighbours of [t + 1]. *)
Definition axis_interp (n : nat) (t : R) (f : Z -> R) : R :=
  lerp (f (mirror n (Zfloor (t + 1))))
       (f (mirror n (Zfloor (t + 1) + 1)))
       (t + 1 - IZR (Zfloor (t + 1))).

(** The interpolated value as three nested axis interpolations. *)
Definition nested (n0 n1 n2 : nat) (data : tensor3) (w : point) : R :=
  let '(x, y, z) := w in
  axis_interp n2 z (fun k =>
    axis_interp n1 y (fun j =>
      axis_interp n0 x (fun i => value data (i, j, k)))).

Definition values_between (lo hi : R) (n0 n1 n2 : nat) (data : tensor3)
  : Prop :=
  forall i, in_bounds n0 n1 n2 i -> lo <= value data i <= hi.

Lemma floor_shift_closed (n : nat) (x : R) :
  -1 <= x < INR n -> (0 <= Zfloor (x + 1) <= Z.of_nat n)%Z.
Proof.
  intros [Hlo Hhi]. destruct (Zfloor_bound (x + 1)) as [Hf1 Hf2]. split.
  - apply Zfloor_lub. simpl. lra.
  - rewrite INR_IZR_INZ in Hhi.
    assert (H : IZR (Zfloor (x + 1)) < IZR (Z.of_nat n + 1)).
    { rewrite plus_IZR. lra. }
    apply lt_IZR in H. lia.
Qed.

Lemma floor_shift_converse (n : nat) (x : R) :
  (0 <= Zfloor (x + 1) <= Z.of_nat n)%Z -> -1 <= x < INR n.
Proof.
  intros [Hlo Hhi]. destruct (Zfloor_bound (x + 1)) as [Hf1 Hf2].
  apply IZR_le in Hlo, Hhi. rewrite <- INR_IZR_INZ in Hhi. simpl in Hlo.
  lra.
Qed.

Lemma trilinear_nested (X Y Z c0 c1 c2 c3 c4 c5 c6 c7 x y z : R) :
  trilinear X Y Z [c0; c1; c2; c3; c4; c5; c6; c7] x y z
  = lerp (lerp (lerp c0 c1 (x - X)) (lerp c2 c3 (x - X)) (y - Y))
         (lerp (lerp c4 c5 (x - X)) (lerp c6 c7 (x - X)) (y - Y))
         (z - Z).
Proof. unfold trilinear, lerp. cbn [nth]. ring. Qed.

Lemma interpolate_point_nested (n0 n1 n2 : nat) (data : tensor3) (w : point) :
  shape3 n0 n1 n2 data -> (0 < n0)%nat -> (0 < n1)%nat -> (0 < n2)%nat ->
  in_domain n0 n1 n2 w ->
  interpolate_point (padded_of data) w = Some (nested n0 n1 n2 data w).
Proof.
  destruct w as [[x y] z]. intros Hs P0 P1 P2 (Hx & Hy & Hz).
  apply floor_shift_closed in Hx, Hy, Hz.
  unfold interpolate_point.
  rewrite (sequence_map _ (fun i => value data (mirror3 n0 n1 n2 i))).
  2:{ apply (gather_neighbours n0 n1 n2); assumption. }
  f_equal. unfold floor_index, neighbours_of, offsets.
  cbn [map]. rewrite fit_trilinear.
  unfold add_index, mirror3. rewrite !Z.add_0_r.
  rewrite trilinear_nested. unfold nested, axis_interp.
  repeat f_equal; ring.
Qed.

Lemma lerp_between (lo hi a b t : R) :
  lo <= a <= hi -> lo <= b <= hi -> 0 <= t <= 1 ->
  lo <= lerp a b t <= hi.
Proof. unfold lerp. intros Ha Hb Ht. split; nra. Qed.

Lemma axis_interp_between (lo hi : R) (n : nat) (t : R) (f : Z -> R) :
  (0 < n)%nat ->
  (forall i, (0 <= i < Z.of_nat n)%Z -> lo <= f i <= hi) ->
  lo <= axis_interp n t f <= hi.
Proof.
  intros Hn Hf. unfold axis_interp.
  destruct (Zfloor_bound (t + 1)) as [H1 H2].
  apply lerp_between; try (apply Hf, mirror_bounds; exact Hn). lra.
Qed.

Lemma axis_interp_ext (n : nat) (t : R) (f g : Z -> R) :
  (forall i, f i = g i) -> axis_interp n t f = axis_interp n t g.
Proof. intros H. unfold axis_interp. now rewrite !H. Qed.

Lemma axis_interp_clamp (n : nat) (t : R) (f : Z -> R) :
  (0 < n)%nat -> -1 <= t < INR n ->
  axis_interp n t f = axis_interp n (clamp n t) f.
Proof.
  intros Hn [Hlo Hhi].
  assert (Hn1 : 1 <= INR n) by (apply (le_INR 1); lia).
  destruct (Rlt_dec t 0) as [Hneg|Hpos].
  - assert (Ec : clamp n t = 0).
    { unfold clamp. apply Rmax_left.
      apply Rle_trans with t; [apply Rmin_r | lra]. }
    rewrite Ec. unfold axis_interp.
    rewrite (Zfloor_eq 0 (t + 1)) by (simpl; lra).
    rewrite (Zfloor_eq 1 (0 + 1)) by (simpl; lra).
    replace (mirror n 0) with 0%Z by (unfold mirror; lia).
    replace (mirror n (0 + 1)) with 0%Z by (unfold mirror; lia).
    replace (mirror n 1) with 0%Z by (unfold mirror; lia).
    unfold lerp. simpl. ring.
  - destruct (Rlt_dec (INR n - 1) t) as [Hbig|Hsmall].
    + assert (Ec : clamp n t = INR n - 1).
      { unfold clamp. rewrite Rmin_left by lra. apply Rmax_right. lra. }
      rewrite Ec. unfold axis_interp.
      rewrite INR_IZR_INZ in *.
      rewrite (Zfloor_eq (Z.of_nat n) (t + 1)) by lra.
      rewrite (Zfloor_eq (Z.of_nat n) (IZR (Z.of_nat n) - 1 + 1)) by lra.
      replace (mirror n (Z.of_nat n + 1)) with (mirror n (Z.of_nat n))
        by (unfold mirror; lia).
      unfold lerp. ring.
    + assert (Ec : clamp n t = t).
      { unfold clamp. rewrite Rmin_right by lra. apply Rmax_right. lra. }
      now rewrite Ec.
Qed.

Lemma clamp_in_range (n : nat) (t : R) :
  (0 < n)%nat -> 0 <= clamp n t <= INR n - 1.
Proof.
  intros Hn. assert (Hn1 : 1 <= INR n) by (apply (le_INR 1); lia).
  unfold clamp. split; [apply Rmax_l|].
  apply Rmax_lub; [lra | apply Rmin_l].
Qed.

Lemma sequence_Some {X : Type} (l : list (option X)) (r : list X) :
  sequence l = Some r ->
  length r = length l /\ forall o, In o l -> exists x, o = Some x.
Proof.
  revert r. induction l as [|o l IH]; intros r H; simpl in H.
  - injection H as <-. split; [reflexivity | intros o []].
  - destruct o as [x|]; [|discriminate].
    destruct (sequence l) as [r'|]; [|discriminate].
    injection H as <-. destruct (IH r' eq_refl) as [Hl Hin].
    split; [simpl; now rewrite Hl|].
    intros o [<-|Ho]; [now exists x | now apply Hin].
Qed.

Lemma padded_Some (n0 n1 n2 : nat) (data : tensor3) :
  shape3 n0 n1 n2 data -> (0 < n0)%nat -> (0 < n1)%nat -> (0 < n2)%nat ->
  pad_symmetric data = Some (padded_of data).
Proof.
  intros Hs P0 P1 P2.
  destruct (pad_symmetric_spec n0 n1 n2 data Hs) as [[_ H]|[H _]];
    [lia | exact H].
Qed.

Lemma interpolate_point_domain (n0 n1 n2 : nat) (data : tensor3) (w : point)
  (v : R) :
  shape3 n0 n1 n2 data -> (0 < n0)%nat -> (0 < n1)%nat -> (0 < n2)%nat ->
  interpolate_point (padded_of data) w = Some v -> in_domain n0 n1 n2 w.
Proof.
  destruct w as [[x y] z]. intros Hs P0 P1 P2 H.
  pose proof (shape3_padded n0 n1 n2 data Hs P0 P1 P2) as Hp.
  unfold interpolate_point in H.
  destruct (sequence _) as [cs|] eqn:E; [|discriminate].
  apply sequence_Some in E. destruct E as [_ E].
  assert (Hg : forall i, In i (neighbours_of (floor_index (x, y, z))) ->
                         in_bounds (n0 + 2) (n1 + 2) (n2 + 2) i).
  { intros i Hi.
    destruct (E (gather_nd (padded_of data) i)) as [c Hc].
    - apply in_map. exact Hi.
    - exact (gather_bounds _ _ _ _ i c Hp Hc). }
  pose proof (Hg (add_index (floor_index (x, y, z)) (0, 0, 0)%Z)) as H0.
  pose proof (Hg (add_index (floor_index (x, y, z)) (1, 1, 1)%Z)) as H1.
  unfold neighbours_of, offsets, floor_index, add_index, in_bounds in H0, H1.
  cbn [map In] in H0, H1.
  destruct H0 as (A0 & B0 & C0); [tauto|].
  destruct H1 as (A1 & B1 & C1); [tauto|].
  unfold in_domain.
  split; [apply floor_shift_converse; lia|].
  split; apply floor_shift_converse; lia.
Qed.

Lemma nested_between (lo hi : R) (n0 n1 n2 : nat) (data : tensor3)
  (w : point) :
  (0 < n0)%nat -> (0 < n1)%nat -> (0 < n2)%nat ->
  values_between lo hi n0 n1 n2 data ->
  lo <= nested n0 n1 n2 data w <= hi.
Proof.
  destruct w as [[x y] z]. intros P0 P1 P2 Hv. unfold nested.
  apply axis_interp_between; [exact P2|]. intros k Hk.
  apply axis_interp_between; [exact P1|]. intros j Hj.
  apply axis_interp_between; [exact P0|]. intros i Hi.
  apply Hv. unfold in_bounds. auto.
Qed.

Lemma nested_clamp (n0 n1 n2 : nat) (data : tensor3) (w : point) :
  (0 < n0)%nat -> (0 < n1)%nat -> (0 < n2)%nat ->
  in_domain n0 n1 n2 w ->
  nested n0 n1 n2 data w = nested n0 n1 n2 data (clamp3 n0 n1 n2 w).
Proof.
  destruct w as [[x y] z]. intros P0 P1 P2 (Hx & Hy & Hz).
  unfold nested, clamp3.
  rewrite (axis_interp_clamp n2 z) by assumption.
  apply axis_interp_ext. intros k.
  rewrite (axis_interp_clamp n1 y) by assumption.
  apply axis_interp_ext. intros j.
  apply axis_interp_clamp; assumption.
Qed.

Lemma clamp3_in_domain (n0 n1 n2 : nat) (w : point) :
  (0 < n0)%nat -> (0 < n1)%nat -> (0 < n2)%nat ->
  in_domain n0 n1 n2 (clamp3 n0 n1 n2 w).
Proof.
  destruct w as [[x y] z]. intros P0 P1 P2. unfold in_domain, clamp3.
  pose proof (clamp_in_range n0 x P0).
  pose proof (clamp_in_range n1 y P1).
  pose proof (clamp_in_range n2 z P2).
  repeat split; lra.
Qed.

Lemma interpolation_nested (n0 n1 n2 : nat) (data : tensor3)
  (warp : list point) :
  shape3 n0 n1 n2 data -> (0 < n0)%nat -> (0 < n1)%nat -> (0 < n2)%nat ->
  Forall (in_domain n0 n1 n2) warp ->
  biliniear_interpolation_3d data warp
  = Some (map (nested n0 n1 n2 data) warp).
Proof.
  intros Hs P0 P1 P2 Hw. unfold biliniear_interpolation_3d.
  rewrite (padded_Some n0 n1 n2 data Hs P0 P1 P2).
  apply sequence_map. intros w Hin.
  apply interpolate_point_nested; try assumption.
  rewrite Forall_forall in Hw. now apply Hw.
Qed.




Lemma small_field_shape : shape3 1 2 2 [[[1; 2]; [3; 4]]].
Proof. unfold shape3. simpl. repeat split; repeat constructor. Qed.

Lemma small_field_values : values_between 1 4 1 2 2 [[[1; 2]; [3; 4]]].
Proof.
  intros [[i j] k] (Hi & Hj & Hk).
  assert (Ei : i = 0%Z) by lia.
  assert (Ej : j = 0%Z \/ j = 1%Z) by lia.
  assert (Ek : k = 0%Z \/ k = 1%Z) by lia.
  subst i. destruct Ej as [-> | ->], Ek as [-> | ->];
    unfold value; simpl; lra.
Qed.

Lemma small_field_point : in_domain 1 2 2 (-1 / 2, 1 / 2, 3 / 2).
Proof. unfold in_domain. simpl. lra. Qed.




End InterpProps.

(* ================================================================= *)
(** * Further properties of the rotation and of the sub-volumes *)
(* ================================================================= *)

Module ObjectiveProps.

Import Propagate Objective.

Local Open Scope R_scope.

(** The shape [tf_rotate] reads from a tensor of shape [s]. *)
Definition rectangular (n height width channels : nat) (obj : volume4)
  : Prop :=
  Shift.has_shape 4 [n; height; width; channels] obj.

(** First row and first column of the footprint of the probe at [pos]. *)
Definition footprint_start (st : settings) (pos : Z * Z) : Z * Z :=
  ((fst pos - fst (probe_size_half st))%Z,
   (snd pos - snd (probe_size_half st))%Z).

Lemma map_seq_nth {X : Type} (l : list X) (d : X) (n : nat)
  (f : nat -> X) :
  n = length l -> (forall i, (i < n)%nat -> f i = nth i l d) ->
  map f (seq 0 n) = l.
Proof.
  intros -> H. apply (nth_ext _ _ d d).
  - now rewrite length_map, length_seq.
  - intros i Hi. rewrite length_map, length_seq in Hi.
    rewrite nth_map_seq by exact Hi. now apply H.
Qed.

Lemma nth_Z_nth {X : Type} (l : list X) (i : nat) (d : X) :
  (i < length l)%nat -> Interp.nth_Z l (Z.of_nat i) = Some (nth i l d).
Proof.
  intros Hi. unfold Interp.nth_Z.
  destruct (Z.ltb_spec (Z.of_nat i) 0); [lia|].
  rewrite Nat2Z.id. now apply nth_error_nth'.
Qed.

Lemma read_inside (img : image3) (y x c : nat) (fill : R) :
  (y < length img)%nat -> (x < length (nth y img []))%nat ->
  read_with_fill_value img (Z.of_nat y) (Z.of_nat x) c fill
  = nth c (nth x (nth y img []) []) fill.
Proof.
  intros Hy Hx. unfold read_with_fill_value.
  rewrite (nth_Z_nth img y []) by exact Hy.
  rewrite (nth_Z_nth _ x []) by exact Hx. reflexivity.
Qed.

Lemma input_position_zero (height width y x : nat) :
  input_position (angles_to_projective_transforms 0 height width) y x
  = (INR y, INR x).
Proof.
  unfold input_position, angles_to_projective_transforms. cbn [nth].
  rewrite cos_0, sin_0. f_equal; field.
Qed.

Lemma bilinear_lattice (img : image3) (y x c : nat) (fill : R) :
  bilinear_interpolation img (INR y) (INR x) c fill
  = read_with_fill_value img (Z.of_nat y) (Z.of_nat x) c fill.
Proof.
  unfold bilinear_interpolation. rewrite !INR_IZR_INZ, !ZfloorZ, !plus_IZR.
  ring.
Qed.

Lemma transform_zero (img : image3) (H W height width channels : nat) :
  length img = height ->
  (forall row, In row img ->
     length row = width /\
     forall pixel, In pixel row -> length pixel = channels) ->
  transform_image img (angles_to_projective_transforms 0 H W)
                  height width channels
  = img.
Proof.
  intros Lh Hrows. unfold transform_image.
  apply (map_seq_nth img []); [now symmetry|]. intros y Hy.
  assert (Iy : In (nth y img []) img) by (apply nth_In; lia).
  destruct (Hrows _ Iy) as [Lw Hpix].
  apply (map_seq_nth (nth y img []) []); [now symmetry|]. intros x Hx.
  rewrite input_position_zero.
  assert (Ix : In (nth x (nth y img []) []) (nth y img []))
    by (apply nth_In; lia).
  apply (map_seq_nth _ 0); [symmetry; now apply Hpix|]. intros c Hc.
  rewrite bilinear_lattice. apply read_inside; lia.
Qed.

Lemma transform_shape (img : image3) (t : list R)
  (height width channels h w c : nat) :
  height = h -> (h <> 0%nat -> width = w) ->
  (h <> 0%nat -> w <> 0%nat -> channels = c) ->
  Shift.has_shape 3 [h; w; c] (transform_image img t height width channels).
Proof.
  intros -> Hw Hc. unfold transform_image. cbn [Shift.has_shape].
  rewrite length_map, length_seq. repeat split.
  apply Forall_forall. intros row Hrow. apply in_map_iff in Hrow.
  destruct Hrow as (y & <- & Hy). apply in_seq in Hy.
  rewrite length_map, length_seq. repeat split; [apply Hw; lia|].
  apply Forall_forall. intros pixel Hpixel. apply in_map_iff in Hpixel.
  destruct Hpixel as (x & <- & Hx). apply in_seq in Hx.
  destruct (input_position t y x) as [iy ix].
  rewrite length_map, length_seq. repeat split; [apply Hc; lia|].
  apply Forall_forall. intros; reflexivity.
Qed.

Lemma read_dimensions (n h w c : nat) (obj : volume4) :
  rectangular n h w c obj -> n <> 0%nat ->
  nth 1 (Shift.shape_of R 4 obj) 0%nat = h /\
  (h <> 0%nat -> nth 2 (Shift.shape_of R 4 obj) 0%nat = w) /\
  (h <> 0%nat -> w <> 0%nat -> nth 3 (Shift.shape_of R 4 obj) 0%nat = c).
Proof.
  intros Hs Hn. destruct (Shift.has_shape_ztrunc R 4 _ obj Hs) as [_ E].
  rewrite E. destruct n as [|n]; [contradiction|].
  destruct h as [|h]; [repeat split; intros; try contradiction; reflexivity|].
  destruct w as [|w]; repeat split; intros; try contradiction; reflexivity.
Qed.

(** The rotation keeps the shape of the object, for every angle. *)
Theorem rotation_keeps_shape (n height width channels : nat) (obj : volume4)
  (angle : R) :
  rectangular n height width channels obj ->
  rectangular n height width channels (tf_rotate obj angle).
Proof.
  intros Hs. pose proof Hs as (Ln & _ & HF). unfold rectangular, tf_rotate.
  cbn [Shift.has_shape]. rewrite length_map. repeat split; [exact Ln|].
  apply Forall_forall. intros out Hout. apply in_map_iff in Hout.
  destruct Hout as (img & <- & Himg).
  assert (Hn : n <> 0%nat) by (destruct obj; [contradiction | simpl in Ln; lia]).
  destruct (read_dimensions n height width channels obj Hs Hn)
    as (Eh & Ew & Ec).
  now apply transform_shape.
Qed.

(** The rotation by the angle zero, the first angle of the default
    angular range, returns the object unchanged. *)
Theorem rotation_by_zero (n height width channels : nat) (obj : volume4) :
  rectangular n height width channels obj -> tf_rotate obj 0 = obj.
Proof.
  intros Hs. pose proof Hs as (Ln & _ & HF). unfold tf_rotate.
  rewrite Forall_forall in HF.
  apply Shift.map_id_on. intros img Himg.
  assert (Hn : n <> 0%nat) by (destruct obj; [contradiction | simpl in Ln; lia]).
  destruct (read_dimensions n height width channels obj Hs Hn)
    as (Eh & Ew & Ec).
  destruct (HF img Himg) as (Lh & _ & HR). rewrite Forall_forall in HR.
  apply transform_zero; [congruence|].
  intros row Hrow. destruct (HR row Hrow) as (Lw & _ & HP).
  rewrite Forall_forall in HP.
  assert (Hh : height <> 0%nat)
    by (destruct img; [contradiction | simpl in Lh; lia]).
  split; [rewrite Ew; [exact Lw | exact Hh]|].
  intros pixel Hpixel. destruct (HP pixel Hpixel) as (Lc & _).
  assert (Hw : width <> 0%nat)
    by (destruct row; [contradiction | simpl in Lw; lia]).
  rewrite Ec; [exact Lc | exact Hh | exact Hw].
Qed.

(** ** The sub-volume under the probe *)

Lemma nth_window {X : Type} (l : list X) (a k i : nat) (d : X) :
  (i < k)%nat -> nth i (firstn k (skipn a l)) d = nth (a + i) l d.
Proof.
  intros Hi. rewrite nth_firstn.
  destruct (Nat.ltb_spec i k); [|lia]. apply nth_skipn.
Qed.

Lemma length_window {X : Type} (l : list X) (a k : nat) :
  (a + k <= length l)%nat -> length (firstn k (skipn a l)) = k.
Proof. intros H. rewrite length_firstn, length_skipn. lia. Qed.

(** When the footprint of the probe lies inside the rotated object, the
    sub-volume is the window of the object under the footprint: it has
    the size of the probe on the first two axes and holds the voxels of
    the object from the first row and column of the footprint on. *)
Theorem subobj_window (st : settings) (obj_rot : volume4) (pos : Z * Z)
  (n0 n1 n2 c : nat) :
  rectangular n0 n1 n2 c obj_rot ->
  (0 <= fst (footprint_start st pos))%Z ->
  (fst (footprint_start st pos) + Z.of_nat (fst (probe_size st))
   <= Z.of_nat n0)%Z ->
  (0 <= snd (footprint_start st pos))%Z ->
  (snd (footprint_start st pos) + Z.of_nat (snd (probe_size st))
   <= Z.of_nat n1)%Z ->
  rectangular (fst (probe_size st)) (snd (probe_size st)) n2 c
              (subobj_at st obj_rot pos) /\
  forall i j,
    (i < fst (probe_size st))%nat -> (j < snd (probe_size st))%nat ->
    nth j (nth i (subobj_at st obj_rot pos) []) []
    = nth (Z.to_nat (snd (footprint_start st pos)) + j)
          (nth (Z.to_nat (fst (footprint_start st pos)) + i) obj_rot [])
          [].
Proof.
  intros Hs. pose proof Hs as (L0 & _ & HF). rewrite Forall_forall in HF.
  unfold footprint_start, subobj_at. cbn [fst snd].
  destruct (probe_size_half st) as [h0 h1].
  destruct (probe_size st) as [s0 s1]. cbn [fst snd].
  set (a0 := (fst pos - h0)%Z). set (a1 := (snd pos - h1)%Z).
  intros A0 B0 A1 B1.
  assert (L0' : length obj_rot = n0) by exact L0.
  rewrite (Schedule.py_slice_inner obj_rot a0 (a0 + Z.of_nat s0)) by lia.
  replace (Z.to_nat (a0 + Z.of_nat s0 - a0)) with s0 by lia.
  assert (Hplane : forall plane, In plane obj_rot ->
            Objective.py_slice plane a1 (a1 + Z.of_nat s1)
            = firstn s1 (skipn (Z.to_nat a1) plane) /\
            Shift.has_shape 3 [s1; n2; c]
              (firstn s1 (skipn (Z.to_nat a1) plane))).
  { intros plane Hp. destruct (HF plane Hp) as (L1 & _ & HR).
    assert (L1' : length plane = n1) by exact L1.
    rewrite (Schedule.py_slice_inner plane a1 (a1 + Z.of_nat s1)) by lia.
    replace (Z.to_nat (a1 + Z.of_nat s1 - a1)) with s1 by lia.
    split; [reflexivity|]. cbn [Shift.has_shape].
    split; [apply length_window; lia|]. split; [reflexivity|].
    rewrite Forall_forall in *. intros row Hrow. apply HR.
    now apply Shift.In_firstn_skipn in Hrow. }
  split.
  - unfold rectangular. cbn [Shift.has_shape].
    rewrite length_map. split; [apply length_window; lia|].
    split; [reflexivity|].
    apply Forall_forall. intros out Hout. apply in_map_iff in Hout.
    destruct Hout as (plane & <- & Hp).
    apply Shift.In_firstn_skipn in Hp.
    destruct (Hplane plane Hp) as [-> Hshape]. exact Hshape.
  - intros i j Hi Hj.
    set (F := fun plane : image3 =>
                Objective.py_slice plane a1 (a1 + Z.of_nat s1)).
    rewrite (nth_indep _ [] (F []))
      by (rewrite length_map, length_window; lia).
    rewrite (map_nth F), nth_window by exact Hi. unfold F.
    assert (Hin : In (nth (Z.to_nat a0 + i) obj_rot []) obj_rot)
      by (apply nth_In; lia).
    destruct (Hplane _ Hin) as [-> _]. now apply nth_window.
Qed.

(** When the footprint starts before the first row or column of the
    object and ends inside it, the negative start index counts from the
    far end and the slice is empty: the sub-volume holds no voxel. *)
Theorem subobj_straddle_empty (st : settings) (obj_rot : volume4)
  (pos : Z * Z) (n0 n1 n2 c : nat) :
  rectangular n0 n1 n2 c obj_rot ->
  ((fst (footprint_start st pos) < 0
    <= fst (footprint_start st pos) + Z.of_nat (fst (probe_size st)))%Z /\
   (fst (probe_size st) <= n0)%nat) \/
  ((snd (footprint_start st pos) < 0
    <= snd (footprint_start st pos) + Z.of_nat (snd (probe_size st)))%Z /\
   (snd (probe_size st) <= n1)%nat) ->
  Forall (fun plane => plane = []) (subobj_at st obj_rot pos).
Proof.
  intros Hs. pose proof Hs as (L0 & _ & HF). rewrite Forall_forall in HF.
  unfold footprint_start, subobj_at. cbn [fst snd].
  destruct (probe_size_half st) as [h0 h1].
  destruct (probe_size st) as [s0 s1]. cbn [fst snd].
  set (a0 := (fst pos - h0)%Z). set (a1 := (snd pos - h1)%Z).
  assert (Hempty : forall (X : Type) (l : list X) (a : Z) (s n : nat),
            length l = n -> (a < 0 <= a + Z.of_nat s)%Z -> (s <= n)%nat ->
            Objective.py_slice l a (a + Z.of_nat s) = []).
  { intros X l a s n Hl Ha Hsn. unfold Objective.py_slice, slice_bound.
    rewrite Hl. destruct (Z.ltb_spec a 0); [|lia].
    destruct (Z.ltb_spec (a + Z.of_nat s) 0); [lia|].
    replace (Z.to_nat _) with 0%nat by lia. reflexivity. }
  intros [[Ha Hn]|[Ha Hn]].
  - rewrite (Hempty _ obj_rot a0 s0 n0 L0 Ha Hn). constructor.
  - apply Forall_forall. intros out Hout. apply in_map_iff in Hout.
    destruct Hout as (plane & <- & Hp).
    assert (Hin : In plane obj_rot).
    { unfold Objective.py_slice in Hp.
      now apply Shift.In_firstn_skipn in Hp. }
    destruct (HF plane Hin) as (L1 & _).
    exact (Hempty _ plane a1 s1 n1 L1 Ha Hn).
Qed.

(** ** The regularizer *)

Lemma rsum_map_nonneg {X : Type} (f : X -> R) (l : list X) :
  (forall x, 0 <= f x) -> 0 <= Interp.rsum (map f l).
Proof.
  intros H. unfold Interp.rsum.
  induction l as [|x l IH]; simpl; [lra|]. pose proof (H x). lra.
Qed.

Lemma rsum_map2_nonneg {X Y : Type} (f : X -> Y -> R) (u : list X)
  (v : list Y) :
  (forall x y, 0 <= f x y) -> 0 <= Interp.rsum (Shift.map2 f u v).
Proof.
  intros H. unfold Interp.rsum. revert v.
  induction u as [|x u IH]; intros [|y v]; simpl; try lra.
  pose proof (H x y). pose proof (IH v). lra.
Qed.

Lemma diff_sum_nonneg {X : Type} (d : X -> X -> R) (l : list X) :
  (forall a b, 0 <= d a b) -> 0 <= diff_sum d l.
Proof.
  intros H. induction l as [|a l IH]; simpl; [lra|].
  destruct l as [|b l]; [lra|]. pose proof (H b a). lra.
Qed.

Lemma absdiff1_nonneg (u v : list R) : 0 <= absdiff1 u v.
Proof.
  unfold absdiff1. apply rsum_map2_nonneg. intros. apply Rabs_pos.
Qed.

Lemma total_variation_nonneg (img : image3) : 0 <= total_variation img.
Proof.
  unfold total_variation.
  assert (H1 : 0 <= diff_sum absdiff2 img).
  { apply diff_sum_nonneg. intros a b. unfold absdiff2.
    apply rsum_map2_nonneg. apply absdiff1_nonneg. }
  assert (H2 : 0 <= Interp.rsum (map (diff_sum absdiff1) img)).
  { apply rsum_map_nonneg. intros row. apply diff_sum_nonneg.
    apply absdiff1_nonneg. }
  lra.
Qed.

Lemma norm1_nonneg (v : volume) : 0 <= norm1 v.
Proof.
  unfold norm1, rsum3. apply rsum_map_nonneg. intros img. unfold rsum2.
  apply rsum_map_nonneg. intros row. apply rsum_map_nonneg.
  intros x. apply Rabs_pos.
Qed.

(** With non-negative weights the regularizer is never negative. *)
Theorem reg_term_nonneg (st : settings) (obj : volume4) (reg : R) :
  0 <= alpha st -> 0 <= gamma st ->
  (forall a, alpha_d st = Some a -> 0 <= a) ->
  (forall b, alpha_b st = Some b -> 0 <= b) ->
  reg_term st obj = Some reg -> 0 <= reg.
Proof.
  intros Ha Hg Hd Hb. unfold reg_term.
  destruct (alpha_d st) as [ad|] eqn:Ed.
  - destruct (alpha_b st) as [ab|] eqn:Eb; [|discriminate].
    pose proof (Hd ad eq_refl) as Had. pose proof (Hb ab eq_refl) as Hab.
    pose proof (norm1_nonneg (channel 0 obj)) as N0.
    pose proof (norm1_nonneg (channel 1 obj)) as N1.
    assert (N2 : 0 <= norm2 (channel 0 obj)) by apply sqrt_pos.
    destruct (Req_dec_T (gamma st) 0); intros E; injection E as <-; nra.
  - intros E. injection E as <-.
    assert (N : 0 <= norm1_4 obj).
    { unfold norm1_4. apply rsum_map_nonneg. intros img.
      apply (norm1_nonneg img). }
    pose proof (total_variation_nonneg (channel 0 obj)). nra.
Qed.

(** ** Inputs of the examples *)

(** A probe of two by two pixels over an object of three by three
    columns with one slice. *)
Definition small_settings : settings :=
  {| probe_size := (2, 2)%nat;
     obj_size := [3; 3; 1]%nat;
     energy_ev := 5000;
     psize_cm := 1;
     ds_level := 1;
     probe_circ_mask := None;
     probe_type := "gaussian"%string;
     alpha := 1;
     alpha_d := None;
     alpha_b := None;
     gamma := 1;
     n_theta := 1;
     n_pos := 1;
     dim_y := 3;
     dim_x := 3;
     minibatch_size := 1 |}.

Definition small_object : volume4 :=
  [ [ [[1; 0]]; [[2; 0]]; [[3; 0]] ];
    [ [[4; 0]]; [[5; 0]]; [[6; 0]] ];
    [ [[7; 0]]; [[8; 0]]; [[9; 0]] ] ].

Lemma small_object_shape : rectangular 3 3 1 2 small_object.
Proof. unfold rectangular. simpl. repeat split; repeat constructor. Qed.

Lemma rotation_keeps_shape_witness :
  rectangular 3 3 1 2 small_object /\
  rectangular 3 3 1 2 (tf_rotate small_object 1).
Proof.
  split; [exact small_object_shape|].
  exact (rotation_keeps_shape 3 3 1 2 small_object 1 small_object_shape).
Defined.

Lemma rotation_by_zero_witness :
  rectangular 3 3 1 2 small_object /\ tf_rotate small_object 0 = small_object.
Proof.
  split; [exact small_object_shape|].
  exact (rotation_by_zero 3 3 1 2 small_object small_object_shape).
Defined.

Lemma subobj_window_witness :
  rectangular 3 3 1 2 small_object /\
  (0 <= fst (footprint_start small_settings (1, 2)%Z))%Z /\
  (fst (footprint_start small_settings (1, 2)%Z)
   + Z.of_nat (fst (probe_size small_settings)) <= Z.of_nat 3)%Z /\
  (0 <= snd (footprint_start small_settings (1, 2)%Z))%Z /\
  (snd (footprint_start small_settings (1, 2)%Z)
   + Z.of_nat (snd (probe_size small_settings)) <= Z.of_nat 3)%Z /\
  rectangular (fst (probe_size small_settings))
              (snd (probe_size small_settings)) 1 2
              (subobj_at small_settings small_object (1, 2)%Z) /\
  forall i j,
    (i < fst (probe_size small_settings))%nat ->
    (j < snd (probe_size small_settings))%nat ->
    nth j (nth i (subobj_at small_settings small_object (1, 2)%Z) []) []
    = nth (Z.to_nat (snd (footprint_start small_settings (1, 2)%Z)) + j)
          (nth (Z.to_nat (fst (footprint_start small_settings (1, 2)%Z)) + i)
               small_object [])
          [].
Proof.
  split; [exact small_object_shape|].
  split; [unfold footprint_start, probe_size_half; simpl; lia|]. split; [unfold footprint_start, probe_size_half; simpl; lia|].
  split; [unfold footprint_start, probe_size_half; simpl; lia|]. split; [unfold footprint_start, probe_size_half; simpl; lia|].
  apply (subobj_window small_settings small_object (1, 2)%Z 3 3 1 2
           small_object_shape); unfold footprint_start, probe_size_half; simpl; lia.
Defined.

Lemma subobj_straddle_empty_witness :
  rectangular 3 3 1 2 small_object /\
  (((fst (footprint_start small_settings (0, 1)%Z) < 0
     <= fst (footprint_start small_settings (0, 1)%Z)
        + Z.of_nat (fst (probe_size small_settings)))%Z /\
    (fst (probe_size small_settings) <= 3)%nat) \/
   ((snd (footprint_start small_settings (0, 1)%Z) < 0
     <= snd (footprint_start small_settings (0, 1)%Z)
        + Z.of_nat (snd (probe_size small_settings)))%Z /\
    (snd (probe_size small_settings) <= 3)%nat)) /\
  Forall (fun plane => plane = [])
         (subobj_at small_settings small_object (0, 1)%Z).
Proof.
  assert (H : ((fst (footprint_start small_settings (0, 1)%Z) < 0
                <= fst (footprint_start small_settings (0, 1)%Z)
                   + Z.of_nat (fst (probe_size small_settings)))%Z /\
               (fst (probe_size small_settings) <= 3)%nat) \/
              ((snd (footprint_start small_settings (0, 1)%Z) < 0
                <= snd (footprint_start small_settings (0, 1)%Z)
                   + Z.of_nat (snd (probe_size small_settings)))%Z /\
               (snd (probe_size small_settings) <= 3)%nat)).
  { left. unfold footprint_start, probe_size_half. simpl. lia. }
  split; [exact small_object_shape|]. split; [exact H|].
  exact (subobj_straddle_empty small_settings small_object (0, 1)%Z 3 3 1 2
           small_object_shape H).
Defined.

Lemma reg_term_nonneg_witness :
  0 <= alpha small_settings /\ 0 <= gamma small_settings /\
  (forall a, alpha_d small_settings = Some a -> 0 <= a) /\
  (forall b, alpha_b small_settings = Some b -> 0 <= b) /\
  reg_term small_settings small_object
  = Some (alpha small_settings * norm1_4 small_object
          + gamma small_settings
            * total_variation (channel 0 small_object)) /\
  0 <= alpha small_settings * norm1_4 small_object
       + gamma small_settings * total_variation (channel 0 small_object).
Proof.
  assert (Ha : 0 <= alpha small_settings) by (simpl; lra).
  assert (Hg : 0 <= gamma small_settings) by (simpl; lra).
  assert (Hd : forall a, alpha_d small_settings = Some a -> 0 <= a)
    by (intros a E; discriminate E).
  assert (Hb : forall b, alpha_b small_settings = Some b -> 0 <= b)
    by (intros b E; discriminate E).
  assert (Hr : reg_term small_settings small_object
               = Some (alpha small_settings * norm1_4 small_object
                       + gamma small_settings
                         * total_variation (channel 0 small_object)))
    by reflexivity.
  split; [exact Ha|]. split; [exact Hg|]. split; [exact Hd|].
  split; [exact Hb|]. split; [exact Hr|].
  exact (reg_term_nonneg small_settings small_object _ Ha Hg Hd Hb Hr).
Defined.

End ObjectiveProps.

(* ================================================================= *)
(** * Further properties of the epochs and the resolution levels *)
(* ================================================================= *)

Module DriverProps.

Import Driver.

Local Open Scope list_scope.
Local Open Scope Q_scope.

Lemma epoch_loop_fixed (n : nat) (crit : Q) (loss : nat -> Q)
  (r e : nat) (loss_ls : list Q) :
  epoch_loop (Epochs n) crit loss e r loss_ls
  = Exhausted (loss_ls ++ map loss (seq e r)).
Proof.
  revert e loss_ls. induction r as [|r IH]; intros e loss_ls.
  - cbn [epoch_loop seq map]. now rewrite app_nil_r.
  - cbn [epoch_loop seq map]. rewrite IH, <- app_assoc. reflexivity.
Qed.

(** With a number for [n_epochs] a level always runs its whole budget of
    [n_loop] epochs and records every loss: the stopping criterion is
    never consulted. *)
Theorem fixed_budget_runs_all (n : nat) (crit_conv_rate : Q)
  (max_nepochs ds_level : nat) (n_epoch_final_pass : option nat)
  (loss : nat -> Q) :
  run_level (Epochs n) crit_conv_rate max_nepochs ds_level
            n_epoch_final_pass loss
  = Exhausted
      (map loss
           (seq 0 (match n_epoch_final_pass with
                   | Some final => if Nat.eqb ds_level 1 then final else n
                   | None => n
                   end))).
Proof.
  unfold run_level. rewrite epoch_loop_fixed. cbn [app].
  unfold n_loop. reflexivity.
Qed.

Lemma rate_times_previous (current previous : Q) :
  ~ previous == 0 ->
  (current - previous) / previous * previous == current - previous.
Proof. intros H. field. exact H. Qed.

(** The stopping test by the sign of the previous loss.  After a positive
    loss it holds exactly when the loss went down, by less than the
    fraction [crit_conv_rate]; after a loss of zero it never holds; after
    a negative loss it holds exactly when the loss went up by less than
    that fraction. *)
Theorem stop_criterion_sign (crit_conv_rate current previous : Q) :
  (0 < previous ->
   (converged crit_conv_rate current previous = true <->
    (1 - crit_conv_rate) * previous < current /\ current < previous)) /\
  (previous == 0 -> converged crit_conv_rate current previous = false) /\
  (previous < 0 ->
   (converged crit_conv_rate current previous = true <->
    previous < current /\ current < (1 - crit_conv_rate) * previous)).
Proof.
  unfold converged. split; [|split].
  - intros Hp. rewrite andb_true_iff, !Qltb_lt.
    assert (Hn : ~ previous == 0) by (intros E; rewrite E in Hp; lra).
    pose proof (rate_times_previous current previous Hn) as E.
    rewrite <- (Qmult_lt_r _ _ previous Hp).
    rewrite <- (Qmult_lt_r ((current - previous) / previous) 0 previous Hp).
    rewrite E. split; intros [H1 H2]; split; lra.
  - intros Hz. apply andb_false_iff. right.
    destruct (Qltb _ 0) eqn:E; [|reflexivity].
    apply Qltb_lt in E. exfalso.
    assert (Hr : (current - previous) / previous == 0).
    { unfold Qdiv. rewrite Hz. unfold Qinv. simpl. ring. }
    rewrite Hr in E. lra.
  - intros Hp. rewrite andb_true_iff, !Qltb_lt.
    assert (Hn : ~ previous == 0) by (intros E; rewrite E in Hp; lra).
    assert (Hm : 0 < - previous) by lra.
    pose proof (rate_times_previous current previous Hn) as E.
    rewrite <- (Qmult_lt_r _ _ (- previous) Hm).
    rewrite <- (Qmult_lt_r ((current - previous) / previous) 0
                  (- previous) Hm).
    assert (E' : (current - previous) / previous * - previous
                 == - (current - previous)).
    { rewrite <- E at 2. ring. }
    rewrite E'. split; intros [H1 H2]; split; lra.
Qed.



End DriverProps.

(* ================================================================= *)
(** * Magnitude and phase, and the preprocessing of the data *)
(* ================================================================= *)

Module Numeric.

Import Propagate.

Local Open Scope R_scope.

(** ** [real_imag_to_mag_phase] and [mag_phase_to_real_imag] *)

(** [np.arctan2(y, x)], signed zeros apart. *)
Definition arctan2 (y x : R) : R :=
  if Rlt_dec 0 x then atan (y / x)
  else if Rlt_dec x 0 then
    if Rle_dec 0 y then atan (y / x) + PI else atan (y / x) - PI
  else if Rlt_dec 0 y then PI / 2
  else if Rlt_dec y 0 then - (PI / 2)
  else 0.

(** [np.angle(a)] *)
Definition angle (a : C) : R := arctan2 (snd a) (fst a).

(** [a = realpart + 1j * imagpart] and [a = mag * np.exp(1j * phase)],
    for one element. *)
Definition cartesian (re im : R) : C := Cadd (RtoC re) (Cmul Ci (RtoC im)).
Definition polar (mag phase : R) : C :=
  Cmul (RtoC mag) (Cexp (Cmul Ci (RtoC phase))).

Definition real_imag_to_mag_phase (realpart imagpart : image)
  : image * image :=
  let a := zip_image cartesian realpart imagpart in
  (map (map Cabs) a, map (map angle) a).

Definition mag_phase_to_real_imag (mag phase : image) : image * image :=
  let a := zip_image polar mag phase in
  (map (map fst) a, map (map snd) a).

(** ** [preprocess] with [blur=None] and [normalize_bg=False] *)

(** [dat[np.abs(dat) < 2e-3] = 2e-3] followed by [dat[dat > 1] = 1], for
    one element. *)
Definition clip (x : R) : R :=
  let x := if Rlt_dec (Rabs x) 2e-3 then 2e-3 else x in
  if Rlt_dec 1 x then 1 else x.

(** [-np.log(x)], and [0] where the logarithm of a negative number gave
    [nan]. *)
Definition neg_log (x : R) : R := if Rlt_dec x 0 then 0 else - ln x.

(** The elements of [dat] in any fixed order.  The two assignments change
    the array of the caller; [-np.log(dat)] makes a new one.  The result
    is the array of the caller after the call, paired with the value
    returned. *)
Definition preprocess (dat : list R) : list R * list R :=
  let dat := map clip dat in
  (dat, map neg_log dat).

(** ** Polar form *)

Lemma cartesian_pair (re im : R) : cartesian re im = (re, im).
Proof.
  unfold cartesian, Cadd, Cmul, Ci, RtoC. cbn [fst snd]. f_equal; ring.
Qed.

Lemma polar_pair (mag phase : R) :
  polar mag phase = (mag * cos phase, mag * sin phase).
Proof.
  unfold polar, Cexp, Cmul, Ci, RtoC. cbn [fst snd].
  replace (0 * phase - 1 * 0) with 0 by ring.
  replace (0 * 0 + 1 * phase) with phase by ring.
  rewrite exp_0. f_equal; ring.
Qed.

Lemma modulus_scaled (x y : R) :
  x <> 0 ->
  sqrt (x * x + y * y) = Rabs x * sqrt (1 + (y / x)²).
Proof.
  intros Hx.
  replace (x * x + y * y) with (x² * (1 + (y / x)²))
    by (unfold Rsqr; field; exact Hx).
  rewrite sqrt_mult.
  - now rewrite sqrt_Rsqr_abs.
  - apply Rle_0_sqr.
  - pose proof (Rle_0_sqr (y / x)). lra.
Qed.

Lemma root_positive (t : R) : 0 < sqrt (1 + t²).
Proof. apply sqrt_lt_R0. pose proof (Rle_0_sqr t). lra. Qed.

Lemma polar_of_cartesian (re im : R) :
  polar (Cabs (re, im)) (angle (re, im)) = (re, im).
Proof.
  rewrite polar_pair. unfold Cabs, angle, arctan2. cbn [fst snd].
  destruct (Rlt_dec 0 re) as [Hpos|Hnpos].
  - rewrite modulus_scaled by lra. rewrite Rabs_right by lra.
    rewrite cos_atan, sin_atan.
    pose proof (root_positive (im / re)). f_equal; field; lra.
  - destruct (Rlt_dec re 0) as [Hneg|Hnneg].
    + rewrite modulus_scaled by lra.
      rewrite Rabs_left by lra.
      pose proof (root_positive (im / re)).
      destruct (Rle_dec 0 im).
      * rewrite neg_cos, neg_sin, cos_atan, sin_atan. f_equal; field; lra.
      * rewrite cos_minus, sin_minus, cos_PI, sin_PI, cos_atan, sin_atan.
        f_equal; field; lra.
    + assert (re = 0) by lra. subst re.
      replace (0 * 0 + im * im) with (im²) by (unfold Rsqr; ring).
      rewrite sqrt_Rsqr_abs.
      destruct (Rlt_dec 0 im).
      * rewrite cos_PI2, sin_PI2, Rabs_right by lra. f_equal; ring.
      * destruct (Rlt_dec im 0).
        -- rewrite cos_neg, sin_neg, cos_PI2, sin_PI2, Rabs_left by lra.
           f_equal; ring.
        -- assert (im = 0) by lra. subst im.
           rewrite Rabs_R0. f_equal; ring.
Qed.

Lemma modulus_of_polar (mag phase : R) :
  Cabs (polar mag phase) = Rabs mag.
Proof.
  rewrite polar_pair. unfold Cabs. cbn [fst snd].
  replace (mag * cos phase * (mag * cos phase)
           + mag * sin phase * (mag * sin phase))
    with (mag² * ((sin phase)² + (cos phase)²)) by (unfold Rsqr; ring).
  rewrite sin2_cos2, Rmult_1_r. apply sqrt_Rsqr_abs.
Qed.

(** ** Images *)

Lemma map_over_map2 {X Y Z W : Type} (g : Z -> W) (f : X -> Y -> Z)
  (u : list X) (v : list Y) :
  map g (Shift.map2 f u v) = Shift.map2 (fun a b => g (f a b)) u v.
Proof.
  revert v. induction u as [|a u IH]; intros [|b v]; simpl;
    try reflexivity. now rewrite IH.
Qed.

Lemma map2_left {X Y W : Type} (f : X -> Y -> W) (h : X -> W)
  (u : list X) (v : list Y) :
  length u = length v ->
  (forall a b, In a u -> In b v -> f a b = h a) ->
  Shift.map2 f u v = map h u.
Proof.
  revert v. induction u as [|a u IH]; intros [|b v] Hl H; simpl in *;
    try discriminate; [reflexivity|].
  rewrite H by (now left). rewrite IH; [reflexivity | lia |].
  intros a' b' Ha Hb. apply H; now right.
Qed.

Lemma map2_right {X Y W : Type} (f : X -> Y -> W) (h : Y -> W)
  (u : list X) (v : list Y) :
  length u = length v ->
  (forall a b, In a u -> In b v -> f a b = h b) ->
  Shift.map2 f u v = map h v.
Proof.
  revert v. induction u as [|a u IH]; intros [|b v] Hl H; simpl in *;
    try discriminate; [reflexivity|].
  rewrite H by (now left). rewrite IH; [reflexivity | lia |].
  intros a' b' Ha Hb. apply H; now right.
Qed.

Lemma rows_of_shape {X : Type} (n0 n1 : nat) (a : list (list X)) :
  Shift.has_shape 2 [n0; n1] a ->
  length a = n0 /\ forall row, In row a -> length row = n1.
Proof.
  intros (L & _ & HF). split; [exact L|]. rewrite Forall_forall in HF.
  intros row Hrow. now destruct (HF row Hrow) as (Lr & _).
Qed.

Lemma project_left {X Y Z W : Type} (g : Z -> W) (f : X -> Y -> Z)
  (h : X -> W) (n0 n1 : nat) (a : list (list X)) (b : list (list Y)) :
  Shift.has_shape 2 [n0; n1] a -> Shift.has_shape 2 [n0; n1] b ->
  (forall x y, g (f x y) = h x) ->
  map (map g) (zip_image f a b) = map (map h) a.
Proof.
  intros Ha Hb H. apply rows_of_shape in Ha, Hb.
  destruct Ha as [La Ra], Hb as [Lb Rb]. unfold zip_image.
  rewrite map_over_map2. apply map2_left; [congruence|]. intros r s Hr Hs.
  rewrite map_over_map2.
  apply map2_left; [rewrite (Ra r Hr), (Rb s Hs); reflexivity|].
  intros; apply H.
Qed.

Lemma project_right {X Y Z W : Type} (g : Z -> W) (f : X -> Y -> Z)
  (h : Y -> W) (n0 n1 : nat) (a : list (list X)) (b : list (list Y)) :
  Shift.has_shape 2 [n0; n1] a -> Shift.has_shape 2 [n0; n1] b ->
  (forall x y, g (f x y) = h y) ->
  map (map g) (zip_image f a b) = map (map h) b.
Proof.
  intros Ha Hb H. apply rows_of_shape in Ha, Hb.
  destruct Ha as [La Ra], Hb as [Lb Rb]. unfold zip_image.
  rewrite map_over_map2. apply map2_right; [congruence|]. intros r s Hr Hs.
  rewrite map_over_map2.
  apply map2_right; [rewrite (Ra r Hr), (Rb s Hs); reflexivity|].
  intros; apply H.
Qed.

Lemma map2_maps {X Y Z W : Type} (f : Y -> Z -> W) (g : X -> Y) (h : X -> Z)
  (l : list X) :
  Shift.map2 f (map g l) (map h l) = map (fun x => f (g x) (h x)) l.
Proof.
  induction l as [|x l IH]; simpl; [reflexivity|]. now rewrite IH.
Qed.

Lemma zip_maps {X Y Z W : Type} (f : Y -> Z -> W) (g : X -> Y) (h : X -> Z)
  (a : list (list X)) :
  zip_image f (map (map g) a) (map (map h) a)
  = map (map (fun x => f (g x) (h x))) a.
Proof.
  unfold zip_image. rewrite map2_maps. apply map_ext. intros row.
  apply map2_maps.
Qed.

Lemma map_map_id {X : Type} (f : X -> X) (a : list (list X)) :
  (forall x, f x = x) -> map (map f) a = a.
Proof.
  intros H. rewrite <- (map_id a) at 2. apply map_ext. intros row.
  rewrite <- (map_id row) at 2. now apply map_ext.
Qed.

(** Magnitude and phase give back the real and the imaginary part: for
    two images of the same shape, [mag_phase_to_real_imag] applied to the
    result of [real_imag_to_mag_phase] returns the two images. *)
Theorem real_imag_roundtrip (n0 n1 : nat) (realpart imagpart : image) :
  Shift.has_shape 2 [n0; n1] realpart ->
  Shift.has_shape 2 [n0; n1] imagpart ->
  mag_phase_to_real_imag
    (fst (real_imag_to_mag_phase realpart imagpart))
    (snd (real_imag_to_mag_phase realpart imagpart))
  = (realpart, imagpart).
Proof.
  intros Hre Him. unfold mag_phase_to_real_imag, real_imag_to_mag_phase.
  cbn [fst snd]. rewrite zip_maps.
  rewrite (map_map_id (fun a => polar (Cabs a) (angle a)))
    by (intros [re im]; apply polar_of_cartesian).
  apply f_equal2.
  - etransitivity.
    + apply (project_left fst cartesian (fun x => x) n0 n1 _ _ Hre Him).
      intros; now rewrite cartesian_pair.
    + now apply map_map_id.
  - etransitivity.
    + apply (project_right snd cartesian (fun y => y) n0 n1 _ _ Hre Him).
      intros; now rewrite cartesian_pair.
    + now apply map_map_id.
Qed.

(** The other way round the magnitude comes back as its absolute value:
    [real_imag_to_mag_phase] applied to the result of
    [mag_phase_to_real_imag] returns [|mag|], so a negative magnitude is
    not recovered. *)
Theorem magnitude_roundtrip (n0 n1 : nat) (mag phase : image) :
  Shift.has_shape 2 [n0; n1] mag ->
  Shift.has_shape 2 [n0; n1] phase ->
  fst (real_imag_to_mag_phase
         (fst (mag_phase_to_real_imag mag phase))
         (snd (mag_phase_to_real_imag mag phase)))
  = map (map Rabs) mag.
Proof.
  intros Hm Hp. unfold mag_phase_to_real_imag, real_imag_to_mag_phase.
  cbn [fst snd]. rewrite zip_maps.
  rewrite (map_map_id (fun a => cartesian (fst a) (snd a)))
    by (intros [re im]; apply cartesian_pair).
  apply (project_left Cabs polar Rabs n0 n1 _ _ Hm Hp).
  intros m p. apply modulus_of_polar.
Qed.

(** ** The preprocessing *)

Lemma ln_small : ln 2e-3 < 0.
Proof. rewrite <- ln_1. apply ln_increasing; lra. Qed.

Lemma clip_cases (x : R) :
  (Rabs x < 2e-3 /\ clip x = 2e-3) \/
  (2e-3 <= Rabs x /\ 1 < x /\ clip x = 1) \/
  (2e-3 <= Rabs x /\ x <= 1 /\ clip x = x).
Proof.
  unfold clip. destruct (Rlt_dec (Rabs x) 2e-3) as [H|H].
  - left. split; [exact H|]. destruct (Rlt_dec 1 2e-3); [lra | reflexivity].
  - right. destruct (Rlt_dec 1 x) as [K|K]; [left | right]; repeat split; lra.
Qed.

Lemma neg_log_clip_range (x : R) : 0 <= neg_log (clip x) <= - ln 2e-3.
Proof.
  pose proof ln_small as Hs.
  destruct (clip_cases x) as [[_ ->]|[(_ & _ & ->)|(Ha & H1 & ->)]];
    unfold neg_log.
  - destruct (Rlt_dec 2e-3 0); lra.
  - destruct (Rlt_dec 1 0); [lra|]. rewrite ln_1. lra.
  - destruct (Rlt_dec x 0) as [Hn|Hn]; [lra|].
    assert (Hx : 2e-3 <= x) by (rewrite Rabs_right in Ha; lra).
    assert (L1 : ln 2e-3 <= ln x).
    { destruct (Req_dec 2e-3 x) as [<-|Hne]; [lra|].
      left. apply ln_increasing; lra. }
    assert (L2 : ln x <= 0).
    { destruct (Req_dec x 1) as [->|Hne]; [rewrite ln_1; lra|].
      left. rewrite <- ln_1. apply ln_increasing; lra. }
    lra.
Qed.

Lemma clip_range (x : R) : clip x <= 1 /\ 2e-3 <= Rabs (clip x).
Proof.
  destruct (clip_cases x) as [[_ ->]|[(_ & _ & ->)|(Ha & H1 & ->)]].
  - rewrite Rabs_right; lra.
  - rewrite Rabs_right; lra.
  - lra.
Qed.

Lemma clip_idempotent (x : R) : clip (clip x) = clip x.
Proof.
  destruct (clip_range x) as [H1 H2].
  destruct (clip_cases (clip x)) as [[K _]|[(_ & K & _)|(_ & _ & K)]];
    [lra | lra | exact K].
Qed.

(** The values [preprocess] returns all lie in [[0, -ln(0.002)]]; the
    array of the caller is changed by the call: afterwards its elements
    are at most [1] and of absolute value at least [0.002], and a second
    call leaves it as it is. *)
Theorem preprocess_range (dat : list R) :
  Forall (fun y => 0 <= y <= - ln 2e-3) (snd (preprocess dat)) /\
  Forall (fun x => x <= 1 /\ 2e-3 <= Rabs x) (fst (preprocess dat)) /\
  length (snd (preprocess dat)) = length dat /\
  fst (preprocess (fst (preprocess dat))) = fst (preprocess dat).
Proof.
  unfold preprocess. cbn [fst snd]. repeat split.
  - apply Forall_forall. intros y Hy. rewrite map_map in Hy.
    apply in_map_iff in Hy. destruct Hy as (x & <- & _).
    apply neg_log_clip_range.
  - apply Forall_forall. intros y Hy. apply in_map_iff in Hy.
    destruct Hy as (x & <- & _). apply clip_range.
  - now rewrite !length_map.
  - rewrite map_map. apply map_ext. intros x. apply clip_idempotent.
Qed.

Lemma real_imag_roundtrip_witness :
  Shift.has_shape 2 [1; 2]%nat [[3; -1]] /\
  Shift.has_shape 2 [1; 2]%nat [[4; 0]] /\
  mag_phase_to_real_imag
    (fst (real_imag_to_mag_phase [[3; -1]] [[4; 0]]))
    (snd (real_imag_to_mag_phase [[3; -1]] [[4; 0]]))
  = ([[3; -1]], [[4; 0]]).
Proof.
  assert (H1 : Shift.has_shape (A:=R) 2 [1; 2]%nat [[3; -1]]).
  { simpl. repeat split; repeat constructor. }
  assert (H2 : Shift.has_shape (A:=R) 2 [1; 2]%nat [[4; 0]]).
  { simpl. repeat split; repeat constructor. }
  split; [exact H1|]. split; [exact H2|].
  exact (real_imag_roundtrip 1 2 [[3; -1]] [[4; 0]] H1 H2).
Defined.

Lemma magnitude_roundtrip_witness :
  Shift.has_shape 2 [1; 2]%nat [[-2; 5]] /\
  Shift.has_shape 2 [1; 2]%nat [[1; 0]] /\
  fst (real_imag_to_mag_phase
         (fst (mag_phase_to_real_imag [[-2; 5]] [[1; 0]]))
         (snd (mag_phase_to_real_imag [[-2; 5]] [[1; 0]])))
  = map (map Rabs) [[-2; 5]].
Proof.
  assert (H1 : Shift.has_shape (A:=R) 2 [1; 2]%nat [[-2; 5]]).
  { simpl. repeat split; repeat constructor. }
  assert (H2 : Shift.has_shape (A:=R) 2 [1; 2]%nat [[1; 0]]).
  { simpl. repeat split; repeat constructor. }
  split; [exact H1|]. split; [exact H2|].
  exact (magnitude_roundtrip 1 2 [[-2; 5]] [[1; 0]] H1 H2).
Defined.

End Numeric.

(* ================================================================= *)
(** * [realign_image]: shifts by whole pixels *)
(* ================================================================= *)

Module Realign.

Import Propagate.

Local Open Scope R_scope.

(** [np.round]: to the nearest integer, a tie to the even one. *)
Definition np_round (x : R) : Z :=
  let f := Zfloor x in
  if Rlt_dec (x - IZR f) (1 / 2) then f
  else if Rlt_dec (1 / 2) (x - IZR f) then (f + 1)%Z
  else if Z.even f then f else (f + 1)%Z.

(** [int(x)]: towards zero. *)
Definition int (x : R) : Z := if Rle_dec 0 x then Zfloor x else Zceil x.

(** [np.roll(l, n, axis=0)]: the element at index [i] moves to index
    [(i + n) mod len(l)]. *)
Definition roll {X : Type} (n : Z) (l : list X) : list X :=
  Shift.rot (Z.to_nat ((- n) mod Z.of_nat (length l))) l.

Section Fourier.

(** The branch for shifts by fractions of a pixel:
    [np.abs(np.fft.ifftn(fourier_shift(np.fft.fftn(arr), shift)))]. *)
Variable fourier_path : image -> R * R -> image.

Definition realign_image (arr : image) (shift : R * R) : image :=
  if Rlt_dec (Rabs (fst shift - IZR (np_round (fst shift)))) 0.01 then
    if Rlt_dec (Rabs (snd shift - IZR (np_round (snd shift)))) 0.01 then
      let temp := roll (int (fst shift)) arr in
      map (roll (int (snd shift))) temp
    else fourier_path arr shift
  else fourier_path arr shift.

Lemma np_round_integer (k : Z) : np_round (IZR k) = k.
Proof.
  unfold np_round. rewrite ZfloorZ.
  destruct (Rlt_dec (IZR k - IZR k) (1 / 2)); [reflexivity | lra].
Qed.

Lemma int_integer (k : Z) : int (IZR k) = k.
Proof.
  unfold int. destruct (Rle_dec 0 (IZR k)); [apply ZfloorZ|].
  apply Zceil_eq. lra.
Qed.

Lemma rot_zero {X : Type} (l : list X) : Shift.rot 0 l = l.
Proof. unfold Shift.rot. simpl. apply app_nil_r. Qed.

Lemma rot_nil {X : Type} (p : nat) : Shift.rot p (@nil X) = [].
Proof. unfold Shift.rot. now destruct p. Qed.

Lemma roll_map {X Y : Type} (f : X -> Y) (n : Z) (l : list X) :
  roll n (map f l) = map f (roll n l).
Proof. unfold roll. rewrite length_map. apply Shift.rot_map. Qed.

Lemma roll_back {X : Type} (n : Z) (l : list X) :
  roll (- n) (roll n l) = l.
Proof.
  unfold roll. rewrite Shift.length_rot, Z.opp_involutive.
  destruct l as [|x l].
  { now rewrite !rot_nil. }
  set (len := Z.of_nat (length (x :: l))).
  assert (Hlen : (0 < len)%Z) by (subst len; cbn [length]; lia).
  destruct (Z.eq_dec (n mod len) 0) as [E|NE].
  - rewrite (Z.mod_opp_l_z n len) by lia. rewrite E. simpl.
    now rewrite !rot_zero.
  - rewrite (Z.mod_opp_l_nz n len) by lia.
    pose proof (Z.mod_pos_bound n len Hlen) as B.
    apply Shift.rot_rot; subst len; lia.
Qed.

Lemma near_integer (k : Z) : Rabs (IZR k - IZR (np_round (IZR k))) < 0.01.
Proof.
  rewrite np_round_integer, Rminus_diag, Rabs_R0. lra.
Qed.

Lemma realign_integer (arr : image) (k0 k1 : Z) :
  realign_image arr (IZR k0, IZR k1) = map (roll k1) (roll k0 arr).
Proof.
  unfold realign_image. cbn [fst snd].
  destruct (Rlt_dec _ _) as [_|N]; [|exfalso; apply N, near_integer].
  destruct (Rlt_dec _ _) as [_|N]; [|exfalso; apply N, near_integer].
  now rewrite !int_integer.
Qed.

(** Realigning by a shift of whole pixels and then by the opposite shift
    returns the image. *)
Theorem realign_roundtrip (arr : image) (k0 k1 : Z) :
  realign_image (realign_image arr (IZR k0, IZR k1))
                (IZR (- k0), IZR (- k1))
  = arr.
Proof.
  rewrite !realign_integer. rewrite roll_map, roll_back, map_map.
  rewrite <- (map_id arr) at 2. apply map_ext. intros row.
  apply roll_back.
Qed.

(** A shift less than a hundredth below a positive whole number [k]
    passes the test for whole pixels, and is then applied truncated: the
    image is rolled by [k - 1], not by [k]. *)
Theorem realign_truncates (arr : image) (s0 : R) (k0 k1 : Z) :
  (1 <= k0)%Z -> IZR k0 - 0.01 < s0 < IZR k0 ->
  realign_image arr (s0, IZR k1) = map (roll k1) (roll (k0 - 1) arr).
Proof.
  intros Hk [Hlo Hhi]. apply IZR_le in Hk.
  assert (Hf : Zfloor s0 = (k0 - 1)%Z).
  { apply Zfloor_eq. rewrite minus_IZR. lra. }
  assert (Hr : np_round s0 = k0).
  { unfold np_round. rewrite Hf, minus_IZR.
    destruct (Rlt_dec _ _); [lra|].
    destruct (Rlt_dec _ _); [lia | lra]. }
  unfold realign_image. cbn [fst snd]. rewrite Hr.
  destruct (Rlt_dec _ _) as [_|N].
  - destruct (Rlt_dec _ _) as [_|N]; [|exfalso; apply N, near_integer].
    rewrite int_integer. unfold int.
    destruct (Rle_dec 0 s0); [now rewrite Hf | lra].
  - exfalso. apply N. rewrite Rabs_left; lra.
Qed.

End Fourier.

Lemma realign_truncates_witness :
  (1 <= 1)%Z /\ IZR 1 - 0.01 < 0.995 < IZR 1 /\
  realign_image (fun arr _ => arr) [[1; 2]; [3; 4]; [5; 6]] (0.995, IZR 0)
  = map (roll 0) (roll (1 - 1) [[1; 2]; [3; 4]; [5; 6]]).
Proof.
  assert (H : IZR 1 - 0.01 < 0.995 < IZR 1) by lra.
  split; [lia|]. split; [exact H|].
  apply (realign_truncates (fun arr _ => arr) [[1; 2]; [3; 4]; [5; 6]]
           0.995 1 0); [lia | exact H].
Defined.

End Realign.
